(** * EduSpider: the crawl engine of crawler.py and db.py, embedded in Rocq

    The development follows the source files:
    - [Py]        the Python string operations the crawler calls
                  (str.lower, str.find, slices, str.strip, str.split, ...);
    - [UrlLib]    urllib.parse.urlparse / urlunparse as called by the crawler;
    - the pure functions of crawler.py (normalize_url, is_allowed_domain,
      should_skip_url, extract_topics);
    - [Db]        the four tables of db.py with their operations;
    - the stateful part of crawler.py (check_robots, rate_limit, crawl, main)
      in a state-and-exception monad over an explicit environment.

    Scope of the string model: a Python str is a [string] of ASCII characters.
    Characters above 127 have no case, are not word characters and are not
    white space here; Unicode case folding is outside the model.  urlsplit's
    validation of bracketed (IPv6) authorities, which raises ValueError, is
    not modelled: urlparse is total here.

    Scope of the process model: the network and the faults of the database
    are an explicit environment [Env]; time.time() is a count of
    milliseconds instead of a float; BeautifulSoup is not modelled, a fetched
    HTML body is given by what parse_page returns for it, and parse_page does
    not raise; exceptions arise where the environment is consulted, and
    KeyboardInterrupt is one of them. *)

From Stdlib Require Import ZArith NArith Ascii String List Bool Lia.
From stdpp Require Import gmap strings list fin_maps.

Set Default Goal Selector "!".

Local Open Scope string_scope.
Local Open Scope Z_scope.

(** ** Python strings *)

Module Py.

Definition code (c : ascii) : N := N_of_ascii c.

Definition in_range (lo hi : N) (c : ascii) : bool :=
  ((lo <=? code c) && (code c <=? hi))%N.

Definition isupper_c (c : ascii) : bool := in_range 65 90 c.
Definition islower_c (c : ascii) : bool := in_range 97 122 c.
Definition isalpha_c (c : ascii) : bool := isupper_c c || islower_c c.
Definition isdigit_c (c : ascii) : bool := in_range 48 57 c.
Definition isascii_c (c : ascii) : bool := (code c <? 128)%N.

(** str.isspace on one character: TAB, LF, VT, FF, CR, FS, GS, RS, US, SPACE.
    The same class is [\s] of the re module and the separator of str.split(). *)
Definition isspace_c (c : ascii) : bool :=
  in_range 9 13 c || in_range 28 32 c.

(** [\w] of the re module on ASCII: letters, digits and the underscore. *)
Definition isword_c (c : ascii) : bool :=
  isalpha_c c || isdigit_c c || (code c =? 95)%N.

Definition lower_c (c : ascii) : ascii :=
  if isupper_c c then ascii_of_N (code c + 32) else c.

(** s.lower() *)
Fixpoint lower (s : string) : string :=
  match s with
  | EmptyString => EmptyString
  | String c s' => String (lower_c c) (lower s')
  end.

Definition len (s : string) : Z := Z.of_nat (String.length s).

(** bool(s): the empty string is falsy. *)
Definition truthy (s : string) : bool :=
  match s with EmptyString => false | _ => true end.

(** [a or b] on strings. *)
Definition or_else (a b : string) : string := if truthy a then a else b.

Fixpoint take (n : nat) (s : string) : string :=
  match n, s with
  | S n', String c s' => String c (take n' s')
  | _, _ => EmptyString
  end.

Fixpoint drop (n : nat) (s : string) : string :=
  match n, s with
  | S n', String _ s' => drop n' s'
  | _, _ => s
  end.

(** Slice bounds: a negative index counts from the end, and every index is
    clipped to [0, len s]. *)
Definition clip (s : string) (i : Z) : nat :=
  Z.to_nat (if i <? 0 then Z.max (i + len s) 0 else Z.min i (len s)).

(** s[:i] *)
Definition slice_to (s : string) (i : Z) : string := take (clip s i) s.
(** s[i:] *)
Definition slice_from (s : string) (i : Z) : string := drop (clip s i) s.
(** s[i:j] *)
Definition slice (s : string) (i j : Z) : string :=
  take (clip s j - clip s i) (drop (clip s i) s).

(** s.startswith(p) *)
Fixpoint startswith (s p : string) {struct p} : bool :=
  match p, s with
  | EmptyString, _ => true
  | String a p', String b s' => Ascii.eqb a b && startswith s' p'
  | String _ _, EmptyString => false
  end.

(** s.endswith(p) *)
Definition endswith (s p : string) : bool :=
  (String.length p <=? String.length s)%nat
  && String.eqb (drop (String.length s - String.length p) s) p.

(** Offset of the first occurrence of the character [c] in [s], or -1. *)
Fixpoint find0 (c : ascii) (s : string) : Z :=
  match s with
  | EmptyString => -1
  | String a s' =>
      if Ascii.eqb a c then 0
      else let r := find0 c s' in if r <? 0 then -1 else r + 1
  end.

(** s.find(c, start) for a one-character [c]. *)
Definition find_from (s : string) (c : ascii) (start : Z) : Z :=
  let k := clip s start in
  let r := find0 c (drop k s) in
  if r <? 0 then -1 else Z.of_nat k + r.

(** s.find(c) *)
Definition find (s : string) (c : ascii) : Z := find0 c s.

(** s.rfind(c) for a one-character [c]. *)
Fixpoint rfind (s : string) (c : ascii) : Z :=
  match s with
  | EmptyString => -1
  | String a s' =>
      let r := rfind s' c in
      if 0 <=? r then r + 1 else if Ascii.eqb a c then 0 else -1
  end.

(** c in s, for a one-character [c]. *)
Definition contains (s : string) (c : ascii) : bool := 0 <=? find s c.

Fixpoint mem_c (c : ascii) (chars : string) : bool :=
  match chars with
  | EmptyString => false
  | String a r => Ascii.eqb a c || mem_c c r
  end.

(** s.lstrip(chars) *)
Fixpoint lstrip (s chars : string) : string :=
  match s with
  | EmptyString => EmptyString
  | String c s' => if mem_c c chars then lstrip s' chars else s
  end.

(** s.rstrip(chars) *)
Fixpoint rstrip (s chars : string) : string :=
  match s with
  | EmptyString => EmptyString
  | String c s' =>
      match rstrip s' chars with
      | EmptyString => if mem_c c chars then EmptyString else String c EmptyString
      | r => String c r
      end
  end.

(** s.strip(chars) *)
Definition strip (s chars : string) : string := rstrip (lstrip s chars) chars.

(** s.replace(c, "") for a one-character [c]. *)
Fixpoint remove_c (c : ascii) (s : string) : string :=
  match s with
  | EmptyString => EmptyString
  | String a s' => if Ascii.eqb a c then remove_c c s' else String a (remove_c c s')
  end.

(** s.split(c, 1) when [c in s]: the text before the first [c] and the text
    after it. *)
Definition split1 (s : string) (c : ascii) : string * string :=
  let i := find s c in (slice_to s i, slice_from s (i + 1)).

(** s.split(): maximal runs of characters that are not white space. *)
Fixpoint split_ws_aux (s : string) (cur : string) : list string :=
  match s with
  | EmptyString => match cur with EmptyString => [] | _ => [cur] end
  | String c s' =>
      if isspace_c c
      then match cur with
           | EmptyString => split_ws_aux s' EmptyString
           | _ => cur :: split_ws_aux s' EmptyString
           end
      else split_ws_aux s' (cur +:+ String c EmptyString)
  end.

Definition split (s : string) : list string := split_ws_aux s EmptyString.

(** s.isdigit(): not empty and every character a decimal digit. *)
Fixpoint all_c (p : ascii -> bool) (s : string) : bool :=
  match s with
  | EmptyString => true
  | String c s' => p c && all_c p s'
  end.

Definition isdigit (s : string) : bool := truthy s && all_c isdigit_c s.


End Py.

(** ** urllib.parse *)

Module UrlLib.
Import Py.

Definition uses_netloc : list string :=
  [""; "ftp"; "http"; "gopher"; "nntp"; "telnet";
   "imap"; "wais"; "file"; "mms"; "https"; "shttp";
   "snews"; "prospero"; "rtsp"; "rtspu"; "rsync";
   "svn"; "svn+ssh"; "sftp"; "nfs"; "git"; "git+ssh";
   "ws"; "wss"].

Definition uses_params : list string :=
  [""; "ftp"; "hdl"; "prospero"; "http"; "imap";
   "https"; "shttp"; "rtsp"; "rtspu"; "sip"; "sips";
   "mms"; "sftp"; "tel"].

Definition scheme_chars : string :=
  "abcdefghijklmnopqrstuvwxyzABCDEFGHIJKLMNOPQRSTUVWXYZ0123456789+-.".

(** chr(0) .. chr(32) *)
Definition _WHATWG_C0_CONTROL_OR_SPACE : string :=
  string_of_list_ascii (List.map (fun n => ascii_of_nat n) (seq 0 33)).

(** TAB, CR, LF *)
Definition _UNSAFE_URL_BYTES_TO_REMOVE : list ascii :=
  [ascii_of_nat 9; ascii_of_nat 13; ascii_of_nat 10].

(** x in l, for a list of strings *)
Definition in_list (x : string) (l : list string) : bool :=
  existsb (String.eqb x) l.

Record SplitResult := mkSplit {
  s_scheme : string; s_netloc : string; s_path : string;
  s_query : string; s_fragment : string }.

Record ParseResult := mkParse {
  scheme : string; netloc : string; path : string;
  params : string; query : string; fragment : string }.

Definition _splitnetloc (url : string) (start : Z) : string * string :=
  let delim :=
    fold_left (fun delim c =>
                 let wdelim := find_from url c start in
                 if 0 <=? wdelim then Z.min delim wdelim else delim)
              ["/"; "?"; "#"]%char (len url) in
  (slice url start delim, slice_from url delim).

Definition urlsplit (url : string) : SplitResult :=
  let url := lstrip url _WHATWG_C0_CONTROL_OR_SPACE in
  let url := fold_left (fun u b => remove_c b u) _UNSAFE_URL_BYTES_TO_REMOVE url in
  let i := find url ":" in
  let '(scheme, url) :=
    if (0 <? i)
       && match url with
          | String c0 _ => isascii_c c0 && isalpha_c c0
          | EmptyString => false
          end
       && all_c (fun c => mem_c c scheme_chars) (slice_to url i)
    then (lower (slice_to url i), slice_from url (i + 1))
    else ("", url) in
  let '(netloc, url) :=
    if String.eqb (slice_to url 2) "//" then _splitnetloc url 2 else ("", url) in
  let '(url, fragment) :=
    if contains url "#" then split1 url "#" else (url, "") in
  let '(url, query) :=
    if contains url "?" then split1 url "?" else (url, "") in
  mkSplit scheme netloc url query fragment.

Definition _splitparams (url : string) : string * string :=
  if contains url "/" then
    let i := find_from url ";" (rfind url "/") in
    if i <? 0 then (url, "")
    else (slice_to url i, slice_from url (i + 1))
  else
    let i := find url ";" in
    (slice_to url i, slice_from url (i + 1)).

Definition urlparse (url : string) : ParseResult :=
  let r := urlsplit url in
  let '(url, params) :=
    if in_list (s_scheme r) uses_params && contains (s_path r) ";"
    then _splitparams (s_path r)
    else (s_path r, "") in
  mkParse (s_scheme r) (s_netloc r) url params (s_query r) (s_fragment r).

Definition urlunsplit (scheme netloc url query fragment : string) : string :=
  let url :=
    if truthy netloc
       || (truthy scheme && in_list scheme uses_netloc
           && negb (String.eqb (slice_to url 2) "//"))
    then
      let url :=
        if truthy url && negb (String.eqb (slice_to url 1) "/")
        then "/" +:+ url else url in
      "//" +:+ or_else netloc "" +:+ url
    else url in
  let url := if truthy scheme then scheme +:+ ":" +:+ url else url in
  let url := if truthy query then url +:+ "?" +:+ query else url in
  let url := if truthy fragment then url +:+ "#" +:+ fragment else url in
  url.

Definition urlunparse (scheme netloc url params query fragment : string) : string :=
  let url := if truthy params then url +:+ ";" +:+ params else url in
  urlunsplit scheme netloc url query fragment.

End UrlLib.

(** ** crawler.py: constants and pure functions *)

Import Py UrlLib.

Definition ALLOWED_TLDS : list string := [".edu"; ".org"; ".gov"].

Definition SKIP_EXTENSIONS : list string :=
  [".pdf"; ".jpg"; ".jpeg"; ".png"; ".gif"; ".svg"; ".mp4"; ".mp3";
   ".doc"; ".docx"; ".xls"; ".xlsx"; ".ppt"; ".pptx"; ".zip"; ".tar"; ".gz"].

Definition normalize_url (url : string) : string :=
  let parsed := urlparse url in
  let path := or_else (rstrip (path parsed) "/") "/" in
  urlunparse (scheme parsed) (lower (netloc parsed)) path
             (params parsed) (query parsed) "".

Definition is_allowed_domain (url : string) : bool :=
  let domain := lower (netloc (urlparse url)) in
  existsb (fun tld => endswith domain tld) ALLOWED_TLDS.

(** *** The fragment of the re module used by crawler.py *)

Module Re.

(** Patterns built from literal text, alternation [a|b] and concatenation. *)
Inductive regex :=
| Lit (s : string)
| Alt (a b : regex)
| Cat (a b : regex).

(** One pattern character against one subject character; under re.I two
    ASCII characters match when they agree up to case. *)
Definition char_match (ignorecase : bool) (p c : ascii) : bool :=
  if ignorecase then Ascii.eqb (lower_c p) (lower_c c) else Ascii.eqb p c.

Fixpoint lit_match (ignorecase : bool) (p s : string) {struct p} : option string :=
  match p, s with
  | EmptyString, _ => Some s
  | String a p', String b s' =>
      if char_match ignorecase a b then lit_match ignorecase p' s' else None
  | String _ _, EmptyString => None
  end.

(** All the ways [r] matches a prefix of [s]: the list of the remainders. *)
Fixpoint match_at (ignorecase : bool) (r : regex) (s : string) : list string :=
  match r with
  | Lit p => match lit_match ignorecase p s with Some rest => [rest] | None => [] end
  | Alt a b => match_at ignorecase a s ++ match_at ignorecase b s
  | Cat a b => flat_map (match_at ignorecase b) (match_at ignorecase a s)
  end.

(** bool(pattern.search(s)): the pattern matches at some offset of [s]. *)
Fixpoint search (ignorecase : bool) (r : regex) (s : string) : bool :=
  match match_at ignorecase r s with
  | _ :: _ => true
  | [] => match s with
          | EmptyString => false
          | String _ s' => search ignorecase r s'
          end
  end.

(** re.sub(r"[^\w\s-]", " ", s): every character that is not a word character,
    white space or a hyphen becomes one space. *)
Fixpoint sub_nonword_space (s : string) : string :=
  match s with
  | EmptyString => EmptyString
  | String c s' =>
      String (if isword_c c || isspace_c c || Ascii.eqb c "-" then c else " "%char)
             (sub_nonword_space s')
  end.

End Re.

(** re.compile(r"/(login|signin|auth|logout|signup|register|account|sso)/", re.I) *)
Definition SKIP_PATH_PATTERNS : Re.regex :=
  Re.Cat (Re.Lit "/")
    (Re.Cat
       (Re.Alt (Re.Lit "login") (Re.Alt (Re.Lit "signin") (Re.Alt (Re.Lit "auth")
       (Re.Alt (Re.Lit "logout") (Re.Alt (Re.Lit "signup") (Re.Alt (Re.Lit "register")
       (Re.Alt (Re.Lit "account") (Re.Lit "sso"))))))))
       (Re.Lit "/")).

Definition STOP_WORDS : gset string :=
  Eval vm_compute in list_to_set (split (
    "the a an of for to in on at by is it and or but with from as this that " +:+
    "are was were be been being have has had do does did will would shall should " +:+
    "may might can could not no all any each every some its our your their " +:+
    "what which who whom how when where why about into through during before after " +:+
    "above below between up down out off over under again further then once also " +:+
    "more most very just than too so such only own same here there these those " +:+
    "home page site web contact us help search skip navigation menu main content " +:+
    "new go get one two use")).

Definition MIN_TOPIC_LENGTH : Z := 3.

Definition should_skip_url (url : string) : bool :=
  let parsed := urlparse url in
  if negb (in_list (scheme parsed) ["http"; "https"]) then true
  else
    let lower_path := lower (path parsed) in
    if existsb (fun ext => endswith lower_path ext) SKIP_EXTENSIONS then true
    else if Re.search true SKIP_PATH_PATTERNS (path parsed) then true
    else false.

(** The first inner loop of extract_topics: single words. *)
Definition add_word (topics : gset string) (word : string) : gset string :=
  let word := strip word "-" in
  if (MIN_TOPIC_LENGTH <=? len word)
     && negb (bool_decide (word ∈ STOP_WORDS))
     && negb (isdigit word)
  then topics ∪ {[ word ]} else topics.

(** The second inner loop: words[i] and words[i + 1]. *)
Definition add_bigram (words : list string) (topics : gset string) (i : nat)
  : gset string :=
  let a := strip (nth i words "") "-" in
  let b := strip (nth (i + 1) words "") "-" in
  if negb (bool_decide (a ∈ STOP_WORDS))
     && negb (bool_decide (b ∈ STOP_WORDS))
     && (MIN_TOPIC_LENGTH <=? len a)
     && (MIN_TOPIC_LENGTH <=? len b)
  then topics ∪ {[ a +:+ " " +:+ b ]} else topics.

(** The body of [for text in raw_texts]. *)
Definition add_text (topics : gset string) (text : string) : gset string :=
  let text := Re.sub_nonword_space (lower text) in
  let words := split text in
  let topics := fold_left add_word words topics in
  fold_left (add_bigram words) (seq 0 (length words - 1)) topics.

Definition extract_topics (title : string) (headings : list string) : gset string :=
  let raw_texts := ((if truthy title then [title] else []) ++ headings)%list in
  fold_left add_text raw_texts ∅.

(** ** db.py: the store *)

Module Db.

Record crawl_row := mkCrawl {
  c_id : nat; c_seed_url : string; c_max_depth : Z;
  c_pages_found : nat; c_status : string }.

Record page_row := mkPage {
  p_id : nat; p_url : string; p_title : string; p_description : string;
  p_domain : string; p_crawl_depth : Z; p_crawl_id : nat }.

Record topic_row := mkTopic { t_id : nat; t_name : string }.

(** The four tables, each in insertion order, and the AUTOINCREMENT counter
    of each table with one (the last id handed out). *)
Record t := mkDb {
  crawls : list crawl_row;
  pages : list page_row;
  topics : list topic_row;
  page_topics : list (nat * nat);
  seq_crawls : nat; seq_pages : nat; seq_topics : nat }.

Definition empty : t := mkDb [] [] [] [] 0 0 0.

Definition create_crawl (seed_url : string) (max_depth : Z) (d : t) : nat * t :=
  let crawl_id := S (seq_crawls d) in
  (crawl_id,
   mkDb (crawls d ++ [mkCrawl crawl_id seed_url max_depth 0 "running"])
        (pages d) (topics d) (page_topics d)
        crawl_id (seq_pages d) (seq_topics d)).

(** UPDATE crawls SET pages_found = ?, status = ? WHERE id = ? *)
Definition finish_crawl (crawl_id : nat) (pages_found : nat) (status : string) (d : t) : t :=
  mkDb (List.map (fun r => if Nat.eqb (c_id r) crawl_id
                           then mkCrawl (c_id r) (c_seed_url r) (c_max_depth r) pages_found status
                           else r) (crawls d))
       (pages d) (topics d) (page_topics d)
       (seq_crawls d) (seq_pages d) (seq_topics d).

Definition page_exists (url : string) (d : t) : bool :=
  existsb (fun r => String.eqb (p_url r) url) (pages d).

(** The INSERT raises sqlite3.IntegrityError, and save_page returns None,
    when the url is already there (UNIQUE) or the crawl is not (the foreign
    key, enforced by PRAGMA foreign_keys=ON). *)
Definition save_page (url title description domain : string) (crawl_depth : Z)
    (crawl_id : nat) (d : t) : option nat * t :=
  if page_exists url d || negb (existsb (fun r => Nat.eqb (c_id r) crawl_id) (crawls d))
  then (None, d)
  else
    let page_id := S (seq_pages d) in
    (Some page_id,
     mkDb (crawls d)
          (pages d ++ [mkPage page_id url title description domain crawl_depth crawl_id])
          (topics d) (page_topics d)
          (seq_crawls d) page_id (seq_topics d)).

Definition get_or_create_topic (name : string) (d : t) : nat * t :=
  match List.find (fun r => String.eqb (t_name r) name) (topics d) with
  | Some row => (t_id row, d)
  | None =>
      let topic_id := S (seq_topics d) in
      (topic_id,
       mkDb (crawls d) (pages d) (topics d ++ [mkTopic topic_id name]) (page_topics d)
            (seq_crawls d) (seq_pages d) topic_id)
  end.

(** The IntegrityError of a duplicate link (the primary key) or of a missing
    page or topic (the foreign keys) is swallowed. *)
Definition link_page_topic (page_id topic_id : nat) (d : t) : t :=
  if existsb (fun l => Nat.eqb (fst l) page_id && Nat.eqb (snd l) topic_id) (page_topics d)
     || negb (existsb (fun r => Nat.eqb (p_id r) page_id) (pages d))
     || negb (existsb (fun r => Nat.eqb (t_id r) topic_id) (topics d))
  then d
  else mkDb (crawls d) (pages d) (topics d) (page_topics d ++ [(page_id, topic_id)])
            (seq_crawls d) (seq_pages d) (seq_topics d).

(** SELECT COUNT( * ) FROM pages WHERE crawl_id = ?  (the query of main) *)
Definition count_pages (crawl_id : nat) (d : t) : nat :=
  length (List.filter (fun r => Nat.eqb (p_crawl_id r) crawl_id) (pages d)).

Definition find_crawl (crawl_id : nat) (d : t) : option crawl_row :=
  List.find (fun r => Nat.eqb (c_id r) crawl_id) (crawls d).

End Db.

(** ** Exceptions, the environment and the process state *)

(** [Exception what] is any exception derived from Exception (URLError,
    HTTPError, UnicodeDecodeError, sqlite3.OperationalError, ...);
    KeyboardInterrupt derives from BaseException only, so [except Exception]
    lets it through. *)
Inductive exn :=
| KeyboardInterrupt
| Exception (what : string).

Inductive result (A : Type) :=
| Ok (a : A)
| Raise (e : exn).
Arguments Ok {A} a.
Arguments Raise {A} e.

(** What rp.read() meets at the robots.txt URL. *)
Inductive robots_response :=
| RobotsBody (rules : string -> string -> bool)
    (** fetched, decoded and parsed; [rules useragent url] is the verdict of
        the entries of the file *)
| RobotsHTTPError (code : Z)
    (** urlopen raised HTTPError: handled inside read() *)
| RobotsRaises (e : exn)
    (** urlopen raised anything else (URLError, timeout, ...), or the body is
        not UTF-8: read() raises before parse() starts *)
| RobotsParseRaises (e : exn) (rules : string -> string -> bool)
    (** parse() raised part-way: the entries read so far are kept *).

(** parse_page(html, url): title, description, headings and the links in the
    iteration order of the set. *)
Record parsed_page := mkParsed {
  pg_title : string; pg_description : string;
  pg_headings : list string; pg_links : list string }.

(** What fetch_page(url) meets. *)
Inductive http_response :=
| HttpRaises (e : exn)          (** requests raised, or raise_for_status did *)
| HttpNotHtml                   (** Content-Type without text/html: None *)
| HttpHtml (page : parsed_page) (** resp.text, given here as parse_page reads it *).

(** The world outside the process.  The first argument of each field is the
    number of interactions the process has had so far, so that the same
    request may be answered differently at different moments.  [db_fault]
    says whether the database call made at that moment raises (an
    OperationalError, say) instead of running. *)
Record Env := mkEnv {
  robots_txt : nat -> string -> robots_response;
  http_get : nat -> string -> http_response;
  db_fault : nat -> option exn }.

(** urllib.robotparser.RobotFileParser; [rp_rules] stands for entries and
    default_entry. *)
Record RobotFileParser := mkRobots {
  rp_url : string;
  disallow_all : bool;
  allow_all : bool;
  last_checked : Z;
  rp_rules : string -> string -> bool }.

(** What the process prints or asks of the network, in order. *)
Inductive event :=
| RobotsRead (domain robots_url : string)
    (** rp.read() on that URL, for the parser cached under that domain *)
| Fetching (depth : Z) (url : string)    (** "[depth d] Fetching: url", then fetch_page(url) *)
| BlockedByRobots (url : string)         (** "[blocked by robots.txt] url" *)
| FinishCrawl (crawl_id pages_found : nat) (status : string)
    (** db.finish_crawl(crawl_id, pages_found, status) returned *).

(** The process: the two module-level dicts of crawler.py, the database file,
    the clock (time.time(), in milliseconds, never 0), the number of
    interactions with the environment and the log. *)
Record State := mkState {
  _last_request_time : gmap string Z;
  _robots_cache : gmap string RobotFileParser;
  db : Db.t;
  now : positive;
  tick : nat;
  trace : list event }.

Definition set_db (d : Db.t) (st : State) : State :=
  mkState (_last_request_time st) (_robots_cache st) d (now st) (tick st) (trace st).

Definition log (ev : event) (st : State) : State :=
  mkState (_last_request_time st) (_robots_cache st) (db st) (now st) (tick st)
          (trace st ++ [ev]).

Definition next_tick (st : State) : State :=
  mkState (_last_request_time st) (_robots_cache st) (db st) (now st) (S (tick st))
          (trace st).

(** State and exceptions: a computation ends with a value or a raised
    exception, and with the state it reached either way. *)
Definition M (A : Type) : Type := State -> result A * State.

Definition ret {A} (a : A) : M A := fun st => (Ok a, st).

Definition bind {A B} (m : M A) (k : A -> M B) : M B :=
  fun st => match m st with
            | (Ok a, st') => k a st'
            | (Raise e, st') => (Raise e, st')
            end.

Notation "'do' x <- m ; k" := (bind m (fun x => k))
  (at level 10, x name, m at level 100, k at level 200).
Notation "'run' m ; k" := (bind m (fun _ => k))
  (at level 10, m at level 100, k at level 200).

(** try: m / except Exception: handler *)
Definition try_except_Exception {A} (m : M A) (handler : string -> M A) : M A :=
  fun st => match m st with
            | (Raise (Exception what), st') => handler what st'
            | r => r
            end.

(** ** urllib.robotparser, as check_robots uses it *)

(** RobotFileParser() *)
Definition RobotFileParser_new : RobotFileParser :=
  mkRobots "" false false 0 (fun _ _ => true).

Definition set_url (rp : RobotFileParser) (url : string) : RobotFileParser :=
  mkRobots url (disallow_all rp) (allow_all rp) (last_checked rp) (rp_rules rp).

(** rp.read() at time [time]: the parser object after the call, and whether
    the call returned or raised.  parse() begins with modified(), which sets
    last_checked to the current time. *)
Definition read (resp : robots_response) (time : positive) (rp : RobotFileParser)
  : result unit * RobotFileParser :=
  match resp with
  | RobotsBody rules =>
      (Ok tt, mkRobots (rp_url rp) (disallow_all rp) (allow_all rp) (Z.pos time) rules)
  | RobotsHTTPError code =>
      (Ok tt,
       if (code =? 401) || (code =? 403)
       then mkRobots (rp_url rp) true (allow_all rp) (last_checked rp) (rp_rules rp)
       else if (400 <=? code) && (code <? 500)
       then mkRobots (rp_url rp) (disallow_all rp) true (last_checked rp) (rp_rules rp)
       else rp)
  | RobotsRaises e => (Raise e, rp)
  | RobotsParseRaises e rules =>
      (Raise e, mkRobots (rp_url rp) (disallow_all rp) (allow_all rp) (Z.pos time) rules)
  end.

(** rp.can_fetch(useragent, url) *)
Definition can_fetch (rp : RobotFileParser) (useragent url : string) : bool :=
  if disallow_all rp then false
  else if allow_all rp then true
  else if last_checked rp =? 0 then false
  else rp_rules rp useragent url.

(** ** crawler.py: the stateful functions *)

Definition USER_AGENT : string :=
  "EduSpider/1.0 (educational crawler; +https://github.com/eduspider)".

(** print(...) *)
Definition emit (ev : event) : M unit := fun st => (Ok tt, log ev st).

(** time.sleep(wait) *)
Definition sleep (wait : Z) (st : State) : State :=
  mkState (_last_request_time st) (_robots_cache st) (db st)
          (now st + Z.to_pos wait)%positive (tick st) (trace st).

Definition rate_limit (domain : string) : M unit := fun st =>
  let now_ := Z.pos (now st) in
  let last := default 0 (_last_request_time st !! domain) in
  let wait := 1000 - (now_ - last) in
  let st := if 0 <? wait then sleep wait st else st in
  (Ok tt,
   mkState (<[domain := Z.pos (now st)]> (_last_request_time st))
           (_robots_cache st) (db st) (now st) (tick st) (trace st)).

Definition cache_robots (domain : string) (rp : RobotFileParser) (st : State) : State :=
  mkState (_last_request_time st) (<[domain := rp]> (_robots_cache st))
          (db st) (now st) (tick st) (trace st).

Section Crawler.

Variable env : Env.

Definition check_robots (url : string) : M bool := fun st =>
  let parsed := urlparse url in
  let domain := netloc parsed in
  match _robots_cache st !! domain with
  | Some rp => (Ok (can_fetch rp USER_AGENT url), st)
  | None =>
      let robots_url := scheme parsed +:+ "://" +:+ domain +:+ "/robots.txt" in
      let rp := set_url RobotFileParser_new robots_url in
      let st1 := next_tick (log (RobotsRead domain robots_url) st) in
      match read (robots_txt env (tick st) robots_url) (now st) rp with
      | (Raise KeyboardInterrupt, _) => (Raise KeyboardInterrupt, st1)
      | (_, rp) =>
          (* returned, or [except Exception: pass] *)
          (Ok (can_fetch rp USER_AGENT url), cache_robots domain rp st1)
      end
  end.

(** A call into db.py: it raises when the environment says so, and runs
    against the database otherwise. *)
Definition db_call {A} (op : Db.t -> A * Db.t) : M A := fun st =>
  match db_fault env (tick st) with
  | Some e => (Raise e, next_tick st)
  | None => let '(a, d) := op (db st) in (Ok a, set_db d (next_tick st))
  end.

Definition page_exists (url : string) : M bool :=
  db_call (fun d => (Db.page_exists url d, d)).

Definition save_page (url title description domain : string) (crawl_depth : Z)
    (crawl_id : nat) : M (option nat) :=
  db_call (Db.save_page url title description domain crawl_depth crawl_id).

Definition get_or_create_topic (name : string) : M nat :=
  db_call (Db.get_or_create_topic name).

Definition link_page_topic (page_id topic_id : nat) : M unit :=
  db_call (fun d => (tt, Db.link_page_topic page_id topic_id d)).

(** fetch_page(url): the HTML text, None for another content type, or the
    exception of requests. *)
Definition fetch_page (url : string) : M (option parsed_page) := fun st =>
  match http_get env (tick st) url with
  | HttpRaises e => (Raise e, next_tick st)
  | HttpNotHtml => (Ok None, next_tick st)
  | HttpHtml page => (Ok (Some page), next_tick st)
  end.

(** for topic_name in topics: ... (lines 194-196) *)
Fixpoint link_topics (page_id : nat) (topics : list string) : M unit :=
  match topics with
  | [] => ret tt
  | topic_name :: rest =>
      do topic_id <- get_or_create_topic topic_name;
      run link_page_topic page_id topic_id;
      link_topics page_id rest
  end.

(** Lines 163-189 of crawl, for a url that has just been added to visited:
    the id of the saved page with what parse_page returned, or [None] when
    one of the gates returned 0. *)
Definition fetch_and_save (url : string) (crawl_id : nat) (depth : Z)
  : M (option (nat * parsed_page)) :=
  do present <- page_exists url;
  if present then ret None else
  let parsed := urlparse url in
  let domain := lower (netloc parsed) in
  do allowed <- check_robots url;
  if negb allowed then (run emit (BlockedByRobots url); ret None) else
  run rate_limit domain;
  run emit (Fetching depth url);
  do fetched <- try_except_Exception
                  (do html <- fetch_page url; ret (Some html))
                  (fun _ => ret None);
  match fetched with
  | None => ret None                      (* except Exception: return 0 *)
  | Some None => ret None                 (* html is None *)
  | Some (Some page) =>
      do page_id <- save_page url (pg_title page) (pg_description page)
                              domain depth crawl_id;
      match page_id with
      | None => ret None                  (* already saved by another path *)
      | Some page_id => ret (Some (page_id, page))
      end
  end.

(** Lines 163-196: the gates, then the topics of the saved page.  [Some links]
    when the page was saved (pages_found = 1), [None] when a gate returned 0. *)
Definition crawl_page (url : string) (crawl_id : nat) (depth : Z)
  : M (option (list string)) :=
  do saved <- fetch_and_save url crawl_id depth;
  match saved with
  | None => ret None
  | Some (page_id, page) =>
      let topics := extract_topics (pg_title page) (pg_headings page) in
      run link_topics page_id (elements topics);
      ret (Some (pg_links page))
  end.

(** What a call of crawl leaves behind: its result, the visited set (the
    Python set is shared by all the calls of one traversal and mutated in
    place) and the process state. *)
Definition crawl_result : Type := result nat * gset string * State.

(** for link in links: ... (lines 199-207); [recurse] is the call
    crawl(link, max_depth, crawl_id, depth + 1, visited). *)
Fixpoint crawl_links
    (recurse : string -> gset string -> State -> option crawl_result)
    (links : list string) (pages_found : nat) (visited : gset string) (st : State)
  : option crawl_result :=
  match links with
  | [] => Some (Ok pages_found, visited, st)
  | link :: rest =>
      let link := normalize_url link in
      if bool_decide (link ∈ visited) then crawl_links recurse rest pages_found visited st
      else if should_skip_url link then crawl_links recurse rest pages_found visited st
      else if negb (is_allowed_domain link) then crawl_links recurse rest pages_found visited st
      else
        match recurse link visited st with
        | None => None
        | Some (Raise e, visited, st) => Some (Raise e, visited, st)
        | Some (Ok n, visited, st) =>
            crawl_links recurse rest (pages_found + n) visited st
        end
  end.

(** crawl with a bound on the nesting of calls; [None] when the bound is hit. *)
Fixpoint crawl_fuel (fuel : nat) (url : string) (max_depth : Z) (crawl_id : nat)
    (depth : Z) (visited : gset string) (st : State) : option crawl_result :=
  match fuel with
  | O => None
  | S fuel' =>
      let url := normalize_url url in
      if bool_decide (url ∈ visited) || (max_depth <? depth) then Some (Ok 0%nat, visited, st)
      else
        let visited := visited ∪ {[ url ]} in
        match crawl_page url crawl_id depth st with
        | (Raise e, st) => Some (Raise e, visited, st)
        | (Ok None, st) => Some (Ok 0%nat, visited, st)
        | (Ok (Some links), st) =>
            let pages_found := 1%nat in
            if depth <? max_depth
            then crawl_links
                   (fun link => crawl_fuel fuel' link max_depth crawl_id (depth + 1))
                   links pages_found visited st
            else Some (Ok pages_found, visited, st)
        end
  end.

(** crawl(url, max_depth, crawl_id, depth=0, visited=None).  The calls nest at
    most max_depth - depth + 1 deep, which is the bound given. *)
Definition crawl (url : string) (max_depth : Z) (crawl_id : nat) (depth : Z)
    (visited : option (gset string)) (st : State) : option crawl_result :=
  let visited := match visited with None => ∅ | Some v => v end in
  crawl_fuel (S (Z.to_nat (max_depth - depth))) url max_depth crawl_id depth visited st.

(** db.init_db(): CREATE TABLE IF NOT EXISTS for the four tables and their
    indexes.  The tables of [Db.t] are always there, so a call that returns
    changes nothing. *)
Definition init_db : M unit := db_call (fun d => (tt, d)).

Definition create_crawl (seed_url : string) (max_depth : Z) : M nat :=
  db_call (Db.create_crawl seed_url max_depth).

(** db.finish_crawl(crawl_id, pages_found, status); the calls that returned
    are kept in the log. *)
Definition finish_crawl (crawl_id pages_found : nat) (status : string) : M unit :=
  run db_call (fun d => (tt, Db.finish_crawl crawl_id pages_found status d));
  emit (FinishCrawl crawl_id pages_found status).

(** The COUNT query of the KeyboardInterrupt handler of main (lines 237-239). *)
Definition count_pages (crawl_id : nat) : M nat :=
  db_call (fun d => (Db.count_pages crawl_id d, d)).

(** main(), given the two parsed arguments: how the call ended, with a return
    or with an exception that no handler of main caught, and the state it
    left.  finish_crawl(crawl_id, pages_found, "done") is inside the try
    block, so what it raises is handled like what crawl raises; what the
    handlers raise, and what init_db and create_crawl raise, escapes. *)
Definition main (url : string) (depth : Z) (st : State) : option (result unit * State) :=
  let seed_url :=
    if startswith url "http://" || startswith url "https://"
    then url else "https://" +:+ url in
  if negb (is_allowed_domain seed_url) then Some (Ok tt, st)
  else
    match (run init_db; create_crawl seed_url depth) st with
    | (Raise e, st) => Some (Raise e, st)
    | (Ok crawl_id, st) =>
        let body :=
          match crawl seed_url depth crawl_id 0 None st with
          | None => None
          | Some (Ok pages_found, _, st) => Some (finish_crawl crawl_id pages_found "done" st)
          | Some (Raise e, _, st) => Some (Raise e, st)
          end in
        match body with
        | None => None
        | Some (Ok _, st) => Some (Ok tt, st)
        | Some (Raise KeyboardInterrupt, st) =>
            Some ((do c <- count_pages crawl_id;
                   finish_crawl crawl_id c "interrupted") st)
        | Some (Raise (Exception _), st) =>
            Some (finish_crawl crawl_id 0 "error" st)
        end
    end.

End Crawler.

(** ** The statements of the specification, where they differ from the code *)

Module Spec.





(** The host of a URL: the authority without the user information before the
    last [@] and without the port after the colon. *)
Definition host (url : string) : string :=
  let netloc := netloc (urlparse url) in
  let hostinfo := slice_from netloc (rfind netloc "@" + 1) in
  if contains hostinfo ":" then slice_to hostinfo (find hostinfo ":") else hostinfo.

(** in_scope as the specification words it: the lower-cased host ends with
    one of the allowed top-level domains. *)
Definition in_scope (url : string) : bool :=
  existsb (fun tld => endswith (lower (host url)) tld) ALLOWED_TLDS.







End Spec.

(** ** Auxiliary definitions of the proofs *)





(** The fetches of a log: depth and URL of each "Fetching" line. *)
Definition fetches (tr : list event) : list (Z * string) :=
  flat_map (fun ev => match ev with Fetching d u => [(d, u)] | _ => [] end) tr.

(** The finish_crawl calls of a log: those that returned. *)
Definition finishes (tr : list event) : list (nat * nat * string) :=
  flat_map (fun ev => match ev with FinishCrawl c n s => [(c, n, s)] | _ => [] end) tr.

(** The robots.txt URLs read for one domain. *)
Definition robots_reads (domain : string) (tr : list event) : list string :=
  flat_map (fun ev => match ev with
                      | RobotsRead d u => if String.eqb d domain then [u] else []
                      | _ => []
                      end) tr.

(** What a piece of the crawl may do to the process: it fetches [nf], saves
    the pages [np], finishes no job, leaves the crawls table alone, keeps
    every cached robots parser, and reads no robots.txt for a domain that
    has one cached. *)
Record evolves (st st' : State) (nf : list (Z * string)) (np : list Db.page_row) : Prop :=
  mkEvolves {
    ev_fetches : fetches (trace st') = (fetches (trace st) ++ nf)%list;
    ev_finishes : finishes (trace st') = finishes (trace st);
    ev_pages : Db.pages (db st') = (Db.pages (db st) ++ np)%list;
    ev_crawls : Db.crawls (db st') = Db.crawls (db st);
    ev_cache : ∀ d rp, _robots_cache st !! d = Some rp → _robots_cache st' !! d = Some rp;
    ev_reads : ∀ d, is_Some (_robots_cache st !! d) →
                    robots_reads d (trace st') = robots_reads d (trace st) }.

(** What a call of crawl at [depth], entered with the visited set [v], the
    state [st] and the count [n0], guarantees of its result. *)
Definition crawl_post (max_depth : Z) (crawl_id : nat) (depth : Z)
    (v : gset string) (st : State) (n0 : nat) (res : crawl_result) : Prop :=
  let '(r, v', st') := res in
  ∃ nf np,
    evolves st st' nf np ∧ v ⊆ v' ∧ NoDup nf.*2 ∧
    (∀ d u, (d, u) ∈ nf →
            depth <= d <= max_depth ∧ u ∈ v' ∧ (u ∉ v) ∧ ∃ x, u = normalize_url x) ∧
    (∀ p, p ∈ np → Db.p_crawl_id p = crawl_id) ∧
    match r with Ok n => n = (n0 + length np)%nat | Raise _ => True end.

(** The part of [evolves] that concerns robots.txt: cached parsers stay, and
    a domain with a cached parser is not read again. *)
Definition keeps_robots (st st' : State) : Prop :=
  (∀ d rp, _robots_cache st !! d = Some rp → _robots_cache st' !! d = Some rp)
  ∧ (∀ d, is_Some (_robots_cache st !! d) →
          robots_reads d (trace st') = robots_reads d (trace st)).

(** The states the process can be in later: after any number of calls of
    check_robots, crawl and main. *)
Inductive reaches (env : Env) : State → State → Prop :=
| reaches_here (st : State) : reaches env st st
| reaches_check_robots (st st' st'' : State) (url : string) (r : result bool) :
    check_robots env url st = (r, st') → reaches env st' st'' → reaches env st st''
| reaches_crawl (st st' st'' : State) (url : string) (max_depth : Z) (crawl_id : nat)
    (depth : Z) (visited : option (gset string)) (r : result nat) (v : gset string) :
    crawl env url max_depth crawl_id depth visited st = Some (r, v, st') →
    reaches env st' st'' → reaches env st st''
| reaches_main (st st' st'' : State) (url : string) (depth : Z) (r : result unit) :
    main env url depth st = Some (r, st') → reaches env st' st'' → reaches env st st''.

(** ** A small world, for the examples *)

Module Sample.

Definition initial_state : State :=
  mkState ∅ ∅ Db.empty 1700000000000%positive 0 [].

(** https://example.edu/ links to two pages of the site and to one page
    outside the allowed domains; /a is an HTML page that links back; anything
    else is not HTML. *)
Definition web (t : nat) (url : string) : http_response :=
  if String.eqb url "https://example.edu/" then
    HttpHtml (mkParsed "The Sun and Its Light" "" ["Solar Energy Basics"]
                ["https://example.edu/a"; "https://example.edu/b/"; "https://other.com/x"])
  else if String.eqb url "https://example.edu/a" then
    HttpHtml (mkParsed "A" "" [] ["https://example.edu/"])
  else HttpNotHtml.

(** Every robots.txt is served and allows everything; the database works. *)
Definition env : Env :=
  mkEnv (fun _ _ => RobotsBody (fun _ _ => true)) web (fun _ => None).

(** No robots.txt can be fetched: urlopen raises URLError. *)
Definition env_robots_down : Env :=
  mkEnv (fun _ _ => RobotsRaises (Exception "URLError")) web (fun _ => None).

(** The fifth interaction, which is the first get_or_create_topic of the
    seed page, raises sqlite3.OperationalError. *)
Definition env_topic_fault : Env :=
  mkEnv (fun _ _ => RobotsBody (fun _ _ => true)) web
        (fun t => if Nat.eqb t 4 then Some (Exception "OperationalError") else None).

(** A state where the job row is there, as after create_crawl. *)
Definition job_state : State :=
  set_db (Db.create_crawl "https://example.edu" 1 Db.empty).2 initial_state.


(** The same fault in a run of main, where init_db and create_crawl come
    first: the first get_or_create_topic of the seed page is the seventh
    interaction. *)
Definition env_topic_fault_run : Env :=
  mkEnv (fun _ _ => RobotsBody (fun _ _ => true)) web
        (fun t => if Nat.eqb t 6 then Some (Exception "OperationalError") else None).



End Sample.






(** What one sees of a run of main: how it ended, the rows of the crawls
    table (id, pages_found, status) and the finish_crawl calls logged. *)
Definition observe_run (res : option (result unit * State))
  : option (result unit * list (nat * nat * string) * list (nat * nat * string)) :=
  match res with
  | Some (r, s) =>
      Some (r,
            (fun c => (Db.c_id c, Db.c_pages_found c, Db.c_status c)) <$> Db.crawls (db s),
            finishes (trace s))
  | None => None
  end.

(** What one sees of a call of crawl: its result, the URLs of the page rows
    in the store and the fetches logged. *)
Definition observe (res : option crawl_result)
  : option (result nat * list string * list (Z * string)) :=
  match res with
  | Some (r, _, s) => Some (r, Db.p_url <$> Db.pages (db s), fetches (trace s))
  | None => None
  end.

(** ** The constraints of the schema *)

(** What the CREATE TABLE statements of init_db declare: the primary keys,
    the AUTOINCREMENT counters (an id handed out is never above the counter of
    its table), the UNIQUE columns and the REFERENCES clauses. *)
Record schema_ok (d : Db.t) : Prop := mkSchemaOk {
  ok_crawl_ids : NoDup (Db.c_id <$> Db.crawls d);
  ok_crawl_seq : ∀ r, r ∈ Db.crawls d → (Db.c_id r <= Db.seq_crawls d)%nat;
  ok_page_ids : NoDup (Db.p_id <$> Db.pages d);
  ok_page_seq : ∀ p, p ∈ Db.pages d → (Db.p_id p <= Db.seq_pages d)%nat;
  ok_page_urls : NoDup (Db.p_url <$> Db.pages d);
  ok_page_crawl : ∀ p, p ∈ Db.pages d → Db.p_crawl_id p ∈ Db.c_id <$> Db.crawls d;
  ok_topic_ids : NoDup (Db.t_id <$> Db.topics d);
  ok_topic_seq : ∀ t, t ∈ Db.topics d → (Db.t_id t <= Db.seq_topics d)%nat;
  ok_topic_names : NoDup (Db.t_name <$> Db.topics d);
  ok_links : NoDup (Db.page_topics d);
  ok_link_refs : ∀ l, l ∈ Db.page_topics d →
                      l.1 ∈ Db.p_id <$> Db.pages d ∧ l.2 ∈ Db.t_id <$> Db.topics d }.

(** One table grows at its end only. *)
Definition extends {A} (l l' : list A) : Prop := ∃ more, l' = (l ++ more)%list.

(** What crawl may do to the store: rows are appended to pages, topics and
    page_topics, and nothing else changes. *)
Record db_grows (d d' : Db.t) : Prop := mkDbGrows {
  grows_crawls : Db.crawls d' = Db.crawls d;
  grows_seq_crawls : Db.seq_crawls d' = Db.seq_crawls d;
  grows_pages : extends (Db.pages d) (Db.pages d');
  grows_topics : extends (Db.topics d) (Db.topics d');
  grows_links : extends (Db.page_topics d) (Db.page_topics d') }.

(** ** Shapes of URL components *)

(** The character does not occur in the string. *)
Definition nochar (c : ascii) (s : string) : bool :=
  all_c (fun a => negb (Ascii.eqb a c)) s.

(** None of the characters urlsplit removes (TAB, CR, LF) occurs. *)
Definition clean (s : string) : bool :=
  all_c (fun a => negb (existsb (Ascii.eqb a) _UNSAFE_URL_BYTES_TO_REMOVE)) s.

(** None of the characters that end a netloc occurs. *)
Definition nodelim (s : string) : bool :=
  nochar "/" s && nochar "?" s && nochar "#" s.

(** A scheme as urlsplit returns it when it finds one: it begins with an
    ASCII letter, consists of scheme characters, and is in lower case. *)
Definition valid_scheme (s : string) : bool :=
  match s with
  | String c _ => isascii_c c && isalpha_c c
  | EmptyString => false
  end
  && all_c (fun c => mem_c c scheme_chars) s
  && String.eqb (lower s) s.

(** urlsplit from the point where the scheme has been split off. *)
Definition split_rest (scheme url : string) : SplitResult :=
  let '(netloc, url) :=
    if String.eqb (slice_to url 2) "//" then _splitnetloc url 2 else ("", url) in
  let '(url, fragment) :=
    if contains url "#" then split1 url "#" else (url, "") in
  let '(url, query) :=
    if contains url "?" then split1 url "?" else (url, "") in
  mkSplit scheme netloc url query fragment.

(** Offset of the first character of [s] that is one of [cs], or the length
    of [s]. *)
Fixpoint first_of (cs : list ascii) (s : string) : nat :=
  match s with
  | EmptyString => 0
  | String a s' => if existsb (Ascii.eqb a) cs then 0 else S (first_of cs s')
  end.

(** The characters that end a netloc. *)
Definition delims : list ascii := ["/"; "?"; "#"]%char.

(** The string is empty or begins with one of the characters. *)
Definition starts_with_one_of (cs : list ascii) (s : string) : bool :=
  match s with
  | EmptyString => true
  | String c _ => existsb (Ascii.eqb c) cs
  end.

(** The end of urlsplit: the fragment, then the query, are cut off what
    follows the netloc. *)
Definition split_tail (url : string) : string * string * string :=
  let '(url, fragment) :=
    if contains url "#" then split1 url "#" else (url, "") in
  let '(url, query) :=
    if contains url "?" then split1 url "?" else (url, "") in
  (url, query, fragment).

(** The test of urlsplit for a scheme in front of the first colon. *)
Definition has_scheme (url : string) : bool :=
  (0 <? find url ":")
  && match url with
     | String c0 _ => isascii_c c0 && isalpha_c c0
     | EmptyString => false
     end
  && all_c (fun c => mem_c c scheme_chars) (slice_to url (find url ":")).

(** urlsplit's first two steps: strip the leading control characters and
    spaces, remove TAB, CR and LF. *)
Definition tidy (url : string) : string :=
  fold_left (fun u b => remove_c b u) _UNSAFE_URL_BYTES_TO_REMOVE
            (lstrip url _WHATWG_C0_CONTROL_OR_SPACE).

(** The URL urlunparse puts together from a scheme (or none), a netloc that
    is not empty, a path that begins with "/" and a query (or none). *)
Definition assemble (sch N P Q : string) : string :=
  (if truthy sch then sch +:+ ":" else "")
  +:+ "//" +:+ N +:+ P +:+ (if truthy Q then "?" +:+ Q else "").

(** A world where every robots.txt request is answered with the HTTP error
    status [code]. *)
Definition env_robots_status (code : Z) : Env :=
  mkEnv (fun _ _ => RobotsHTTPError code) Sample.web (fun _ => None).

(** * Properties *)

(** ** Strings *)

Section PyFacts.




End PyFacts.

(** ** The skip pattern *)

Section SkipPattern.
Import Re.









End SkipPattern.

(** ** should_skip_url *)



(** ** is_allowed_domain *)

Lemma find0_rfind (s : string) (c : ascii) : (find0 c s <? 0) = true -> rfind s c = -1.
Proof.
  induction s as [|a s IH]; simpl; [reflexivity|].
  destruct (Ascii.eqb a c); [discriminate|].
  destruct (find0 c s <? 0) eqn:E.
  - intros _. rewrite (IH eq_refl). reflexivity.
  - intros H. apply Z.ltb_lt in H. apply Z.ltb_ge in E. lia.
Qed.

Lemma host_plain (url : string) :
  contains (netloc (urlparse url)) ":" = false ->
  contains (netloc (urlparse url)) "@" = false ->
  Spec.host url = netloc (urlparse url).
Proof.
  unfold Spec.host, contains, find. intros Hc Ha.
  rewrite find0_rfind by (apply Z.ltb_lt; apply Z.leb_gt in Ha; exact Ha).
  change (-1 + 1) with 0.
  assert (Hs : ∀ s, slice_from s 0 = s) by (intros s; unfold slice_from, clip; simpl; now destruct s).
  rewrite Hs. unfold contains, find. rewrite Hc. reflexivity.
Qed.

(** C7, counterexample: the host of https://mit.edu:8080/ is mit.edu, which
    ends with .edu, and is_allowed_domain is false there: it tests the netloc
    "mit.edu:8080". *)
Lemma is_allowed_domain_port_counterexample :
  Spec.host "https://mit.edu:8080/" = "mit.edu"
  ∧ Spec.in_scope "https://mit.edu:8080/" = true
  ∧ is_allowed_domain "https://mit.edu:8080/" = false.
Proof. repeat split; vm_compute; reflexivity. Qed.

(** C7, as amended: is_allowed_domain is true exactly when the lower-cased
    netloc of the URL (the authority as written, with any user information
    and port) ends with .edu, .org or .gov; for a URL whose netloc has
    neither a colon nor an [@] that is the host, and is_allowed_domain agrees
    with the specification's in_scope.  It is true for https://mit.edu,
    https://epa.gov and https://wikipedia.org, and false for
    https://example.com and for https://mit.edu:8080/. *)
Theorem is_allowed_domain_netloc (url : string) :
  (is_allowed_domain url = true ↔
     endswith (lower (netloc (urlparse url))) ".edu" = true
     ∨ endswith (lower (netloc (urlparse url))) ".org" = true
     ∨ endswith (lower (netloc (urlparse url))) ".gov" = true)
  ∧ (contains (netloc (urlparse url)) ":" = false →
     contains (netloc (urlparse url)) "@" = false →
     is_allowed_domain url = Spec.in_scope url)
  ∧ is_allowed_domain "https://mit.edu" = true
  ∧ is_allowed_domain "https://epa.gov" = true
  ∧ is_allowed_domain "https://wikipedia.org" = true
  ∧ is_allowed_domain "https://example.com" = false
  ∧ is_allowed_domain "https://mit.edu:8080/" = false.
Proof.
  split; [|split; [|repeat split; vm_compute; reflexivity]].
  - unfold is_allowed_domain, ALLOWED_TLDS. cbn [existsb].
    rewrite !orb_true_iff. intuition discriminate.
  - intros Hc Ha. unfold Spec.in_scope, is_allowed_domain.
    rewrite (host_plain url Hc Ha). reflexivity.
Qed.

(** The second part at https://mit.edu, whose netloc is the bare host. *)
Lemma is_allowed_domain_netloc_witness :
  is_allowed_domain "https://mit.edu" = Spec.in_scope "https://mit.edu".
Proof.
  apply (proj1 (proj2 (is_allowed_domain_netloc "https://mit.edu"))); reflexivity.
Defined.

(** ** normalize_url *)

(** C9, at the failing input: normalize_url maps http://a.edu/b/;x/ to
    http://a.edu/b/;x, and maps that to http://a.edu/b;x.  The first pass
    strips the slash that hid the parameters ";x" from urlparse; the second
    pass splits them off, strips the slash of "/b/" and joins them again. *)
Theorem normalize_url_twice_differs :
  normalize_url "http://a.edu/b/;x/" = "http://a.edu/b/;x"
  ∧ normalize_url (normalize_url "http://a.edu/b/;x/") = "http://a.edu/b;x"
  ∧ normalize_url (normalize_url "http://a.edu/b/;x/") ≠ normalize_url "http://a.edu/b/;x/".
Proof. repeat split; [vm_compute; reflexivity..|vm_compute; discriminate]. Qed.

(** ** Topic extraction *)

Section Topics.












End Topics.

(** ** The effects of the stateful functions *)

Section Effects.

Variable env : Env.

Lemma fetches_app (a b : list event) : fetches (a ++ b) = (fetches a ++ fetches b)%list.
Proof. apply flat_map_app. Qed.

Lemma finishes_app (a b : list event) : finishes (a ++ b) = (finishes a ++ finishes b)%list.
Proof. apply flat_map_app. Qed.

Lemma robots_reads_app (d : string) (a b : list event) :
  robots_reads d (a ++ b) = (robots_reads d a ++ robots_reads d b)%list.
Proof. apply flat_map_app. Qed.

Lemma evolves_refl (st : State) : evolves st st [] [].
Proof. split; rewrite ?app_nil_r; auto. Qed.

Lemma evolves_trans (a b c : State) nf1 np1 nf2 np2 :
  evolves a b nf1 np1 → evolves b c nf2 np2 → evolves a c (nf1 ++ nf2) (np1 ++ np2).
Proof.
  intros [F1 G1 P1 C1 K1 R1] [F2 G2 P2 C2 K2 R2]. split.
  - rewrite F2, F1. apply eq_sym, app_assoc.
  - congruence.
  - rewrite P2, P1. apply eq_sym, app_assoc.
  - congruence.
  - auto.
  - intros d [rp Hd]. rewrite R2 by (exists rp; auto). apply R1. by exists rp.
Qed.

Lemma evolves_quiet_l (a b c : State) nf np :
  evolves a b [] [] → evolves b c nf np → evolves a c nf np.
Proof. intros H1 H2. exact (evolves_trans _ _ _ _ _ _ _ H1 H2). Qed.

Lemma evolves_quiet_r (a b c : State) nf np :
  evolves a b nf np → evolves b c [] [] → evolves a c nf np.
Proof.
  intros H1 H2. pose proof (evolves_trans _ _ _ _ _ _ _ H1 H2) as H.
  by rewrite !app_nil_r in H.
Qed.

(** Inversion of a bind: the first computation raised, or it returned and the
    continuation gave the result. *)
Lemma bind_inv {A B} (m : M A) (k : A → M B) (st st' : State) (r : result B) :
  bind m k st = (r, st') →
  (∃ e, m st = (Raise e, st') ∧ r = Raise e)
  ∨ (∃ a st1, m st = (Ok a, st1) ∧ k a st1 = (r, st')).
Proof.
  unfold bind. destruct (m st) as [[a|e] st1]; intros H.
  - right. by exists a, st1.
  - left. exists e. by injection H as <- <-.
Qed.

Lemma next_tick_quiet (st : State) : evolves st (next_tick st) [] [].
Proof. split; simpl; rewrite ?app_nil_r; auto. Qed.

Lemma db_call_quiet {A} (op : Db.t → A * Db.t) (st st' : State) (r : result A) :
  (∀ d, Db.pages (op d).2 = Db.pages d ∧ Db.crawls (op d).2 = Db.crawls d) →
  db_call env op st = (r, st') → evolves st st' [] [].
Proof.
  intros Hop. unfold db_call. destruct (db_fault env (tick st)).
  - intros [= <- <-]. apply next_tick_quiet.
  - destruct (op (db st)) as [a d] eqn:E. intros [= <- <-].
    destruct (Hop (db st)) as [Hp Hc]. rewrite E in Hp, Hc. simpl in Hp, Hc.
    split; simpl; rewrite ?app_nil_r; auto.
Qed.

Lemma page_exists_quiet (url : string) (st st' : State) r :
  page_exists env url st = (r, st') → evolves st st' [] [].
Proof. apply db_call_quiet. intros d; simpl; auto. Qed.

Lemma get_or_create_topic_quiet (name : string) (st st' : State) r :
  get_or_create_topic env name st = (r, st') → evolves st st' [] [].
Proof.
  apply db_call_quiet. intros d. unfold Db.get_or_create_topic.
  destruct (List.find _ _); simpl; auto.
Qed.

Lemma link_page_topic_quiet (page_id topic_id : nat) (st st' : State) r :
  link_page_topic env page_id topic_id st = (r, st') → evolves st st' [] [].
Proof.
  apply db_call_quiet. intros d. simpl. unfold Db.link_page_topic.
  destruct (_ || _ || _); simpl; auto.
Qed.

Lemma link_topics_quiet (page_id : nat) (topics : list string) (st st' : State) r :
  link_topics env page_id topics st = (r, st') → evolves st st' [] [].
Proof.
  revert st; induction topics as [|t topics IH]; intros st; simpl.
  - intros [= <- <-]. apply evolves_refl.
  - intros H. apply bind_inv in H as [(e & H & ->)|(tid & s1 & H1 & H)].
    { eapply get_or_create_topic_quiet; eauto. }
    apply get_or_create_topic_quiet in H1.
    apply bind_inv in H as [(e & H & ->)|([] & s2 & H2 & H)].
    { apply link_page_topic_quiet in H. eapply evolves_quiet_l; eauto. }
    apply link_page_topic_quiet in H2. apply IH in H.
    eapply evolves_quiet_l; [exact H1|]. eapply evolves_quiet_l; eauto.
Qed.

Lemma rate_limit_quiet (domain : string) (st st' : State) r :
  rate_limit domain st = (r, st') → evolves st st' [] [].
Proof.
  unfold rate_limit. intros [= <- <-].
  destruct (0 <? _); split; simpl; rewrite ?app_nil_r; auto.
Qed.

Lemma fetch_page_quiet (url : string) (st st' : State) r :
  fetch_page env url st = (r, st') → evolves st st' [] [].
Proof.
  unfold fetch_page. destruct (http_get env (tick st) url);
    intros [= <- <-]; apply next_tick_quiet.
Qed.

Lemma emit_blocked_quiet (url : string) (st st' : State) r :
  emit (BlockedByRobots url) st = (r, st') → evolves st st' [] [].
Proof.
  intros [= <- <-]. split; simpl; intros;
    rewrite ?fetches_app, ?finishes_app, ?robots_reads_app; simpl;
    rewrite ?app_nil_r; auto.
Qed.

Lemma emit_fetching (depth : Z) (url : string) (st st' : State) r :
  emit (Fetching depth url) st = (r, st') → evolves st st' [(depth, url)] [].
Proof.
  intros [= <- <-]. split; simpl; intros;
    rewrite ?fetches_app, ?finishes_app, ?robots_reads_app; simpl;
    rewrite ?app_nil_r; auto.
Qed.

Lemma check_robots_quiet (url : string) (st st' : State) r :
  check_robots env url st = (r, st') → evolves st st' [] [].
Proof.
  unfold check_robots.
  destruct (_robots_cache st !! netloc (urlparse url)) as [rp|] eqn:E.
  { intros [= <- <-]. apply evolves_refl. }
  set (domain := netloc (urlparse url)) in *.
  set (robots_url := scheme (urlparse url) +:+ "://" +:+ domain +:+ "/robots.txt").
  assert (Hreads : ∀ d, is_Some (_robots_cache st !! d) →
            robots_reads d (trace st ++ [RobotsRead domain robots_url]) = robots_reads d (trace st)).
  { intros d [rp Hd]. rewrite robots_reads_app. simpl.
    destruct (String.eqb domain d) eqn:Ed; [|by rewrite app_nil_r].
    apply String.eqb_eq in Ed. subst d. congruence. }
  assert (Hmiss : ∀ d rp0 rp1, _robots_cache st !! d = Some rp0 →
            <[domain := rp1]> (_robots_cache st) !! d = Some rp0).
  { intros d rp0 rp1 Hd. rewrite lookup_insert_ne; [exact Hd|]. congruence. }
  destruct (read _ _ _) as [[[]|[|what]] rp]; intros [= <- <-];
    split; simpl; rewrite ?fetches_app, ?finishes_app; simpl;
    rewrite ?app_nil_r; auto.
Qed.

Lemma save_page_effect (url title description domain : string) (depth : Z)
    (crawl_id : nat) (st st' : State) r :
  save_page env url title description domain depth crawl_id st = (r, st') →
  ∃ np, evolves st st' [] np
        ∧ (∀ p, p ∈ np → Db.p_crawl_id p = crawl_id)
        ∧ match r with
          | Ok (Some _) => length np = 1%nat
          | _ => np = []
          end.
Proof.
  unfold save_page, db_call. destruct (db_fault env (tick st)).
  { intros [= <- <-]. exists []. split; [apply next_tick_quiet|].
    split; [|done]. intros p Hp. by apply elem_of_nil in Hp. }
  unfold Db.save_page. destruct (_ || _).
  - intros [= <- <-]. exists []. split; [|split; [|done]].
    + split; simpl; rewrite ?app_nil_r; auto.
    + intros p Hp. by apply elem_of_nil in Hp.
  - intros [= <- <-]. eexists [_]. split; [|split; [|done]].
    + split; simpl; rewrite ?app_nil_r; auto.
    + intros p Hp. apply list_elem_of_singleton in Hp. by subst p.
Qed.

End Effects.

(** ** One node of the traversal *)

Section Node.

Variable env : Env.

Lemma try_fetch_quiet (url : string) (st st' : State) r :
  try_except_Exception
    (do html <- fetch_page env url; ret (Some html)) (fun _ => ret None) st = (r, st') →
  evolves st st' [] [].
Proof.
  unfold try_except_Exception, bind.
  destruct (fetch_page env url st) as [[h|e] s1] eqn:E; apply fetch_page_quiet in E.
  - simpl. intros [= <- <-]. exact E.
  - destruct e; intros [= <- <-]; exact E.
Qed.

Lemma no_pages (crawl_id : nat) (p : Db.page_row) :
  p ∈ @nil Db.page_row → Db.p_crawl_id p = crawl_id.
Proof. intros H. by apply elem_of_nil in H. Qed.

Ltac node_done :=
  refine (conj _ (conj _ (conj _ _)));
  [ eauto using evolves_quiet_l, evolves_quiet_r
  | auto
  | first [apply no_pages | assumption]
  | first [reflexivity | exact I | assumption] ].

Lemma fetch_and_save_effect (url : string) (crawl_id : nat) (depth : Z)
    (st st' : State) r :
  fetch_and_save env url crawl_id depth st = (r, st') →
  ∃ nf np,
    evolves st st' nf np
    ∧ (nf = [] ∨ nf = [(depth, url)])
    ∧ (∀ p, p ∈ np → Db.p_crawl_id p = crawl_id)
    ∧ match r with Ok (Some _) => length np = 1%nat | _ => np = [] end.
Proof.
  unfold fetch_and_save. intros H.
  (* page_exists *)
  apply bind_inv in H as [(e & H & ->)|(present & s1 & H1 & H)].
  { apply page_exists_quiet in H. exists [], []. node_done. }
  apply page_exists_quiet in H1.
  destruct present.
  { injection H as <- <-. exists [], []. node_done. }
  (* check_robots *)
  apply bind_inv in H as [(e & H & ->)|(allowed & s2 & H2 & H)].
  { apply check_robots_quiet in H. exists [], [].
    node_done. }
  apply check_robots_quiet in H2.
  pose proof (evolves_quiet_l _ _ _ _ _ H1 H2) as Q2. clear H1 H2.
  destruct allowed; simpl in H.
  2:{ apply bind_inv in H as [(e & H & ->)|([] & s3 & H3 & H)].
      - apply emit_blocked_quiet in H. exists [], [].
        node_done.
      - apply emit_blocked_quiet in H3. injection H as <- <-. exists [], [].
        node_done. }
  (* rate_limit *)
  apply bind_inv in H as [(e & H & ->)|([] & s3 & H3 & H)].
  { apply rate_limit_quiet in H. exists [], [].
    node_done. }
  apply rate_limit_quiet in H3.
  pose proof (evolves_quiet_l _ _ _ _ _ Q2 H3) as Q3. clear Q2 H3.
  (* the log line, then fetch_page *)
  apply bind_inv in H as [(e & H & ->)|([] & s4 & H4 & H)].
  { discriminate H. }
  apply emit_fetching in H4.
  pose proof (evolves_quiet_l _ _ _ _ _ Q3 H4) as Q4. clear Q3 H4.
  apply bind_inv in H as [(e & H & ->)|(fetched & s5 & H5 & H)].
  { apply try_fetch_quiet in H. exists [(depth, url)], [].
    node_done. }
  apply try_fetch_quiet in H5.
  pose proof (evolves_quiet_r _ _ _ _ _ Q4 H5) as Q5. clear Q4 H5.
  destruct fetched as [[page|]|].
  2,3: injection H as <- <-; exists [(depth, url)], []; node_done.
  (* save_page *)
  apply bind_inv in H as [(e & H & ->)|(page_id & s6 & H6 & H)].
  { apply save_page_effect in H as (np & Hev & Hid & ->).
    exists [(depth, url)], [].
    pose proof (evolves_trans _ _ _ _ _ _ _ Q5 Hev) as Q. simpl in Q. node_done. }
  apply save_page_effect in H6 as (np & Hev & Hid & Hnp).
  pose proof (evolves_trans _ _ _ _ _ _ _ Q5 Hev) as Q. simpl in Q.
  destruct page_id as [page_id|]; injection H as <- <-.
  - exists [(depth, url)], np. node_done.
  - subst np. exists [(depth, url)], []. node_done.
Qed.

Lemma crawl_page_effect (url : string) (crawl_id : nat) (depth : Z)
    (st st' : State) r :
  crawl_page env url crawl_id depth st = (r, st') →
  ∃ nf np,
    evolves st st' nf np
    ∧ (nf = [] ∨ nf = [(depth, url)])
    ∧ (∀ p, p ∈ np → Db.p_crawl_id p = crawl_id)
    ∧ match r with
      | Ok (Some _) => length np = 1%nat
      | Ok None => np = []
      | Raise _ => True
      end.
Proof.
  unfold crawl_page. intros H.
  apply bind_inv in H as [(e & H & ->)|(saved & s1 & H1 & H)].
  { apply fetch_and_save_effect in H as (nf & np & Hev & Hnf & Hid & _).
    exists nf, np. node_done. }
  apply fetch_and_save_effect in H1 as (nf & np & Hev & Hnf & Hid & Hnp).
  destruct saved as [[page_id page]|].
  2:{ injection H as <- <-. exists nf, np. node_done. }
  apply bind_inv in H as [(e & H & ->)|([] & s2 & H2 & H)].
  { apply link_topics_quiet in H. exists nf, np. node_done. }
  apply link_topics_quiet in H2. injection H as <- <-.
  exists nf, np. node_done.
Qed.

End Node.

(** ** The traversal *)

Section Traversal.

Variable env : Env.
Variable max_depth : Z.
Variable crawl_id : nat.

Lemma crawl_post_stop (depth : Z) (v : gset string) (st : State) (n : nat) :
  crawl_post max_depth crawl_id depth v st n (Ok n, v, st).
Proof.
  exists [], []. split; [apply evolves_refl|]. split; [done|].
  split; [constructor|]. split; [|split].
  - intros d u H. by apply elem_of_nil in H.
  - intros p H. by apply elem_of_nil in H.
  - simpl. lia.
Qed.

Lemma crawl_post_raise (depth : Z) (v : gset string) (st : State) (n : nat) (e : exn) :
  crawl_post max_depth crawl_id depth v st n (Raise e, v, st).
Proof.
  exists [], []. split; [apply evolves_refl|]. split; [done|].
  split; [constructor|]. split; [|split; [|done]].
  - intros d u H. by apply elem_of_nil in H.
  - intros p H. by apply elem_of_nil in H.
Qed.

(** A first part, which fetched [nf1] and saved [np1], followed by calls that
    satisfy [crawl_post] from where the first part stopped. *)
Lemma crawl_post_seq (lo depth : Z) (v v1 : gset string) (st s1 : State)
    (nf1 : list (Z * string)) (np1 : list Db.page_row) (n0 : nat)
    (res : crawl_result) :
  evolves st s1 nf1 np1 →
  v ⊆ v1 →
  NoDup nf1.*2 →
  (∀ d u, (d, u) ∈ nf1 →
          lo <= d <= max_depth ∧ u ∈ v1 ∧ (u ∉ v) ∧ ∃ x, u = normalize_url x) →
  (∀ p, p ∈ np1 → Db.p_crawl_id p = crawl_id) →
  lo <= depth →
  crawl_post max_depth crawl_id depth v1 s1 (n0 + length np1) res →
  crawl_post max_depth crawl_id lo v st n0 res.
Proof.
  intros Hev Hv Hnd Hf Hp Hlo. destruct res as [[r v'] st'].
  intros (nf2 & np2 & Hev2 & Hv2 & Hnd2 & Hf2 & Hp2 & Hr).
  exists (nf1 ++ nf2)%list, (np1 ++ np2)%list.
  split; [exact (evolves_trans _ _ _ _ _ _ _ Hev Hev2)|].
  split; [by transitivity v1|]. split; [|split; [|split]].
  - rewrite fmap_app. apply NoDup_app. split; [exact Hnd|]. split; [|exact Hnd2].
    intros u Hu1 Hu2.
    apply list_elem_of_fmap in Hu1 as ([d1 u1] & -> & H1).
    apply list_elem_of_fmap in Hu2 as ([d2 u2] & Heq & H2). simpl in Heq. subst u2.
    destruct (Hf _ _ H1) as (_ & Hin & _). destruct (Hf2 _ _ H2) as (_ & _ & Hout & _).
    by apply Hout.
  - intros d u Hin. apply elem_of_app in Hin as [Hin|Hin].
    + destruct (Hf _ _ Hin) as (Hd & Hu & Hnv & Hx).
      refine (conj _ (conj _ (conj _ _))); [lia|by apply Hv2|exact Hnv|exact Hx].
    + destruct (Hf2 _ _ Hin) as (Hd & Hu & Hnv & Hx).
      refine (conj _ (conj _ (conj _ _))); [lia|exact Hu| |exact Hx].
      intros Hu'. by apply Hnv, Hv.
  - intros p Hin. apply elem_of_app in Hin as [Hin|Hin]; auto.
  - destruct r; [|done]. rewrite length_app. lia.
Qed.

Lemma crawl_links_post (depth : Z)
    (recurse : string → gset string → State → option crawl_result) :
  (∀ link v st res, recurse link v st = Some res →
                    crawl_post max_depth crawl_id depth v st 0 res) →
  ∀ links n0 v st res,
    crawl_links recurse links n0 v st = Some res →
    crawl_post max_depth crawl_id depth v st n0 res.
Proof.
  intros Hrec links. induction links as [|link links IH]; intros n0 v st res; cbn [crawl_links].
  - intros [= <-]. apply crawl_post_stop.
  - destruct (bool_decide _); [apply IH|].
    destruct (should_skip_url _); [apply IH|].
    destruct (negb _); [apply IH|].
    destruct (recurse (normalize_url link) v st) as [[[r1 v1] s1]|] eqn:E; [|discriminate].
    apply Hrec in E. destruct E as (nf1 & np1 & Hev & Hv & Hnd & Hf & Hp & Hr).
    destruct r1 as [n|e].
    + intros H. apply IH in H. subst n. cbn [Nat.add] in H.
      exact (crawl_post_seq depth depth _ _ _ _ _ _ _ _ Hev Hv Hnd Hf Hp (Z.le_refl _) H).
    + intros [= <-]. exists nf1, np1.
      refine (conj Hev (conj Hv (conj Hnd (conj Hf (conj Hp I))))).
Qed.

Lemma crawl_fuel_post (fuel : nat) :
  ∀ url depth v st res,
    crawl_fuel env fuel url max_depth crawl_id depth v st = Some res →
    crawl_post max_depth crawl_id depth v st 0 res.
Proof.
  induction fuel as [|fuel IH]; intros url depth v st res; cbn [crawl_fuel]; [discriminate|].
  destruct (bool_decide (normalize_url url ∈ v)) eqn:Ev; cbn [orb].
  { intros [= <-]. apply crawl_post_stop. }
  apply bool_decide_eq_false in Ev.
  destruct (max_depth <? depth) eqn:Ed.
  { intros [= <-]. apply crawl_post_stop. }
  apply Z.ltb_ge in Ed.
  destruct (crawl_page env (normalize_url url) crawl_id depth st) as [r0 s1] eqn:E.
  apply crawl_page_effect in E as (nf0 & np0 & Hev & Hnf & Hid & Hr0).
  assert (Hnd : NoDup nf0.*2).
  { destruct Hnf as [->| ->]; simpl; [constructor|]. apply NoDup_singleton. }
  assert (Hf : ∀ d u, (d, u) ∈ nf0 →
             depth <= d <= max_depth ∧ u ∈ v ∪ {[normalize_url url]} ∧ (u ∉ v)
             ∧ ∃ x, u = normalize_url x).
  { intros d u Hin. destruct Hnf as [->| ->]; [by apply elem_of_nil in Hin|].
    apply list_elem_of_singleton in Hin. injection Hin as -> ->.
    refine (conj _ (conj _ (conj _ _))); [lia| |exact Ev|by exists url].
    apply elem_of_union_r. by apply elem_of_singleton. }
  assert (Hv : v ⊆ v ∪ {[normalize_url url]}) by apply union_subseteq_l.
  intros H.
  refine (crawl_post_seq depth (depth + 1) _ _ _ _ _ _ _ _ Hev Hv Hnd Hf Hid _ _); [lia|].
  cbn [Nat.add].
  destruct r0 as [[links|]|e].
  - rewrite Hr0. destruct (depth <? max_depth).
    + eapply crawl_links_post; [|exact H]. intros link v0 st0 res0. apply IH.
    + injection H as <-. apply crawl_post_stop.
  - injection H as <-. subst np0. apply crawl_post_stop.
  - injection H as <-. apply crawl_post_raise.
Qed.

Lemma crawl_links_total
    (recurse : string → gset string → State → option crawl_result) :
  (∀ link v st, is_Some (recurse link v st)) →
  ∀ links n0 v st, is_Some (crawl_links recurse links n0 v st).
Proof.
  intros Hrec links. induction links as [|link links IH]; intros n0 v st; cbn [crawl_links].
  - by eexists.
  - destruct (bool_decide _); [apply IH|].
    destruct (should_skip_url _); [apply IH|].
    destruct (negb _); [apply IH|].
    destruct (Hrec (normalize_url link) v st) as [[[[n|e] v1] s1] ->].
    + apply IH.
    + by eexists.
Qed.

(** The bound on the nesting is never hit when it exceeds max_depth - depth. *)
Lemma crawl_fuel_total (fuel : nat) :
  ∀ url depth v st,
    (Z.to_nat (max_depth - depth) < fuel)%nat →
    is_Some (crawl_fuel env fuel url max_depth crawl_id depth v st).
Proof.
  induction fuel as [|fuel IH]; intros url depth v st Hfuel; [lia|]. cbn [crawl_fuel].
  destruct (bool_decide _ || _); [by eexists|].
  destruct (crawl_page env _ _ _ _) as [[[links|]|e] s1]; [|by eexists..].
  destruct (depth <? max_depth) eqn:Ed; [|by eexists].
  apply Z.ltb_lt in Ed. apply crawl_links_total. intros link v0 st0.
  apply IH. lia.
Qed.

(** When depth has reached max_depth the call fetches its own URL at most. *)
Lemma crawl_fuel_leaf (fuel : nat) (url : string) (depth : Z) (v : gset string)
    (st : State) (res : crawl_result) :
  max_depth <= depth →
  crawl_fuel env fuel url max_depth crawl_id depth v st = Some res →
  ∃ nf np, evolves st res.2 nf np ∧ (nf = [] ∨ nf = [(depth, normalize_url url)]).
Proof.
  intros Hd. destruct fuel as [|fuel]; cbn [crawl_fuel]; [discriminate|].
  destruct (bool_decide _ || _).
  { intros [= <-]. exists [], []. split; [apply evolves_refl|by left]. }
  destruct (crawl_page env _ _ _ _) as [r0 s1] eqn:E.
  apply crawl_page_effect in E as (nf0 & np0 & Hev & Hnf & _).
  replace (depth <? max_depth) with false by (symmetry; apply Z.ltb_ge; lia).
  destruct r0 as [[links|]|e]; intros [= <-]; exists nf0, np0; auto.
Qed.

End Traversal.

(** ** The traversal: what it fetches and what it counts *)

Section CrawlClaims.

Variable env : Env.

Lemma evolves_unique_fetches (st st' : State) nf np nf' np' :
  evolves st st' nf np → evolves st st' nf' np' → nf = nf'.
Proof.
  intros [F _ _ _ _ _] [F' _ _ _ _ _]. rewrite F in F'.
  by apply app_inv_head in F'.
Qed.

(** C3: a call of crawl returns, every URL it fetches is a canonical URL that
    was not in the visited set on entry and is in it on return, no URL is
    fetched twice, every fetch happens at a depth between the depth of the
    call and max_depth, and when the depth of the call has reached max_depth
    (crawl(seed, max_depth=0) in particular) the only fetch possible is the
    one of the URL of the call itself. *)
Theorem crawl_fetches_each_url_once (url : string) (max_depth : Z) (crawl_id : nat)
    (depth : Z) (visited : option (gset string)) (st : State) :
  ∃ r visited' st' nf,
    crawl env url max_depth crawl_id depth visited st = Some (r, visited', st')
    ∧ fetches (trace st') = (fetches (trace st) ++ nf)%list
    ∧ NoDup nf.*2
    ∧ (∀ d u, (d, u) ∈ nf →
         depth <= d <= max_depth ∧ u ∈ visited' ∧ (u ∉ default ∅ visited)
         ∧ ∃ x, u = normalize_url x)
    ∧ (max_depth <= depth → nf = [] ∨ nf = [(depth, normalize_url url)]).
Proof.
  unfold crawl.
  replace (match visited with Some v => v | None => ∅ end) with (default ∅ visited)
    by (by destruct visited).
  destruct (crawl_fuel_total env max_depth crawl_id (S (Z.to_nat (max_depth - depth)))
              url depth (default ∅ visited) st) as [[[r v'] st'] E]; [lia|].
  pose proof (crawl_fuel_post _ _ _ _ _ _ _ _ _ E) as (nf & np & Hev & Hv & Hnd & Hf & _).
  exists r, v', st', nf. split; [exact E|]. split; [apply Hev|]. split; [exact Hnd|].
  split; [exact Hf|]. intros Hd.
  destruct (crawl_fuel_leaf _ _ _ _ _ _ _ _ _ Hd E) as (nf' & np' & Hev' & Hnf').
  simpl in Hev'. by rewrite (evolves_unique_fetches _ _ _ _ _ _ Hev Hev').
Qed.


End CrawlClaims.

(** ** main and the job row *)

Section MainClaims.

Variable env : Env.










End MainClaims.



(** ** robots.txt *)

Section RobotsClaims.

Variable env : Env.

Lemma keeps_robots_refl (st : State) : keeps_robots st st.
Proof. split; auto. Qed.

Lemma keeps_robots_trans (a b c : State) :
  keeps_robots a b → keeps_robots b c → keeps_robots a c.
Proof.
  intros [K1 R1] [K2 R2]. split; [auto|].
  intros d [rp Hd]. rewrite R2 by (exists rp; auto). apply R1. by exists rp.
Qed.

Lemma evolves_keeps_robots (st st' : State) nf np :
  evolves st st' nf np → keeps_robots st st'.
Proof. intros [_ _ _ _ K R]. by split. Qed.

Lemma crawl_keeps_robots (url : string) (max_depth : Z) (crawl_id : nat) (depth : Z)
    (visited : option (gset string)) (st st' : State) r v :
  crawl env url max_depth crawl_id depth visited st = Some (r, v, st') →
  keeps_robots st st'.
Proof.
  unfold crawl. intros E.
  pose proof (crawl_fuel_post _ _ _ _ _ _ _ _ _ E) as (nf & np & Hev & _).
  exact (evolves_keeps_robots _ _ _ _ Hev).
Qed.

Lemma keeps_robots_same (st st' : State) :
  _robots_cache st' = _robots_cache st →
  (∀ d, robots_reads d (trace st') = robots_reads d (trace st)) →
  keeps_robots st st'.
Proof. intros Hc Ht. split; [by rewrite Hc|auto]. Qed.

Lemma bind_keeps_robots {A B} (m : M A) (k : A → M B) :
  (∀ st r st', m st = (r, st') → keeps_robots st st') →
  (∀ a st r st', k a st = (r, st') → keeps_robots st st') →
  ∀ st r st', bind m k st = (r, st') → keeps_robots st st'.
Proof.
  intros Hm Hk st r st'. unfold bind.
  destruct (m st) as [[a|e] s] eqn:E.
  - intros H. eapply keeps_robots_trans; [exact (Hm _ _ _ E)|exact (Hk _ _ _ _ H)].
  - intros [= <- <-]. exact (Hm _ _ _ E).
Qed.

Lemma db_call_keeps_robots {A} (op : Db.t → A * Db.t) (st st' : State) (r : result A) :
  db_call env op st = (r, st') → keeps_robots st st'.
Proof.
  unfold db_call. destruct (db_fault env (tick st)).
  - intros [= <- <-]. by apply keeps_robots_same.
  - destruct (op (db st)) as [a d]. intros [= <- <-]. by apply keeps_robots_same.
Qed.

Lemma finish_crawl_keeps_robots (crawl_id n : nat) (status : string) (st st' : State) r :
  finish_crawl env crawl_id n status st = (r, st') → keeps_robots st st'.
Proof.
  unfold finish_crawl. apply bind_keeps_robots.
  - intros s r0 s'. apply db_call_keeps_robots.
  - intros _ s r0 s'. unfold emit. intros [= <- <-]. apply keeps_robots_same; [reflexivity|].
    intros d. unfold log. cbn [trace]. rewrite robots_reads_app. simpl. by rewrite app_nil_r.
Qed.

Lemma main_keeps_robots (url : string) (depth : Z) (st st' : State) (r : result unit) :
  main env url depth st = Some (r, st') → keeps_robots st st'.
Proof.
  unfold main. destruct (negb _).
  { intros [= <- <-]. apply keeps_robots_refl. }
  match goal with
  | |- context [bind (init_db env) ?k st] =>
      destruct (bind (init_db env) k st) as [[crawl_id|e] s0] eqn:E0
  end.
  2:{ intros [= <- <-]. revert E0. apply bind_keeps_robots.
      - intros s r0 s'. apply db_call_keeps_robots.
      - intros _ s r0 s'. apply db_call_keeps_robots. }
  assert (K0 : keeps_robots st s0).
  { revert E0. apply bind_keeps_robots.
    - intros s r0 s'. apply db_call_keeps_robots.
    - intros _ s r0 s'. apply db_call_keeps_robots. }
  match goal with
  | |- context [crawl env ?u ?d ?c 0 None ?s] =>
      destruct (crawl env u d c 0 None s) as [[[r1 v] s1]|] eqn:E; [|discriminate]
  end.
  apply crawl_keeps_robots in E.
  assert (K1 : keeps_robots st s1) by (eapply keeps_robots_trans; eauto).
  assert (Hint : ∀ s r2 s',
            bind (count_pages env crawl_id)
                 (λ c, finish_crawl env crawl_id c "interrupted") s = (r2, s') →
            keeps_robots s s').
  { apply bind_keeps_robots.
    - intros s r0 s'. apply db_call_keeps_robots.
    - intros c s r0 s'. apply finish_crawl_keeps_robots. }
  destruct r1 as [n|[|what]].
  - destruct (finish_crawl env crawl_id n "done" s1) as [[[]|[|what]] s2] eqn:E2;
      apply finish_crawl_keeps_robots in E2.
    + intros [= <- <-]. eapply keeps_robots_trans; eauto.
    + destruct (bind _ _ s2) as [r3 s3] eqn:E3. intros [= <- <-].
      apply Hint in E3. eapply keeps_robots_trans; [|exact E3].
      eapply keeps_robots_trans; eauto.
    + destruct (finish_crawl env crawl_id 0 "error" s2) as [r3 s3] eqn:E3. intros [= <- <-].
      apply finish_crawl_keeps_robots in E3. eapply keeps_robots_trans; [|exact E3].
      eapply keeps_robots_trans; eauto.
  - destruct (bind _ _ s1) as [r3 s3] eqn:E3. intros [= <- <-].
    apply Hint in E3. eapply keeps_robots_trans; eauto.
  - destruct (finish_crawl env crawl_id 0 "error" s1) as [r3 s3] eqn:E3. intros [= <- <-].
    apply finish_crawl_keeps_robots in E3. eapply keeps_robots_trans; eauto.
Qed.

Lemma reaches_keeps_robots (st st' : State) : reaches env st st' → keeps_robots st st'.
Proof.
  induction 1 as [st|st st' st'' url r H _ IH|st st' st'' url md cid depth vis r v H _ IH
                 |st st' st'' url depth r H _ IH].
  - apply keeps_robots_refl.
  - apply check_robots_quiet in H.
    eapply keeps_robots_trans; [eapply evolves_keeps_robots; exact H|exact IH].
  - apply crawl_keeps_robots in H. eapply keeps_robots_trans; eauto.
  - apply main_keeps_robots in H. eapply keeps_robots_trans; eauto.
Qed.

(** C10: the robots cache is keyed by the netloc alone.  When check_robots
    returns for a URL whose netloc is not cached, it has read the robots.txt
    of that netloc under the scheme of that URL, once, and cached the parser;
    in every state the process reaches afterwards through calls of
    check_robots, crawl and main, no other robots.txt has been read for that
    netloc, and check_robots on any URL with that netloc, whatever its
    scheme, answers from the cached parser and leaves the state as it is. *)
Theorem robots_cache_keyed_by_netloc (url1 : string) (st st1 : State) (b : bool) :
  let domain := netloc (urlparse url1) in
  let robots_url := scheme (urlparse url1) +:+ "://" +:+ domain +:+ "/robots.txt" in
  _robots_cache st !! domain = None →
  check_robots env url1 st = (Ok b, st1) →
  ∃ rp,
    trace st1 = (trace st ++ [RobotsRead domain robots_url])%list
    ∧ _robots_cache st1 !! domain = Some rp
    ∧ b = can_fetch rp USER_AGENT url1
    ∧ ∀ st2, reaches env st1 st2 →
        robots_reads domain (trace st2) = (robots_reads domain (trace st) ++ [robots_url])%list
        ∧ ∀ url2, netloc (urlparse url2) = domain →
            check_robots env url2 st2 = (Ok (can_fetch rp USER_AGENT url2), st2).
Proof.
  intros domain robots_url Hmiss Hcall.
  unfold check_robots in Hcall. fold domain in Hcall. rewrite Hmiss in Hcall.
  fold robots_url in Hcall.
  destruct (read _ _ _) as [res rp] eqn:Eread.
  assert (Hst1 : b = can_fetch rp USER_AGENT url1
                 ∧ st1 = cache_robots domain rp
                           (next_tick (log (RobotsRead domain robots_url) st))).
  { destruct res as [[]|[|what]]; [|discriminate|]; by injection Hcall as <- <-. }
  destruct Hst1 as [Hb ->]. clear Hcall.
  exists rp. split; [reflexivity|]. split; [apply lookup_insert_eq|]. split; [exact Hb|].
  intros st2 Hreach. apply reaches_keeps_robots in Hreach as [K R].
  split.
  - rewrite R by (exists rp; apply lookup_insert_eq).
    cbn [trace cache_robots next_tick log]. rewrite robots_reads_app. simpl.
    by rewrite String.eqb_refl.
  - intros url2 Hnet. unfold check_robots. rewrite Hnet.
    rewrite (K domain rp) by apply lookup_insert_eq. reflexivity.
Qed.

(** C1, on the code: when rp.read() raises for a domain that is not cached
    (urlopen raises URLError, say), check_robots swallows the exception,
    caches the parser as it is, and returns False: the parser has never been
    marked as read, and can_fetch of such a parser is False for every URL.
    Every later URL of the domain is refused from the cache. *)
Theorem check_robots_refuses_when_read_raises (url : string) (st : State) (what : string) :
  let domain := netloc (urlparse url) in
  _robots_cache st !! domain = None →
  robots_txt env (tick st) (scheme (urlparse url) +:+ "://" +:+ domain +:+ "/robots.txt")
    = RobotsRaises (Exception what) →
  ∃ st' rp,
    check_robots env url st = (Ok false, st')
    ∧ _robots_cache st' !! domain = Some rp
    ∧ (∀ u, can_fetch rp USER_AGENT u = false)
    ∧ (∀ url2, netloc (urlparse url2) = domain →
               check_robots env url2 st' = (Ok false, st')).
Proof.
  intros domain Hmiss Hread.
  set (robots_url := scheme (urlparse url) +:+ "://" +:+ domain +:+ "/robots.txt") in *.
  set (rp := set_url RobotFileParser_new robots_url).
  exists (cache_robots domain rp (next_tick (log (RobotsRead domain robots_url) st))), rp.
  split; [|split; [|split]].
  - unfold check_robots. fold domain. rewrite Hmiss. fold robots_url.
    rewrite Hread. reflexivity.
  - apply lookup_insert_eq.
  - intros u. reflexivity.
  - intros url2 Hnet. unfold check_robots. rewrite Hnet.
    cbn [_robots_cache cache_robots]. rewrite lookup_insert_eq. reflexivity.
Qed.

End RobotsClaims.

(** http://example.edu/a first, https://example.edu/b next, in the sample
    world: the second call answers from the parser the first one cached. *)
Lemma robots_cache_keyed_by_netloc_witness :
  ∃ rp, _robots_cache (check_robots Sample.env "http://example.edu/a" Sample.initial_state).2
          !! "example.edu" = Some rp
        ∧ check_robots Sample.env "https://example.edu/b"
            (check_robots Sample.env "http://example.edu/a" Sample.initial_state).2
          = (Ok (can_fetch rp USER_AGENT "https://example.edu/b"),
             (check_robots Sample.env "http://example.edu/a" Sample.initial_state).2).
Proof.
  destruct (robots_cache_keyed_by_netloc Sample.env "http://example.edu/a"
              Sample.initial_state
              (check_robots Sample.env "http://example.edu/a" Sample.initial_state).2
              true)
    as (rp & _ & Hrp & _ & Hlater).
  - vm_compute. reflexivity.
  - vm_compute. reflexivity.
  - exists rp. split; [exact Hrp|].
    apply (Hlater _ (reaches_here _ _)). vm_compute. reflexivity.
Defined.

(** https://example.edu/ in the sample world where no robots.txt can be
    fetched. *)
Lemma check_robots_refuses_when_read_raises_witness :
  ∃ st', check_robots Sample.env_robots_down "https://example.edu/" Sample.initial_state
         = (Ok false, st').
Proof.
  destruct (check_robots_refuses_when_read_raises Sample.env_robots_down
              "https://example.edu/" Sample.initial_state "URLError")
    as (st' & rp & H & _).
  - vm_compute. reflexivity.
  - vm_compute. reflexivity.
  - exists st'. exact H.
Defined.

(** With no robots.txt reachable the seed itself is refused: main logs the
    read and the refusal, fetches nothing and finishes the job with 0 pages. *)
Example main_when_robots_down :
  (λ out : result unit * State, trace out.2)
    <$> main Sample.env_robots_down "example.edu" 1 Sample.initial_state
  = Some [RobotsRead "example.edu" "https://example.edu/robots.txt";
          BlockedByRobots "https://example.edu/";
          FinishCrawl 1 0 "done"].
Proof. vm_compute. reflexivity. Qed.

(** ** Failures while the topics of a saved page are stored *)

(** C2, counterexample: in the sample world where the first
    get_or_create_topic of the seed page raises OperationalError, the seed
    page is saved, the exception escapes the call of crawl on the seed, and
    neither of the two links of the page is fetched; main records the job as
    failed with 0 pages.  Without the fault the same crawl fetches the links
    and returns 2. *)
Lemma topic_failure_aborts_crawl_counterexample :
  observe (crawl Sample.env_topic_fault "https://example.edu" 1 1 0 None Sample.job_state)
  = Some (Raise (Exception "OperationalError"),
          ["https://example.edu/"],
          [(0, "https://example.edu/")])
  ∧ (λ out : result unit * State, finishes (trace out.2))
    <$> main Sample.env_topic_fault_run "example.edu" 1 Sample.initial_state
    = Some [(1%nat, 0%nat, "error")]
  ∧ observe (crawl Sample.env "https://example.edu" 1 1 0 None Sample.job_state)
    = Some (Ok 2%nat,
            ["https://example.edu/"; "https://example.edu/a"],
            [(0, "https://example.edu/"); (1, "https://example.edu/a");
             (1, "https://example.edu/b")]).
Proof. repeat split; vm_compute; reflexivity. Qed.

Section TopicFailure.

Variable env : Env.

(** C2, as amended: crawl has no handler around the storing of topics.  When
    the page of a node has been saved and get_or_create_topic or
    link_page_topic raises for one of its topics, the exception escapes the
    call of crawl on that node, with the page row kept and the links of the
    page not followed; a call of crawl that raises inside the loop over the
    links ends the loop with that exception, and the call of crawl that runs
    the loop ends with it too. *)
Theorem topic_failure_escapes_crawl (fuel : nat) (url : string) (max_depth : Z)
    (crawl_id : nat) (depth : Z) (v : gset string) (st s1 s2 : State)
    (page_id : nat) (page : parsed_page) (e : exn) :
  normalize_url url ∉ v →
  depth <= max_depth →
  fetch_and_save env (normalize_url url) crawl_id depth st = (Ok (Some (page_id, page)), s1) →
  link_topics env page_id (elements (extract_topics (pg_title page) (pg_headings page))) s1
    = (Raise e, s2) →
  crawl_fuel env (S fuel) url max_depth crawl_id depth v st
    = Some (Raise e, v ∪ {[normalize_url url]}, s2)
  ∧ Db.pages (db s2) = Db.pages (db s1)
  ∧ (∀ recurse link rest n v0 s0 v1 s',
      normalize_url link ∉ v0 →
      should_skip_url (normalize_url link) = false →
      is_allowed_domain (normalize_url link) = true →
      recurse (normalize_url link) v0 s0 = Some (Raise e, v1, s') →
      crawl_links recurse (link :: rest) n v0 s0 = Some (Raise e, v1, s'))
  ∧ (∀ fuel' parent pdepth pv pst links ps1 v1 s',
      normalize_url parent ∉ pv →
      pdepth < max_depth →
      crawl_page env (normalize_url parent) crawl_id pdepth pst = (Ok (Some links), ps1) →
      crawl_links (fun link => crawl_fuel env fuel' link max_depth crawl_id (pdepth + 1))
                  links 1 (pv ∪ {[normalize_url parent]}) ps1 = Some (Raise e, v1, s') →
      crawl_fuel env (S fuel') parent max_depth crawl_id pdepth pv pst
        = Some (Raise e, v1, s')).
Proof.
  intros Hv Hd Hsave Htopics. split; [|split; [|split]].
  - cbn [crawl_fuel].
    rewrite (bool_decide_eq_false_2 _ Hv).
    replace (max_depth <? depth) with false by (symmetry; apply Z.ltb_ge; lia).
    cbn [orb]. unfold crawl_page, bind at 1. rewrite Hsave.
    unfold bind at 1. rewrite Htopics. reflexivity.
  - apply link_topics_quiet in Htopics. destruct Htopics as [_ _ P _ _ _].
    by rewrite app_nil_r in P.
  - intros recurse link rest n v0 s0 v1 s' Hv0 Hskip Hallowed Hrec.
    cbn [crawl_links].
    rewrite (bool_decide_eq_false_2 _ Hv0), Hskip, Hallowed. cbn [negb].
    rewrite Hrec. reflexivity.
  - intros fuel' parent pdepth pv pst links ps1 v1 s' Hpv Hpd Hpage Hloop.
    cbn [crawl_fuel].
    rewrite (bool_decide_eq_false_2 _ Hpv).
    replace (max_depth <? pdepth) with false by (symmetry; apply Z.ltb_ge; lia).
    cbn [orb]. rewrite Hpage.
    replace (pdepth <? max_depth) with true by (symmetry; apply Z.ltb_lt; lia).
    exact Hloop.
Qed.

End TopicFailure.

(** The seed of the sample world where the first get_or_create_topic raises. *)
Lemma topic_failure_escapes_crawl_witness :
  ∃ s2, crawl_fuel Sample.env_topic_fault 2 "https://example.edu" 1 1 0 ∅ Sample.job_state
        = Some (Raise (Exception "OperationalError"),
                ∅ ∪ {[normalize_url "https://example.edu"]}, s2).
Proof.
  pose (sv := fetch_and_save Sample.env_topic_fault (normalize_url "https://example.edu")
                1 0 Sample.job_state).
  pose (pg := mkParsed "The Sun and Its Light" "" ["Solar Energy Basics"]
                ["https://example.edu/a"; "https://example.edu/b/"; "https://other.com/x"]).
  pose (lt := link_topics Sample.env_topic_fault 1
                (elements (extract_topics (pg_title pg) (pg_headings pg))) sv.2).
  destruct (topic_failure_escapes_crawl Sample.env_topic_fault 1 "https://example.edu" 1 1 0 ∅
              Sample.job_state sv.2 lt.2 1 pg (Exception "OperationalError")) as [H _].
  - apply not_elem_of_empty.
  - lia.
  - vm_compute. reflexivity.
  - vm_compute. reflexivity.
  - exists lt.2. exact H.
Defined.

(** * Further properties *)

(** ** db.py *)

Section DbFacts.

Lemma existsb_fmap_nat {A} (f : A → nat) (l : list A) (n : nat) :
  existsb (fun r => Nat.eqb (f r) n) l = true ↔ n ∈ f <$> l.
Proof.
  rewrite existsb_exists, list_elem_of_fmap. split.
  - intros (r & Hin & Heq). apply Nat.eqb_eq in Heq. exists r.
    split; [done|]. by apply list_elem_of_In.
  - intros (r & -> & Hin). exists r. split; [by apply list_elem_of_In|apply Nat.eqb_refl].
Qed.

Lemma existsb_fmap_string {A} (f : A → string) (l : list A) (s : string) :
  existsb (fun r => String.eqb (f r) s) l = true ↔ s ∈ f <$> l.
Proof.
  rewrite existsb_exists, list_elem_of_fmap. split.
  - intros (r & Hin & Heq). apply String.eqb_eq in Heq. exists r.
    split; [done|]. by apply list_elem_of_In.
  - intros (r & -> & Hin). exists r. split; [by apply list_elem_of_In|apply String.eqb_refl].
Qed.

Lemma page_exists_iff (url : string) (d : Db.t) :
  Db.page_exists url d = true ↔ url ∈ Db.p_url <$> Db.pages d.
Proof. apply existsb_fmap_string. Qed.

Lemma NoDup_fmap_snoc {A B} (f : A → B) (l : list A) (x : A) :
  NoDup (f <$> l) → f x ∉ f <$> l → NoDup (f <$> (l ++ [x])%list).
Proof.
  intros Hnd Hx. rewrite fmap_app. apply NoDup_app. split; [exact Hnd|].
  split; [|apply NoDup_singleton].
  intros y Hy Hy'. apply list_elem_of_singleton in Hy'. by subst y.
Qed.

Lemma fresh_id_not_in {A} (f : A → nat) (l : list A) (n : nat) :
  (∀ r, r ∈ l → (f r <= n)%nat) → S n ∉ f <$> l.
Proof.
  intros Hle Hin. apply list_elem_of_fmap in Hin as (r & Heq & Hr).
  specialize (Hle r Hr). lia.
Qed.

Lemma elem_of_fmap_app_l {A B} (f : A → B) (l m : list A) (y : B) :
  y ∈ f <$> l → y ∈ f <$> (l ++ m)%list.
Proof. intros H. rewrite fmap_app. apply elem_of_app. by left. Qed.

Lemma fmap_c_id_finish (crawl_id n : nat) (status : string) (rows : list Db.crawl_row) :
  Db.c_id <$> List.map (fun r => if Nat.eqb (Db.c_id r) crawl_id
                                 then Db.mkCrawl (Db.c_id r) (Db.c_seed_url r)
                                                 (Db.c_max_depth r) n status
                                 else r) rows
  = Db.c_id <$> rows.
Proof.
  induction rows as [|r rows IH]; simpl; [reflexivity|].
  f_equal; [|exact IH]. by destruct (Nat.eqb (Db.c_id r) crawl_id).
Qed.

Lemma schema_ok_empty : schema_ok Db.empty.
Proof.
  split; simpl; first [apply NoDup_nil_2 | intros x Hx; by apply elem_of_nil in Hx].
Qed.

Lemma schema_ok_create_crawl (seed_url : string) (max_depth : Z) (d : Db.t) :
  schema_ok d → schema_ok (Db.create_crawl seed_url max_depth d).2.
Proof.
  intros [C1 C2 P1 P2 P3 P4 T1 T2 T3 L1 L2]. split; simpl; auto.
  - apply NoDup_fmap_snoc; [exact C1|]. simpl. by apply fresh_id_not_in.
  - intros r Hr. apply elem_of_app in Hr as [Hr|Hr].
    + specialize (C2 r Hr). lia.
    + apply list_elem_of_singleton in Hr. subst r. simpl. lia.
  - intros p Hp. apply elem_of_fmap_app_l. auto.
Qed.

Lemma schema_ok_finish_crawl (crawl_id n : nat) (status : string) (d : Db.t) :
  schema_ok d → schema_ok (Db.finish_crawl crawl_id n status d).
Proof.
  intros [C1 C2 P1 P2 P3 P4 T1 T2 T3 L1 L2]. split; simpl; auto.
  - by rewrite fmap_c_id_finish.
  - intros r Hr. apply list_elem_of_In, in_map_iff in Hr as (r0 & <- & Hr0).
    apply list_elem_of_In in Hr0. specialize (C2 r0 Hr0).
    by destruct (Nat.eqb (Db.c_id r0) crawl_id).
  - intros p Hp. rewrite fmap_c_id_finish. auto.
Qed.

Lemma schema_ok_save_page (url title description domain : string) (depth : Z)
    (crawl_id : nat) (d : Db.t) :
  schema_ok d → schema_ok (Db.save_page url title description domain depth crawl_id d).2.
Proof.
  intros Hok. unfold Db.save_page.
  destruct (Db.page_exists url d) eqn:Ex; [exact Hok|].
  destruct (existsb _ (Db.crawls d)) eqn:Ec; [|exact Hok]. cbn [orb negb snd].
  destruct Hok as [C1 C2 P1 P2 P3 P4 T1 T2 T3 L1 L2]. split; simpl; auto.
  - apply NoDup_fmap_snoc; [exact P1|]. simpl. by apply fresh_id_not_in.
  - intros p Hp. apply elem_of_app in Hp as [Hp|Hp].
    + specialize (P2 p Hp). lia.
    + apply list_elem_of_singleton in Hp. subst p. simpl. lia.
  - apply NoDup_fmap_snoc; [exact P3|]. simpl. intros Hin.
    apply page_exists_iff in Hin. congruence.
  - intros p Hp. apply elem_of_app in Hp as [Hp|Hp]; [auto|].
    apply list_elem_of_singleton in Hp. subst p. simpl.
    by apply existsb_fmap_nat.
  - intros l Hl. destruct (L2 l Hl) as [H1 H2]. split; [|exact H2].
    by apply elem_of_fmap_app_l.
Qed.

Lemma find_topic_None (name : string) (rows : list Db.topic_row) :
  List.find (fun r => String.eqb (Db.t_name r) name) rows = None →
  name ∉ Db.t_name <$> rows.
Proof.
  intros Hf Hin. apply list_elem_of_fmap in Hin as (r & -> & Hr).
  apply list_elem_of_In in Hr.
  pose proof (find_none _ _ Hf r Hr) as H. simpl in H.
  by rewrite String.eqb_refl in H.
Qed.

Lemma schema_ok_get_or_create_topic (name : string) (d : Db.t) :
  schema_ok d → schema_ok (Db.get_or_create_topic name d).2.
Proof.
  intros Hok. unfold Db.get_or_create_topic.
  destruct (List.find _ (Db.topics d)) as [row|] eqn:Ef; [exact Hok|].
  apply find_topic_None in Ef.
  destruct Hok as [C1 C2 P1 P2 P3 P4 T1 T2 T3 L1 L2]. split; simpl; auto.
  - apply NoDup_fmap_snoc; [exact T1|]. simpl. by apply fresh_id_not_in.
  - intros t Ht. apply elem_of_app in Ht as [Ht|Ht].
    + specialize (T2 t Ht). lia.
    + apply list_elem_of_singleton in Ht. subst t. simpl. lia.
  - by apply NoDup_fmap_snoc.
  - intros l Hl. destruct (L2 l Hl) as [H1 H2]. split; [exact H1|].
    by apply elem_of_fmap_app_l.
Qed.

Lemma schema_ok_link_page_topic (page_id topic_id : nat) (d : Db.t) :
  schema_ok d → schema_ok (Db.link_page_topic page_id topic_id d).
Proof.
  intros Hok. unfold Db.link_page_topic.
  destruct (existsb _ (Db.page_topics d)) eqn:El; [exact Hok|].
  destruct (existsb _ (Db.pages d)) eqn:Ep; [|exact Hok].
  destruct (existsb _ (Db.topics d)) eqn:Et; [|exact Hok]. cbn [orb negb].
  apply existsb_fmap_nat in Ep, Et.
  destruct Hok as [C1 C2 P1 P2 P3 P4 T1 T2 T3 L1 L2]. split; simpl; auto.
  - apply NoDup_app. split; [exact L1|]. split; [|apply NoDup_singleton].
    intros l Hl Hl'. apply list_elem_of_singleton in Hl'. subst l.
    assert (existsb (fun l => Nat.eqb l.1 page_id && Nat.eqb l.2 topic_id)
                    (Db.page_topics d) = true) as Hex; [|congruence].
    apply existsb_exists. exists (page_id, topic_id).
    split; [by apply list_elem_of_In|]. simpl. by rewrite !Nat.eqb_refl.
  - intros l Hl. apply elem_of_app in Hl as [Hl|Hl]; [auto|].
    apply list_elem_of_singleton in Hl. by subst l.
Qed.

(** X1: every writing function of db.py keeps the constraints of the schema
    (primary keys, AUTOINCREMENT counters, UNIQUE url and name, foreign
    keys), and the empty store has them. *)
Theorem db_operations_keep_schema (d : Db.t) :
  schema_ok d →
  (∀ seed_url max_depth, schema_ok (Db.create_crawl seed_url max_depth d).2)
  ∧ (∀ crawl_id n status, schema_ok (Db.finish_crawl crawl_id n status d))
  ∧ (∀ url title description domain depth crawl_id,
       schema_ok (Db.save_page url title description domain depth crawl_id d).2)
  ∧ (∀ name, schema_ok (Db.get_or_create_topic name d).2)
  ∧ (∀ page_id topic_id, schema_ok (Db.link_page_topic page_id topic_id d)).
Proof.
  intros Hok. refine (conj _ (conj _ (conj _ (conj _ _)))); intros.
  - by apply schema_ok_create_crawl.
  - by apply schema_ok_finish_crawl.
  - by apply schema_ok_save_page.
  - by apply schema_ok_get_or_create_topic.
  - by apply schema_ok_link_page_topic.
Qed.

Lemma db_operations_keep_schema_witness :
  schema_ok (Db.create_crawl "https://example.edu" 1 Db.empty).2.
Proof.
  apply (proj1 (db_operations_keep_schema Db.empty schema_ok_empty)).
Defined.

End DbFacts.

Section DbRoundTrips.

Lemma page_exists_snoc (other : string) (rows : list Db.page_row) (p : Db.page_row) :
  existsb (fun r => String.eqb (Db.p_url r) other) (rows ++ [p])
  = existsb (fun r => String.eqb (Db.p_url r) other) rows || String.eqb (Db.p_url p) other.
Proof. rewrite existsb_app. simpl. by rewrite orb_false_r. Qed.

(** X2: a save_page that returns an id found the URL absent, appended one row
    carrying its arguments under the next id of the counter, and made
    page_exists true for that URL and for no other; saving the same URL again,
    with whatever other columns, returns None and leaves the store as it is. *)
Theorem save_page_then_exists (url title description domain : string) (depth : Z)
    (crawl_id page_id : nat) (d d' : Db.t) :
  Db.save_page url title description domain depth crawl_id d = (Some page_id, d') →
  Db.page_exists url d = false
  ∧ Db.page_exists url d' = true
  ∧ page_id = S (Db.seq_pages d)
  ∧ Db.pages d'
    = (Db.pages d ++ [Db.mkPage page_id url title description domain depth crawl_id])%list
  ∧ (∀ other, other ≠ url → Db.page_exists other d' = Db.page_exists other d)
  ∧ (∀ title2 description2 domain2 depth2 crawl_id2,
       Db.save_page url title2 description2 domain2 depth2 crawl_id2 d' = (None, d')).
Proof.
  unfold Db.save_page. destruct (Db.page_exists url d) eqn:Ex; [discriminate|].
  destruct (existsb _ (Db.crawls d)); [|discriminate]. cbn [orb negb].
  intros [= <- <-].
  assert (Hnew : Db.page_exists url
            (Db.mkDb (Db.crawls d)
               (Db.pages d ++ [Db.mkPage (S (Db.seq_pages d)) url title description
                                 domain depth crawl_id])
               (Db.topics d) (Db.page_topics d) (Db.seq_crawls d)
               (S (Db.seq_pages d)) (Db.seq_topics d)) = true).
  { unfold Db.page_exists. simpl. rewrite page_exists_snoc. simpl.
    rewrite String.eqb_refl. apply orb_true_r. }
  refine (conj eq_refl (conj Hnew (conj eq_refl (conj eq_refl (conj _ _))))).
  - intros other Hne. unfold Db.page_exists. simpl.
    rewrite page_exists_snoc. simpl.
    replace (String.eqb url other) with false; [apply orb_false_r|].
    symmetry. apply String.eqb_neq. congruence.
  - intros. rewrite Hnew. reflexivity.
Qed.

Lemma save_page_then_exists_witness :
  Db.page_exists "https://example.edu/"
    (Db.save_page "https://example.edu/" "T" "" "example.edu" 0 1 (db Sample.job_state)).2
  = true.
Proof.
  refine (proj1 (proj2 (save_page_then_exists "https://example.edu/" "T" "" "example.edu"
                          0 1 1 (db Sample.job_state) _ _))).
  vm_compute. reflexivity.
Defined.


Lemma find_topic_snoc (name : string) (rows : list Db.topic_row) (id : nat) :
  List.find (fun r => String.eqb (Db.t_name r) name) rows = None →
  List.find (fun r => String.eqb (Db.t_name r) name) (rows ++ [Db.mkTopic id name])
  = Some (Db.mkTopic id name).
Proof.
  induction rows as [|r rows IH]; simpl.
  - intros _. by rewrite String.eqb_refl.
  - destruct (String.eqb (Db.t_name r) name); [discriminate|exact IH].
Qed.

(** X4: get_or_create_topic returns the id of a row of topics that carries
    the name, adds a row only when the name was absent, and is idempotent:
    asked again it returns the same id and changes nothing. *)
Theorem get_or_create_topic_idempotent (name : string) (d : Db.t) :
  ∃ topic_id d',
    Db.get_or_create_topic name d = (topic_id, d')
    ∧ Db.mkTopic topic_id name ∈ Db.topics d'
    ∧ Db.get_or_create_topic name d' = (topic_id, d')
    ∧ (name ∈ Db.t_name <$> Db.topics d ∧ d' = d
       ∨ (name ∉ Db.t_name <$> Db.topics d)
         ∧ Db.topics d' = (Db.topics d ++ [Db.mkTopic topic_id name])%list
         ∧ topic_id = S (Db.seq_topics d)).
Proof.
  unfold Db.get_or_create_topic.
  destruct (List.find _ (Db.topics d)) as [row|] eqn:Ef.
  - exists (Db.t_id row), d. rewrite Ef.
    pose proof (find_some _ _ Ef) as [Hin Hname]. simpl in Hname.
    apply String.eqb_eq in Hname. apply list_elem_of_In in Hin.
    assert (Hrow : Db.mkTopic (Db.t_id row) name = row) by (destruct row; simpl in *; congruence).
    refine (conj eq_refl (conj _ (conj eq_refl (or_introl (conj _ eq_refl))))).
    + by rewrite Hrow.
    + apply list_elem_of_fmap. by exists row.
  - eexists _, _. split; [reflexivity|]. simpl. rewrite (find_topic_snoc _ _ _ Ef).
    refine (conj _ (conj eq_refl (or_intror (conj _ (conj eq_refl eq_refl))))).
    + apply elem_of_app. right. by apply list_elem_of_singleton.
    + by apply find_topic_None.
Qed.

(** X5: link_page_topic is idempotent; it stores the link when both the page
    and the topic exist, and does nothing, without an error, when either is
    missing. *)
Theorem link_page_topic_idempotent (page_id topic_id : nat) (d : Db.t) :
  Db.link_page_topic page_id topic_id (Db.link_page_topic page_id topic_id d)
  = Db.link_page_topic page_id topic_id d
  ∧ (page_id ∈ Db.p_id <$> Db.pages d ∧ topic_id ∈ Db.t_id <$> Db.topics d
     ∧ (page_id, topic_id) ∈ Db.page_topics (Db.link_page_topic page_id topic_id d)
     ∨ ((page_id ∉ Db.p_id <$> Db.pages d) ∨ (topic_id ∉ Db.t_id <$> Db.topics d))
       ∧ Db.link_page_topic page_id topic_id d = d).
Proof.
  assert (Hin : ∀ links, existsb (fun l : nat * nat => Nat.eqb l.1 page_id && Nat.eqb l.2 topic_id)
                           links = true ↔ (page_id, topic_id) ∈ links).
  { intros links. rewrite existsb_exists. split.
    - intros ([p t] & Hl & Heq). simpl in Heq. apply andb_true_iff in Heq as [H1 H2].
      apply Nat.eqb_eq in H1, H2. subst. by apply list_elem_of_In.
    - intros Hl. exists (page_id, topic_id). split; [by apply list_elem_of_In|].
      simpl. by rewrite !Nat.eqb_refl. }
  unfold Db.link_page_topic at 2 3 4 5.
  destruct (existsb _ (Db.page_topics d)) eqn:El; cbn [orb].
  { split.
    - unfold Db.link_page_topic. by rewrite El.
    - apply Hin in El. destruct (existsb (fun r => Nat.eqb (Db.p_id r) page_id) (Db.pages d)) eqn:Ep.
      + destruct (existsb (fun r => Nat.eqb (Db.t_id r) topic_id) (Db.topics d)) eqn:Et.
        * left. apply existsb_fmap_nat in Ep, Et. auto.
        * right. split; [|done]. right. rewrite <- existsb_fmap_nat. congruence.
      + right. split; [|done]. left. rewrite <- existsb_fmap_nat. congruence. }
  destruct (existsb _ (Db.pages d)) eqn:Ep; cbn [orb negb].
  2:{ split.
      - unfold Db.link_page_topic. by rewrite El, Ep.
      - right. split; [|done]. left. rewrite <- existsb_fmap_nat. congruence. }
  destruct (existsb _ (Db.topics d)) eqn:Et; cbn [orb negb].
  2:{ split.
      - unfold Db.link_page_topic. by rewrite El, Ep, Et.
      - right. split; [|done]. right. rewrite <- existsb_fmap_nat. congruence. }
  assert (Hnow : (page_id, topic_id) ∈ (Db.page_topics d ++ [(page_id, topic_id)])%list).
  { apply elem_of_app. right. by apply list_elem_of_singleton. }
  split.
  - unfold Db.link_page_topic. simpl. apply Hin in Hnow. by rewrite Hnow.
  - left. apply existsb_fmap_nat in Ep, Et. auto.
Qed.

Lemma find_crawl_snoc_other (other : nat) (rows : list Db.crawl_row)
    (row : Db.crawl_row) :
  Db.c_id row ≠ other →
  List.find (fun r => Nat.eqb (Db.c_id r) other) (rows ++ [row])
  = List.find (fun r => Nat.eqb (Db.c_id r) other) rows.
Proof.
  intros Hne. induction rows as [|r rows IH]; simpl.
  - by apply Nat.eqb_neq in Hne as ->.
  - by destruct (Nat.eqb (Db.c_id r) other).
Qed.

Lemma find_crawl_snoc_new (rows : list Db.crawl_row) (row : Db.crawl_row) :
  Db.c_id row ∉ Db.c_id <$> rows →
  List.find (fun r => Nat.eqb (Db.c_id r) (Db.c_id row)) (rows ++ [row]) = Some row.
Proof.
  induction rows as [|r rows IH]; simpl.
  - intros _. by rewrite Nat.eqb_refl.
  - intros Hnot. destruct (Nat.eqb (Db.c_id r) (Db.c_id row)) eqn:E.
    + apply Nat.eqb_eq in E. exfalso. apply Hnot. rewrite E. left.
    + apply IH. intros H. apply Hnot. by right.
Qed.

Lemma find_crawl_finish_other (crawl_id other n : nat) (status : string) (d : Db.t) :
  other ≠ crawl_id →
  Db.find_crawl other (Db.finish_crawl crawl_id n status d) = Db.find_crawl other d.
Proof.
  intros Hne. unfold Db.find_crawl, Db.finish_crawl. simpl.
  induction (Db.crawls d) as [|r rows IH]; simpl; [reflexivity|].
  destruct (Nat.eqb (Db.c_id r) crawl_id) eqn:E; simpl.
  - apply Nat.eqb_eq in E. rewrite E.
    by apply Nat.eqb_neq in Hne as Hne'; rewrite Nat.eqb_sym, Hne'.
  - by destruct (Nat.eqb (Db.c_id r) other).
Qed.

Lemma find_crawl_finish_same (crawl_id n : nat) (status : string) (d : Db.t)
    (row : Db.crawl_row) :
  Db.find_crawl crawl_id d = Some row →
  Db.find_crawl crawl_id (Db.finish_crawl crawl_id n status d)
  = Some (Db.mkCrawl crawl_id (Db.c_seed_url row) (Db.c_max_depth row) n status).
Proof.
  unfold Db.find_crawl, Db.finish_crawl. simpl.
  induction (Db.crawls d) as [|r rows IH]; simpl; [discriminate|].
  destruct (Nat.eqb (Db.c_id r) crawl_id) eqn:E; simpl.
  - intros [= <-]. rewrite E. apply Nat.eqb_eq in E. by rewrite E.
  - rewrite E. exact IH.
Qed.

(** X6: in a store that respects the AUTOINCREMENT counter, create_crawl
    hands out an id no job has, whose row is "running" with 0 pages;
    finish_crawl on that id then sets its count and status and keeps its seed
    and depth; neither call changes what any other job id looks up, nor the
    pages, topics and links. *)
Theorem create_then_finish_crawl (seed_url : string) (max_depth : Z) (n : nat)
    (status : string) (d : Db.t) :
  schema_ok d →
  let crawl_id := (Db.create_crawl seed_url max_depth d).1 in
  let d1 := (Db.create_crawl seed_url max_depth d).2 in
  let d2 := Db.finish_crawl crawl_id n status d1 in
  Db.find_crawl crawl_id d = None
  ∧ Db.find_crawl crawl_id d1 = Some (Db.mkCrawl crawl_id seed_url max_depth 0 "running")
  ∧ Db.find_crawl crawl_id d2 = Some (Db.mkCrawl crawl_id seed_url max_depth n status)
  ∧ (∀ other, other ≠ crawl_id →
       Db.find_crawl other d1 = Db.find_crawl other d
       ∧ Db.find_crawl other d2 = Db.find_crawl other d)
  ∧ Db.pages d2 = Db.pages d ∧ Db.topics d2 = Db.topics d
  ∧ Db.page_topics d2 = Db.page_topics d.
Proof.
  intros Hok crawl_id d1 d2.
  assert (Hfresh : S (Db.seq_crawls d) ∉ Db.c_id <$> Db.crawls d).
  { apply fresh_id_not_in. apply Hok. }
  assert (H0 : Db.find_crawl crawl_id d = None).
  { unfold Db.find_crawl. destruct (List.find _ _) as [r|] eqn:Ef; [|done].
    apply find_some in Ef as [Hin Heq]. apply Nat.eqb_eq in Heq.
    exfalso. apply Hfresh. apply list_elem_of_fmap. exists r.
    split; [by rewrite Heq|by apply list_elem_of_In]. }
  assert (H1 : Db.find_crawl crawl_id d1
               = Some (Db.mkCrawl crawl_id seed_url max_depth 0 "running")).
  { unfold Db.find_crawl, d1, crawl_id. simpl.
    exact (find_crawl_snoc_new (Db.crawls d)
             (Db.mkCrawl (S (Db.seq_crawls d)) seed_url max_depth 0 "running") Hfresh). }
  refine (conj H0 (conj H1 (conj _ (conj _ (conj eq_refl (conj eq_refl eq_refl)))))).
  - unfold d2. by rewrite (find_crawl_finish_same _ _ _ _ _ H1).
  - intros other Hne.
    assert (Ho : Db.find_crawl other d1 = Db.find_crawl other d).
    { unfold Db.find_crawl, d1. simpl. apply find_crawl_snoc_other.
      simpl. intros Heq. apply Hne. rewrite <- Heq. reflexivity. }
    split; [exact Ho|]. unfold d2. by rewrite find_crawl_finish_other.
Qed.

Lemma create_then_finish_crawl_witness :
  Db.find_crawl 1 (Db.finish_crawl 1 2 "done" (Db.create_crawl "https://example.edu" 1 Db.empty).2)
  = Some (Db.mkCrawl 1 "https://example.edu" 1 2 "done").
Proof.
  exact (proj1 (proj2 (proj2 (create_then_finish_crawl "https://example.edu" 1 2 "done"
                                Db.empty schema_ok_empty)))).
Defined.

End DbRoundTrips.

(** ** What the traversal does to the store *)

Section CrawlStore.

Variable env : Env.

(** A property of the store that the three writing calls of crawl keep. *)
Variable J : Db.t → Prop.
Hypothesis J_save_page :
  ∀ d url title description domain depth crawl_id,
    J d → J (Db.save_page url title description domain depth crawl_id d).2.
Hypothesis J_get_or_create_topic :
  ∀ d name, J d → J (Db.get_or_create_topic name d).2.
Hypothesis J_link_page_topic :
  ∀ d page_id topic_id, J d → J (Db.link_page_topic page_id topic_id d).

Lemma db_call_keeps {A} (op : Db.t → A * Db.t) (st st' : State) (r : result A) :
  (∀ d, J d → J (op d).2) →
  db_call env op st = (r, st') → J (db st) → J (db st').
Proof.
  intros Hop. unfold db_call. destruct (db_fault env (tick st)).
  - by intros [= <- <-].
  - destruct (op (db st)) as [a d] eqn:E. intros [= <- <-] HJ.
    specialize (Hop _ HJ). by rewrite E in Hop.
Qed.

Lemma check_robots_db (url : string) (st st' : State) r :
  check_robots env url st = (r, st') → db st' = db st.
Proof.
  unfold check_robots. destruct (_robots_cache st !! _); [by intros [= <- <-]|].
  destruct (read _ _ _) as [[[]|[|what]] rp]; by intros [= <- <-].
Qed.

Lemma rate_limit_db (domain : string) (st st' : State) r :
  rate_limit domain st = (r, st') → db st' = db st.
Proof. unfold rate_limit. intros [= <- <-]. simpl. by destruct (0 <? _). Qed.

Lemma try_fetch_db (url : string) (st st' : State) r :
  try_except_Exception
    (do html <- fetch_page env url; ret (Some html)) (fun _ => ret None) st = (r, st') →
  db st' = db st.
Proof.
  unfold try_except_Exception, bind, fetch_page.
  destruct (http_get env (tick st) url) as [[|what]| |page]; by intros [= <- <-].
Qed.

Lemma link_topics_keeps (page_id : nat) (topics : list string) (st st' : State) r :
  link_topics env page_id topics st = (r, st') → J (db st) → J (db st').
Proof.
  revert st; induction topics as [|t topics IH]; intros st; cbn [link_topics].
  - by intros [= <- <-].
  - intros H HJ. apply bind_inv in H as [(e & H & ->)|(tid & s1 & H1 & H)].
    { eapply db_call_keeps; [|exact H|exact HJ]. intros d. apply J_get_or_create_topic. }
    assert (HJ1 : J (db s1)).
    { eapply db_call_keeps; [|exact H1|exact HJ]. intros d. apply J_get_or_create_topic. }
    apply bind_inv in H as [(e & H & ->)|([] & s2 & H2 & H)].
    { eapply db_call_keeps; [|exact H|exact HJ1]. intros d. apply J_link_page_topic. }
    apply (IH _ H).
    eapply db_call_keeps; [|exact H2|exact HJ1]. intros d. apply J_link_page_topic.
Qed.

Lemma fetch_and_save_keeps (url : string) (crawl_id : nat) (depth : Z)
    (st st' : State) r :
  fetch_and_save env url crawl_id depth st = (r, st') → J (db st) → J (db st').
Proof.
  unfold fetch_and_save. intros H HJ.
  apply bind_inv in H as [(e & H & ->)|(present & s1 & H1 & H)].
  { eapply db_call_keeps; [|exact H|exact HJ]. auto. }
  assert (HJ1 : J (db s1)) by (eapply db_call_keeps; [|exact H1|exact HJ]; auto).
  clear H1 HJ. destruct present; [by injection H as <- <-|].
  apply bind_inv in H as [(e & H & ->)|(allowed & s2 & H2 & H)].
  { apply check_robots_db in H. by rewrite H. }
  apply check_robots_db in H2. rewrite <- H2 in HJ1. clear H2.
  destruct allowed; cbn [negb] in H.
  2:{ apply bind_inv in H as [(e & H & ->)|([] & s3 & H3 & H)].
      - discriminate H.
      - injection H3 as <-. by injection H as <- <-. }
  apply bind_inv in H as [(e & H & ->)|([] & s3 & H3 & H)].
  { apply rate_limit_db in H. by rewrite H. }
  apply rate_limit_db in H3. rewrite <- H3 in HJ1. clear H3.
  apply bind_inv in H as [(e & H & ->)|([] & s4 & H4 & H)]; [discriminate H|].
  injection H4 as <-.
  apply bind_inv in H as [(e & H & ->)|(fetched & s5 & H5 & H)].
  { apply try_fetch_db in H. by rewrite H. }
  apply try_fetch_db in H5. simpl in H5. rewrite <- H5 in HJ1. clear H5.
  destruct fetched as [[page|]|]; [|by injection H as <- <-..].
  apply bind_inv in H as [(e & H & ->)|(page_id & s6 & H6 & H)].
  { eapply db_call_keeps; [|exact H|exact HJ1]. intros d. apply J_save_page. }
  assert (HJ6 : J (db s6)).
  { eapply db_call_keeps; [|exact H6|exact HJ1]. intros d. apply J_save_page. }
  destruct page_id; by injection H as <- <-.
Qed.

Lemma crawl_page_keeps (url : string) (crawl_id : nat) (depth : Z) (st st' : State) r :
  crawl_page env url crawl_id depth st = (r, st') → J (db st) → J (db st').
Proof.
  unfold crawl_page. intros H HJ.
  apply bind_inv in H as [(e & H & ->)|(saved & s1 & H1 & H)].
  { by apply (fetch_and_save_keeps _ _ _ _ _ _ H). }
  apply (fetch_and_save_keeps _ _ _ _ _ _ H1) in HJ.
  destruct saved as [[page_id page]|]; [|by injection H as <- <-].
  apply bind_inv in H as [(e & H & ->)|([] & s2 & H2 & H)].
  { by apply (link_topics_keeps _ _ _ _ _ H). }
  injection H as <- <-. by apply (link_topics_keeps _ _ _ _ _ H2).
Qed.

Lemma crawl_links_keeps
    (recurse : string → gset string → State → option crawl_result) :
  (∀ link v st r v' st', recurse link v st = Some (r, v', st') → J (db st) → J (db st')) →
  ∀ links n0 v st r v' st',
    crawl_links recurse links n0 v st = Some (r, v', st') → J (db st) → J (db st').
Proof.
  intros Hrec links. induction links as [|link links IH]; intros n0 v st r v' st';
    cbn [crawl_links].
  - by intros [= <- <- <-].
  - destruct (bool_decide _); [apply IH|].
    destruct (should_skip_url _); [apply IH|].
    destruct (negb _); [apply IH|].
    destruct (recurse (normalize_url link) v st) as [[[r1 v1] s1]|] eqn:E; [|discriminate].
    intros H HJ. apply (Hrec _ _ _ _ _ _ E) in HJ.
    destruct r1 as [n|e].
    + by apply (IH _ _ _ _ _ _ H).
    + by injection H as <- <- <-.
Qed.

Lemma crawl_fuel_keeps (fuel : nat) :
  ∀ url max_depth crawl_id depth v st r v' st',
    crawl_fuel env fuel url max_depth crawl_id depth v st = Some (r, v', st') →
    J (db st) → J (db st').
Proof.
  induction fuel as [|fuel IH]; intros url max_depth crawl_id depth v st r v' st';
    cbn [crawl_fuel]; [discriminate|].
  destruct (bool_decide _ || _); [by intros [= <- <- <-]|].
  destruct (crawl_page env _ _ _ _) as [r0 s1] eqn:E.
  intros H HJ. apply (crawl_page_keeps _ _ _ _ _ _ E) in HJ.
  destruct r0 as [[links|]|e]; [|by injection H as <- <- <-..].
  destruct (depth <? max_depth); [|by injection H as <- <- <-].
  eapply crawl_links_keeps; [|exact H|exact HJ].
  intros link v0 st0 r1 v1 st1. apply IH.
Qed.

Lemma bind_keeps {A B} (m : M A) (k : A → M B) :
  (∀ st r st', m st = (r, st') → J (db st) → J (db st')) →
  (∀ a st r st', k a st = (r, st') → J (db st) → J (db st')) →
  ∀ st r st', bind m k st = (r, st') → J (db st) → J (db st').
Proof.
  intros Hm Hk st r st'. unfold bind.
  destruct (m st) as [[a|e] s] eqn:E.
  - intros H HJ. exact (Hk _ _ _ _ H (Hm _ _ _ E HJ)).
  - intros [= <- <-]. exact (Hm _ _ _ E).
Qed.

Hypothesis J_create_crawl :
  ∀ d seed_url max_depth, J d → J (Db.create_crawl seed_url max_depth d).2.
Hypothesis J_finish_crawl :
  ∀ d crawl_id n status, J d → J (Db.finish_crawl crawl_id n status d).

Lemma finish_crawl_keeps (crawl_id n : nat) (status : string) (st st' : State) r :
  finish_crawl env crawl_id n status st = (r, st') → J (db st) → J (db st').
Proof.
  unfold finish_crawl. apply bind_keeps.
  - intros s r0 s'. apply db_call_keeps. intros d. apply J_finish_crawl.
  - intros _ s r0 s'. unfold emit. by intros [= <- <-].
Qed.

Lemma main_keeps (url : string) (depth : Z) (st st' : State) (r : result unit) :
  main env url depth st = Some (r, st') → J (db st) → J (db st').
Proof.
  unfold main. destruct (negb _); [by intros [= <- <-]|].
  match goal with
  | |- context [bind (init_db env) ?k st] =>
      destruct (bind (init_db env) k st) as [[crawl_id|e] s0] eqn:E0
  end.
  2:{ intros [= <- <-]. revert E0. apply bind_keeps.
      - intros s r0 s'. by apply db_call_keeps.
      - intros _ s r0 s'. apply db_call_keeps. intros d. apply J_create_crawl. }
  intros H HJ.
  assert (K0 : J (db s0)).
  { revert E0 HJ. apply bind_keeps.
    - intros s r0 s'. by apply db_call_keeps.
    - intros _ s r0 s'. apply db_call_keeps. intros d. apply J_create_crawl. }
  revert H.
  match goal with
  | |- context [crawl env ?u ?d ?c 0 None ?s] =>
      destruct (crawl env u d c 0 None s) as [[[r1 v] s1]|] eqn:E; [|discriminate]
  end.
  unfold crawl in E. apply crawl_fuel_keeps in E; [|exact K0].
  assert (Hint : ∀ s r2 s',
            bind (count_pages env crawl_id)
                 (λ c, finish_crawl env crawl_id c "interrupted") s = (r2, s') →
            J (db s) → J (db s')).
  { apply bind_keeps.
    - intros s r0 s'. by apply db_call_keeps.
    - intros c s r0 s'. apply finish_crawl_keeps. }
  destruct r1 as [n|[|what]].
  - destruct (finish_crawl env crawl_id n "done" s1) as [[[]|[|what]] s2] eqn:E2;
      apply finish_crawl_keeps in E2; try exact E.
    + by intros [= <- <-].
    + destruct (bind _ _ s2) as [r3 s3] eqn:E3. intros [= <- <-]. by apply Hint in E3.
    + destruct (finish_crawl env crawl_id 0 "error" s2) as [r3 s3] eqn:E3. intros [= <- <-].
      by apply finish_crawl_keeps in E3.
  - destruct (bind _ _ s1) as [r3 s3] eqn:E3. intros [= <- <-]. by apply Hint in E3.
  - destruct (finish_crawl env crawl_id 0 "error" s1) as [r3 s3] eqn:E3. intros [= <- <-].
    by apply finish_crawl_keeps in E3.
Qed.

End CrawlStore.

Section StoreTheorems.

Variable env : Env.

Lemma extends_refl {A} (l : list A) : extends l l.
Proof. exists []. by rewrite app_nil_r. Qed.

Lemma extends_trans {A} (a b c : list A) : extends a b → extends b c → extends a c.
Proof. intros [m1 ->] [m2 ->]. exists (m1 ++ m2)%list. by rewrite app_assoc. Qed.

Lemma extends_snoc {A} (l : list A) (x : A) : extends l (l ++ [x]).
Proof. by exists [x]. Qed.

Lemma db_grows_refl (d : Db.t) : db_grows d d.
Proof. split; auto using extends_refl. Qed.

Lemma db_grows_trans (a b c : Db.t) : db_grows a b → db_grows b c → db_grows a c.
Proof.
  intros [C1 S1 P1 T1 L1] [C2 S2 P2 T2 L2].
  split; [congruence|congruence|eauto using extends_trans..].
Qed.

Lemma db_grows_save_page (url title description domain : string) (depth : Z)
    (crawl_id : nat) (d : Db.t) :
  db_grows d (Db.save_page url title description domain depth crawl_id d).2.
Proof.
  unfold Db.save_page. destruct (_ || _); [apply db_grows_refl|].
  split; simpl; auto using extends_refl, extends_snoc.
Qed.

Lemma db_grows_get_or_create_topic (name : string) (d : Db.t) :
  db_grows d (Db.get_or_create_topic name d).2.
Proof.
  unfold Db.get_or_create_topic. destruct (List.find _ _); [apply db_grows_refl|].
  split; simpl; auto using extends_refl, extends_snoc.
Qed.

Lemma db_grows_link_page_topic (page_id topic_id : nat) (d : Db.t) :
  db_grows d (Db.link_page_topic page_id topic_id d).
Proof.
  unfold Db.link_page_topic. destruct (_ || _ || _); [apply db_grows_refl|].
  split; simpl; auto using extends_refl, extends_snoc.
Qed.

(** X7: a call of crawl, and a run of main however it ends, started on a
    store that respects the constraints of the schema, leaves a store that
    respects them: URLs
    and topic names stay unique, ids stay unique and below their counters,
    and every page and link refers to rows that exist. *)
Theorem process_keeps_schema (st : State) :
  schema_ok (db st) →
  (∀ url max_depth crawl_id depth visited r v st',
     crawl env url max_depth crawl_id depth visited st = Some (r, v, st') →
     schema_ok (db st'))
  ∧ (∀ url depth r st', main env url depth st = Some (r, st') → schema_ok (db st')).
Proof.
  intros Hok. split.
  - intros url max_depth crawl_id depth visited r v st' H. unfold crawl in H.
    refine (crawl_fuel_keeps env schema_ok _ _ _ _ _ _ _ _ _ _ _ _ _ H Hok).
    + intros. by apply schema_ok_save_page.
    + intros. by apply schema_ok_get_or_create_topic.
    + intros. by apply schema_ok_link_page_topic.
  - intros url depth r st' H.
    refine (main_keeps env schema_ok _ _ _ _ _ _ _ _ _ _ H Hok).
    + intros. by apply schema_ok_save_page.
    + intros. by apply schema_ok_get_or_create_topic.
    + intros. by apply schema_ok_link_page_topic.
    + intros. by apply schema_ok_create_crawl.
    + intros. by apply schema_ok_finish_crawl.
Qed.

(** X8: a call of crawl returns, and all it has done to the store is append
    rows to pages, topics and page_topics: no row is removed or rewritten,
    and the crawls table and its counter are untouched. *)
Theorem crawl_only_appends (url : string) (max_depth : Z) (crawl_id : nat) (depth : Z)
    (visited : option (gset string)) (st : State) :
  ∃ r v st',
    crawl env url max_depth crawl_id depth visited st = Some (r, v, st')
    ∧ db_grows (db st) (db st').
Proof.
  unfold crawl.
  destruct (crawl_fuel_total env max_depth crawl_id (S (Z.to_nat (max_depth - depth)))
              url depth (match visited with Some v => v | None => ∅ end) st)
    as [[[r v'] st'] E]; [lia|].
  exists r, v', st'. split; [exact E|].
  refine (crawl_fuel_keeps env (db_grows (db st)) _ _ _ _ _ _ _ _ _ _ _ _ _ E
            (db_grows_refl _)).
  - intros. eapply db_grows_trans; [eassumption|apply db_grows_save_page].
  - intros. eapply db_grows_trans; [eassumption|apply db_grows_get_or_create_topic].
  - intros. eapply db_grows_trans; [eassumption|apply db_grows_link_page_topic].
Qed.

End StoreTheorems.

(** The run of main on example.edu in the sample world, from the empty store. *)
Lemma process_keeps_schema_witness :
  ∃ r st', main Sample.env "example.edu" 1 Sample.initial_state = Some (r, st')
           ∧ schema_ok (db st').
Proof.
  destruct (main Sample.env "example.edu" 1 Sample.initial_state) as [[r st']|] eqn:E.
  - exists r, st'. split; [reflexivity|].
    exact (proj2 (process_keeps_schema Sample.env Sample.initial_state schema_ok_empty)
             "example.edu" 1 r st' E).
  - assert (H : observe_run (main Sample.env "example.edu" 1 Sample.initial_state) ≠ None)
      by (vm_compute; discriminate).
    rewrite E in H. by destruct H.
Defined.

(** ** Properties of every fetch and of every saved row *)

Section FetchInvariant.

Variable env : Env.
Variable max_depth : Z.
Variable crawl_id : nat.

(** [A] holds of the argument of every call of crawl, [I] of the state at
    every call; [Qf] is claimed of each fetch and [Qp] of each saved row, in
    the state where the node ends and in every later state. *)
Variable A : string → Prop.
Variable I : State → Prop.
Variable Qf : State → Z → string → Prop.
Variable Qp : State → Db.page_row → Prop.

Hypothesis A_link :
  ∀ link, should_skip_url (normalize_url link) = false →
          is_allowed_domain (normalize_url link) = true → A (normalize_url link).
Hypothesis I_evolves : ∀ s s' nf np, evolves s s' nf np → I s → I s'.
Hypothesis Qf_evolves : ∀ s s' nf np d u, evolves s s' nf np → Qf s d u → Qf s' d u.
Hypothesis Qp_evolves : ∀ s s' nf np p, evolves s s' nf np → Qp s p → Qp s' p.
Hypothesis node :
  ∀ x d s r s' nf np,
    A x → I s →
    crawl_page env (normalize_url x) crawl_id d s = (r, s') →
    evolves s s' nf np →
    (∀ d' u, (d', u) ∈ nf → Qf s' d' u) ∧ (∀ p, p ∈ np → Qp s' p).

Lemma evolves_unique (st st' : State) nf np nf' np' :
  evolves st st' nf np → evolves st st' nf' np' → nf = nf' ∧ np = np'.
Proof.
  intros [F _ P _ _ _] [F' _ P' _ _ _]. rewrite F in F'. rewrite P in P'.
  split; eapply app_inv_head; eauto.
Qed.

(** Two parts in sequence, each with the property at its end. *)
Lemma sat_seq (st s1 st' : State) nf1 np1 nf2 np2 nf np :
  evolves st s1 nf1 np1 → evolves s1 st' nf2 np2 → evolves st st' nf np →
  ((∀ d u, (d, u) ∈ nf1 → Qf s1 d u) ∧ (∀ p, p ∈ np1 → Qp s1 p)) →
  ((∀ d u, (d, u) ∈ nf2 → Qf st' d u) ∧ (∀ p, p ∈ np2 → Qp st' p)) →
  (∀ d u, (d, u) ∈ nf → Qf st' d u) ∧ (∀ p, p ∈ np → Qp st' p).
Proof.
  intros E1 E2 E [F1 P1] [F2 P2].
  destruct (evolves_unique _ _ _ _ _ _ E (evolves_trans _ _ _ _ _ _ _ E1 E2)) as [-> ->].
  split.
  - intros d u Hin. apply elem_of_app in Hin as [Hin|Hin].
    + exact (Qf_evolves _ _ _ _ _ _ E2 (F1 _ _ Hin)).
    + exact (F2 _ _ Hin).
  - intros p Hin. apply elem_of_app in Hin as [Hin|Hin].
    + exact (Qp_evolves _ _ _ _ _ E2 (P1 _ Hin)).
    + exact (P2 _ Hin).
Qed.

Lemma sat_nothing (st : State) nf np :
  evolves st st nf np →
  (∀ d u, (d, u) ∈ nf → Qf st d u) ∧ (∀ p, p ∈ np → Qp st p).
Proof.
  intros E. destruct (evolves_unique _ _ _ _ _ _ E (evolves_refl st)) as [-> ->].
  split; intros; by match goal with H : _ ∈ [] |- _ => apply elem_of_nil in H end.
Qed.

Lemma crawl_links_sat (fuel : nat) (depth : Z) :
  (∀ x v st r v' st' nf np,
     A x → I st →
     crawl_fuel env fuel x max_depth crawl_id depth v st = Some (r, v', st') →
     evolves st st' nf np →
     (∀ d u, (d, u) ∈ nf → Qf st' d u) ∧ (∀ p, p ∈ np → Qp st' p)) →
  ∀ links n0 v st r v' st' nf np,
    I st →
    crawl_links (fun link => crawl_fuel env fuel link max_depth crawl_id depth)
                links n0 v st = Some (r, v', st') →
    evolves st st' nf np →
    (∀ d u, (d, u) ∈ nf → Qf st' d u) ∧ (∀ p, p ∈ np → Qp st' p).
Proof.
  intros IH links. induction links as [|link links IHl];
    intros n0 v st r v' st' nf np HI; cbn [crawl_links].
  - intros [= <- <- <-]. apply sat_nothing.
  - destruct (bool_decide _); [by apply IHl|].
    destruct (should_skip_url _) eqn:Hskip; [by apply IHl|].
    destruct (is_allowed_domain _) eqn:Hallowed; cbn [negb]; [|by apply IHl].
    destruct (crawl_fuel env fuel (normalize_url link) max_depth crawl_id depth v st)
      as [[[r1 v1] s1]|] eqn:E; [|discriminate].
    pose proof (crawl_fuel_post _ _ _ _ _ _ _ _ _ E) as (nf1 & np1 & E1 & _).
    pose proof (IH _ _ _ _ _ _ _ _ (A_link _ Hskip Hallowed) HI E E1) as Sat1.
    destruct r1 as [n|e].
    + intros H Ev.
      pose proof (crawl_links_post max_depth crawl_id depth _
                    (fun link v st res => crawl_fuel_post env max_depth crawl_id fuel
                                            link depth v st res)
                    _ _ _ _ _ H) as (nf2 & np2 & E2 & _).
      refine (sat_seq st s1 st' _ _ _ _ _ _ E1 E2 Ev Sat1 _).
      exact (IHl _ _ _ _ _ _ _ _ (I_evolves _ _ _ _ E1 HI) H E2).
    + intros [= <- <- <-] Ev.
      destruct (evolves_unique _ _ _ _ _ _ Ev E1) as [-> ->]. exact Sat1.
Qed.

Lemma crawl_fuel_sat (fuel : nat) :
  ∀ x depth v st r v' st' nf np,
    A x → I st →
    crawl_fuel env fuel x max_depth crawl_id depth v st = Some (r, v', st') →
    evolves st st' nf np →
    (∀ d u, (d, u) ∈ nf → Qf st' d u) ∧ (∀ p, p ∈ np → Qp st' p).
Proof.
  induction fuel as [|fuel IH]; intros x depth v st r v' st' nf np HA HI;
    cbn [crawl_fuel]; [discriminate|].
  destruct (bool_decide _ || _).
  { intros [= <- <- <-]. apply sat_nothing. }
  destruct (crawl_page env (normalize_url x) crawl_id depth st) as [r0 s1] eqn:E.
  pose proof (crawl_page_effect _ _ _ _ _ _ _ E) as (nf0 & np0 & E0 & _).
  pose proof (node _ _ _ _ _ _ _ HA HI E E0) as Sat0.
  assert (Hstop : ∀ r1, Some (r1, v ∪ {[normalize_url x]}, s1) = Some (r, v', st') →
            evolves st st' nf np →
            (∀ d u, (d, u) ∈ nf → Qf st' d u) ∧ (∀ p, p ∈ np → Qp st' p)).
  { intros r1 [= <- <- <-] Ev.
    destruct (evolves_unique _ _ _ _ _ _ Ev E0) as [-> ->]. exact Sat0. }
  destruct r0 as [[links|]|e]; [|apply Hstop..].
  destruct (depth <? max_depth); [|apply Hstop].
  intros H Ev.
  pose proof (crawl_links_post max_depth crawl_id (depth + 1) _
                (fun link v st res => crawl_fuel_post env max_depth crawl_id fuel
                                        link (depth + 1) v st res)
                _ _ _ _ _ H) as (nf2 & np2 & E2 & _).
  refine (sat_seq st s1 st' _ _ _ _ _ _ E0 E2 Ev Sat0 _).
  refine (crawl_links_sat fuel (depth + 1) _ _ _ _ _ _ _ _ _ _ _ H E2).
  - intros x0 v0 st0 r1 v1 st1 nf1 np1. apply IH.
  - exact (I_evolves _ _ _ _ E0 HI).
Qed.

End FetchInvariant.

Section NodeDetail.

Variable env : Env.

Lemma page_exists_false (url : string) (st s1 : State) :
  page_exists env url st = (Ok false, s1) → Db.page_exists url (db st) = false.
Proof.
  unfold page_exists, db_call. destruct (db_fault env (tick st)); [discriminate|].
  by intros [= -> _].
Qed.

Lemma check_robots_true (url : string) (st st' : State) :
  check_robots env url st = (Ok true, st') →
  ∃ rp, _robots_cache st' !! netloc (urlparse url) = Some rp
        ∧ can_fetch rp USER_AGENT url = true.
Proof.
  unfold check_robots.
  destruct (_robots_cache st !! netloc (urlparse url)) as [rp|] eqn:E.
  { intros [= Hc <-]. by exists rp. }
  destruct (read _ _ _) as [[[]|[|what]] rp]; [|discriminate|];
    intros [= Hc <-]; exists rp; (split; [apply lookup_insert_eq|exact Hc]).
Qed.

Lemma save_page_row (url title description domain : string) (depth : Z)
    (crawl_id page_id : nat) (st st' : State) :
  save_page env url title description domain depth crawl_id st = (Ok (Some page_id), st') →
  Db.pages (db st')
  = (Db.pages (db st) ++ [Db.mkPage page_id url title description domain depth crawl_id])%list.
Proof.
  unfold save_page, db_call. destruct (db_fault env (tick st)); [discriminate|].
  destruct (Db.save_page _ _ _ _ _ _ _) as [o d'] eqn:E. intros [= -> <-].
  apply save_page_then_exists in E. simpl. apply E.
Qed.

(** What one node has done when fetch_and_save ends: nothing, or one fetch of
    a URL that the store did not hold and that the cached robots parser of
    its netloc permits, followed by at most one row, built from the page. *)
Lemma fetch_and_save_detail (url : string) (crawl_id : nat) (depth : Z)
    (st st' : State) r nf np :
  fetch_and_save env url crawl_id depth st = (r, st') →
  evolves st st' nf np →
  nf = [] ∧ np = []
  ∨ nf = [(depth, url)]
    ∧ (∃ rp, _robots_cache st' !! netloc (urlparse url) = Some rp
             ∧ can_fetch rp USER_AGENT url = true)
    ∧ Db.page_exists url (db st) = false
    ∧ (np = []
       ∨ ∃ page_id page,
           r = Ok (Some (page_id, page))
           ∧ np = [Db.mkPage page_id url (pg_title page) (pg_description page)
                     (lower (netloc (urlparse url))) depth crawl_id]).
Proof.
  intros H Ev.
  assert (Hquiet : evolves st st' [] [] → nf = [] ∧ np = []).
  { intros Q. exact (evolves_unique _ _ _ _ _ _ Ev Q). }
  unfold fetch_and_save in H.
  apply bind_inv in H as [(e & H & ->)|(present & s1 & H1 & H)].
  { left. apply Hquiet. by apply page_exists_quiet in H. }
  pose proof (page_exists_quiet _ _ _ _ _ H1) as Q1.
  destruct present.
  { injection H as <- <-. left. by apply Hquiet. }
  apply page_exists_false in H1.
  apply bind_inv in H as [(e & H & ->)|(allowed & s2 & H2 & H)].
  { left. apply Hquiet. apply check_robots_quiet in H. eapply evolves_quiet_l; eauto. }
  pose proof (evolves_quiet_l _ _ _ _ _ Q1 (check_robots_quiet _ _ _ _ _ H2)) as Q2.
  destruct allowed; cbn [negb] in H.
  2:{ left. apply Hquiet.
      apply bind_inv in H as [(e & H & ->)|([] & s3 & H3 & H)]; [discriminate H|].
      apply emit_blocked_quiet in H3. injection H as <- <-.
      eapply evolves_quiet_l; eauto. }
  apply check_robots_true in H2 as (rp & Hrp & Hcan).
  apply bind_inv in H as [(e & H & ->)|([] & s3 & H3 & H)].
  { left. apply Hquiet. apply rate_limit_quiet in H. eapply evolves_quiet_l; eauto. }
  pose proof (rate_limit_quiet _ _ _ _ H3) as Q3.
  apply bind_inv in H as [(e & H & ->)|([] & s4 & H4 & H)]; [discriminate H|].
  pose proof (emit_fetching _ _ _ _ _ H4) as Q4.
  assert (Hlater : ∀ s nf' np', evolves s4 s nf' np' →
            nf' = [] →
            evolves st s [(depth, url)] np'
            ∧ ∃ rp, _robots_cache s !! netloc (urlparse url) = Some rp
                    ∧ can_fetch rp USER_AGENT url = true).
  { intros s nf' np' E ->. split.
    - pose proof (evolves_trans _ _ _ _ _ _ _ (evolves_quiet_l _ _ _ _ _ Q2
                    (evolves_quiet_l _ _ _ _ _ Q3 Q4)) E) as T. exact T.
    - exists rp. split; [|exact Hcan].
      apply (ev_cache _ _ _ _ E), (ev_cache _ _ _ _ Q4), (ev_cache _ _ _ _ Q3), Hrp. }
  right.
  assert (Hend : ∀ np', evolves s4 st' [] np' →
            (np' = [] ∨ ∃ page_id page,
                 r = Ok (Some (page_id, page))
                 ∧ np' = [Db.mkPage page_id url (pg_title page) (pg_description page)
                            (lower (netloc (urlparse url))) depth crawl_id]) →
            nf = [(depth, url)]
            ∧ (∃ rp, _robots_cache st' !! netloc (urlparse url) = Some rp
                     ∧ can_fetch rp USER_AGENT url = true)
            ∧ Db.page_exists url (db st) = false
            ∧ (np = [] ∨ ∃ page_id page,
                 r = Ok (Some (page_id, page))
                 ∧ np = [Db.mkPage page_id url (pg_title page) (pg_description page)
                           (lower (netloc (urlparse url))) depth crawl_id])).
  { intros np' E Hnp. destruct (Hlater _ _ _ E eq_refl) as [T Hc].
    destruct (evolves_unique _ _ _ _ _ _ Ev T) as [-> ->]. auto. }
  apply bind_inv in H as [(e & H & ->)|(fetched & s5 & H5 & H)].
  { apply try_fetch_quiet in H. apply (Hend [] H). by left. }
  pose proof (try_fetch_quiet _ _ _ _ _ H5) as Q5.
  destruct fetched as [[page|]|].
  2,3: injection H as <- <-; apply (Hend [] Q5); by left.
  apply bind_inv in H as [(e & H & ->)|(page_id & s6 & H6 & H)].
  { apply save_page_effect in H as (np' & E & _ & ->).
    apply (Hend [] (evolves_quiet_l _ _ _ _ _ Q5 E)). by left. }
  pose proof (save_page_effect _ _ _ _ _ _ _ _ _ _ H6) as (np' & E & _ & Hnp').
  destruct page_id as [page_id|]; injection H as <- <-.
  - apply save_page_row in H6.
    assert (np' = [Db.mkPage page_id url (pg_title page) (pg_description page)
                     (lower (netloc (urlparse url))) depth crawl_id]) as ->.
    { destruct E as [_ _ P _ _ _]. rewrite H6 in P. by apply app_inv_head in P. }
    apply (Hend _ (evolves_quiet_l _ _ _ _ _ Q5 E)). right. by eexists _, _.
  - subst np'. apply (Hend [] (evolves_quiet_l _ _ _ _ _ Q5 E)). by left.
Qed.

(** The same for crawl_page: storing the topics fetches nothing, saves no
    page and keeps the robots cache. *)
Lemma crawl_page_detail (url : string) (crawl_id : nat) (depth : Z)
    (st st' : State) r nf np :
  crawl_page env url crawl_id depth st = (r, st') →
  evolves st st' nf np →
  nf = [] ∧ np = []
  ∨ nf = [(depth, url)]
    ∧ (∃ rp, _robots_cache st' !! netloc (urlparse url) = Some rp
             ∧ can_fetch rp USER_AGENT url = true)
    ∧ Db.page_exists url (db st) = false
    ∧ (np = []
       ∨ ∃ page_id page,
           np = [Db.mkPage page_id url (pg_title page) (pg_description page)
                   (lower (netloc (urlparse url))) depth crawl_id]).
Proof.
  unfold crawl_page. intros H Ev.
  assert (Hgo : ∀ s1 r1, fetch_and_save env url crawl_id depth st = (r1, s1) →
            evolves s1 st' [] [] →
            nf = [] ∧ np = []
            ∨ nf = [(depth, url)]
              ∧ (∃ rp, _robots_cache st' !! netloc (urlparse url) = Some rp
                       ∧ can_fetch rp USER_AGENT url = true)
              ∧ Db.page_exists url (db st) = false
              ∧ (np = [] ∨ ∃ page_id page,
                   np = [Db.mkPage page_id url (pg_title page) (pg_description page)
                           (lower (netloc (urlparse url))) depth crawl_id])).
  { intros s1 r1 H1 Q.
    pose proof (fetch_and_save_effect _ _ _ _ _ _ _ H1) as (nf1 & np1 & E1 & _).
    destruct (evolves_unique _ _ _ _ _ _ Ev (evolves_quiet_r _ _ _ _ _ E1 Q)) as [-> ->].
    destruct (fetch_and_save_detail _ _ _ _ _ _ _ _ H1 E1)
      as [?|(Hnf & (rp & Hrp & Hcan) & Hex & Hnp)]; [by left|].
    right. split; [exact Hnf|]. split.
    { exists rp. split; [|exact Hcan]. by apply (ev_cache _ _ _ _ Q). }
    split; [exact Hex|].
    destruct Hnp as [?|(page_id & page & _ & ?)]; [by left|].
    right. by exists page_id, page. }
  apply bind_inv in H as [(e & H & ->)|(saved & s1 & H1 & H)].
  { apply (Hgo _ _ H), evolves_refl. }
  destruct saved as [[page_id page]|].
  2:{ injection H as <- <-. apply (Hgo _ _ H1), evolves_refl. }
  apply bind_inv in H as [(e & H & ->)|([] & s2 & H2 & H)].
  { apply (Hgo _ _ H1). by apply link_topics_quiet in H. }
  injection H as <- <-. apply (Hgo _ _ H1). by apply link_topics_quiet in H2.
Qed.

End NodeDetail.

Section FetchTheorems.

Variable env : Env.

Lemma elem_of_drop_app {A} (n : nat) (l m : list A) (x : A) :
  x ∈ skipn n l → x ∈ skipn n (l ++ m)%list.
Proof. intros H. rewrite drop_app. apply elem_of_app. by left. Qed.

(** Every fetch of a call is permitted by robots.txt and new to the store;
    every row saved by a call was fetched by it. *)
Lemma crawl_fuel_fetch_facts (fuel : nat) (url : string) (max_depth : Z) (crawl_id : nat)
    (depth : Z) (v : gset string) (st : State) r v' st' nf np :
  crawl_fuel env fuel url max_depth crawl_id depth v st = Some (r, v', st') →
  evolves st st' nf np →
  (∀ d u, (d, u) ∈ nf →
     (∃ rp, _robots_cache st' !! netloc (urlparse u) = Some rp
            ∧ can_fetch rp USER_AGENT u = true)
     ∧ Db.page_exists u (db st) = false)
  ∧ (∀ p, p ∈ np →
       (Db.p_crawl_depth p, Db.p_url p) ∈ nf
       ∧ Db.p_domain p = lower (netloc (urlparse (Db.p_url p)))).
Proof.
  intros H Ev.
  set (n0 := length (fetches (trace st))).
  pose (I := fun s : State =>
               extends (Db.pages (db st)) (Db.pages (db s))
               ∧ (n0 <= length (fetches (trace s)))%nat).
  pose (Qf := fun (s : State) (d : Z) (u : string) =>
                (∃ rp, _robots_cache s !! netloc (urlparse u) = Some rp
                       ∧ can_fetch rp USER_AGENT u = true)
                ∧ Db.page_exists u (db st) = false).
  pose (Qp := fun (s : State) (p : Db.page_row) =>
                (Db.p_crawl_depth p, Db.p_url p) ∈ skipn n0 (fetches (trace s))
                ∧ Db.p_domain p = lower (netloc (urlparse (Db.p_url p)))).
  assert (Hsat : (∀ d u, (d, u) ∈ nf → Qf st' d u) ∧ (∀ p, p ∈ np → Qp st' p)).
  { refine (crawl_fuel_sat env max_depth crawl_id (fun _ => True) I Qf Qp
              _ _ _ _ _ fuel url depth v st r v' st' nf np Logic.I _ H Ev).
    - done.
    - intros s s' nf1 np1 E [Hp Hn]. split.
      + eapply extends_trans; [exact Hp|]. exists np1. apply E.
      + rewrite (ev_fetches _ _ _ _ E), length_app. lia.
    - intros s s' nf1 np1 d u E [(rp & Hrp & Hcan) Hex]. split; [|exact Hex].
      exists rp. split; [|exact Hcan]. by apply (ev_cache _ _ _ _ E).
    - intros s s' nf1 np1 p E [Hin Hdom]. split; [|exact Hdom].
      rewrite (ev_fetches _ _ _ _ E). by apply elem_of_drop_app.
    - intros x d s r0 s' nf1 np1 _ [[more Hp] Hn] Hpage E.
      destruct (crawl_page_detail _ _ _ _ _ _ _ _ _ Hpage E)
        as [[-> ->]|(-> & Hrobots & Hex & Hnp)].
      { split; intros; by match goal with H : _ ∈ [] |- _ => apply elem_of_nil in H end. }
      split.
      + intros d' u Hin. apply list_elem_of_singleton in Hin. injection Hin as -> ->.
        split; [exact Hrobots|].
        unfold Db.page_exists in Hex |- *. rewrite Hp, existsb_app in Hex.
        by apply orb_false_iff in Hex as [Hex _].
      + intros p Hin. destruct Hnp as [->|(page_id & page & ->)];
          [by apply elem_of_nil in Hin|].
        apply list_elem_of_singleton in Hin. subst p. unfold Qp.
        cbn [Db.p_crawl_depth Db.p_url Db.p_domain]. split; [|reflexivity].
        rewrite (ev_fetches _ _ _ _ E), drop_app.
        apply elem_of_app. right.
        replace (n0 - length (fetches (trace s)))%nat with 0%nat by lia.
        simpl. by apply list_elem_of_singleton.
    - split; [apply extends_refl|done]. }
  destruct Hsat as [Hf Hp]. split; [exact Hf|].
  intros p Hin. destruct (Hp p Hin) as [Hd Hdom]. split; [|exact Hdom].
  rewrite (ev_fetches _ _ _ _ Ev) in Hd. unfold n0 in Hd.
  by rewrite drop_app_length in Hd.
Qed.

(** X9: a call of crawl returns, and every URL it has fetched is one that the
    robots parser cached under the netloc of that URL permits for the
    crawler's user agent: a URL refused by check_robots is never fetched. *)
Theorem crawl_fetches_only_permitted (url : string) (max_depth : Z) (crawl_id : nat)
    (depth : Z) (visited : option (gset string)) (st : State) :
  ∃ r v st' nf,
    crawl env url max_depth crawl_id depth visited st = Some (r, v, st')
    ∧ fetches (trace st') = (fetches (trace st) ++ nf)%list
    ∧ ∀ d u, (d, u) ∈ nf →
        ∃ rp, _robots_cache st' !! netloc (urlparse u) = Some rp
              ∧ can_fetch rp USER_AGENT u = true.
Proof.
  unfold crawl.
  destruct (crawl_fuel_total env max_depth crawl_id (S (Z.to_nat (max_depth - depth)))
              url depth (match visited with Some v => v | None => ∅ end) st)
    as [[[r v'] st'] E]; [lia|].
  pose proof (crawl_fuel_post _ _ _ _ _ _ _ _ _ E) as (nf & np & Ev & _).
  exists r, v', st', nf. split; [exact E|]. split; [apply Ev|].
  intros d u Hin.
  exact (proj1 (proj1 (crawl_fuel_fetch_facts _ _ _ _ _ _ _ _ _ _ _ _ E Ev) d u Hin)).
Qed.

(** X10: a call of crawl returns, and no URL it has fetched was in the store
    when the call began: a URL saved by an earlier run, or earlier in this
    one, is not fetched again. *)
Theorem crawl_never_fetches_stored_url (url : string) (max_depth : Z) (crawl_id : nat)
    (depth : Z) (visited : option (gset string)) (st : State) :
  ∃ r v st' nf,
    crawl env url max_depth crawl_id depth visited st = Some (r, v, st')
    ∧ fetches (trace st') = (fetches (trace st) ++ nf)%list
    ∧ ∀ d u, (d, u) ∈ nf → u ∉ Db.p_url <$> Db.pages (db st).
Proof.
  unfold crawl.
  destruct (crawl_fuel_total env max_depth crawl_id (S (Z.to_nat (max_depth - depth)))
              url depth (match visited with Some v => v | None => ∅ end) st)
    as [[[r v'] st'] E]; [lia|].
  pose proof (crawl_fuel_post _ _ _ _ _ _ _ _ _ E) as (nf & np & Ev & _).
  exists r, v', st', nf. split; [exact E|]. split; [apply Ev|].
  intros d u Hin Hstored. apply page_exists_iff in Hstored.
  destruct (proj1 (crawl_fuel_fetch_facts _ _ _ _ _ _ _ _ _ _ _ _ E Ev) d u Hin) as [_ Hex].
  congruence.
Qed.

(** X11: a call of crawl returns, and every page row it has added was fetched
    by this call: the row carries the URL and the depth of one of the
    call's fetches, a depth between the depth of the call and max_depth, the
    lower-cased netloc of its URL as domain, and the job id of the call. *)
Theorem crawl_saves_only_fetched_pages (url : string) (max_depth : Z) (crawl_id : nat)
    (depth : Z) (visited : option (gset string)) (st : State) :
  ∃ r v st' nf np,
    crawl env url max_depth crawl_id depth visited st = Some (r, v, st')
    ∧ fetches (trace st') = (fetches (trace st) ++ nf)%list
    ∧ Db.pages (db st') = (Db.pages (db st) ++ np)%list
    ∧ ∀ p, p ∈ np →
        (Db.p_crawl_depth p, Db.p_url p) ∈ nf
        ∧ depth <= Db.p_crawl_depth p <= max_depth
        ∧ Db.p_domain p = lower (netloc (urlparse (Db.p_url p)))
        ∧ Db.p_crawl_id p = crawl_id.
Proof.
  unfold crawl.
  destruct (crawl_fuel_total env max_depth crawl_id (S (Z.to_nat (max_depth - depth)))
              url depth (match visited with Some v => v | None => ∅ end) st)
    as [[[r v'] st'] E]; [lia|].
  pose proof (crawl_fuel_post _ _ _ _ _ _ _ _ _ E) as (nf & np & Ev & _ & _ & Hf & Hid & _).
  exists r, v', st', nf, np. split; [exact E|]. split; [apply Ev|]. split; [apply Ev|].
  intros p Hin.
  destruct (proj2 (crawl_fuel_fetch_facts _ _ _ _ _ _ _ _ _ _ _ _ E Ev) p Hin) as [Hd Hdom].
  destruct (Hf _ _ Hd) as [Hb _]. auto.
Qed.

End FetchTheorems.

(** ** rate_limit *)


(** ** Strings: find, slices and concatenation *)

Section StringFacts.

Lemma app_cons (c : ascii) (a b : string) : String c a +:+ b = String c (a +:+ b).
Proof. reflexivity. Qed.

Lemma len_app (a b : string) : String.length (a +:+ b) = (String.length a + String.length b)%nat.
Proof. induction a as [|c a IH]; simpl; [reflexivity|]. by rewrite IH. Qed.

Lemma take_app_length (a b : string) : take (String.length a) (a +:+ b) = a.
Proof. induction a as [|c a IH]; simpl; [by destruct b|]. by rewrite IH. Qed.

Lemma drop_app_len (a b : string) : drop (String.length a) (a +:+ b) = b.
Proof. induction a as [|c a IH]; simpl; [reflexivity|exact IH]. Qed.

Lemma take_all (s : string) (n : nat) : (String.length s <= n)%nat → take n s = s.
Proof.
  revert n; induction s as [|c s IH]; intros [|n] H; simpl in *; try reflexivity; try lia.
  rewrite IH; [reflexivity|lia].
Qed.

Lemma take_drop (n : nat) (s : string) : take n s +:+ drop n s = s.
Proof.
  revert s; induction n as [|n IH]; intros [|c s]; simpl; try reflexivity.
  change (String c (take n s +:+ drop n s) = String c s). by rewrite IH.
Qed.

Lemma length_take (n : nat) (s : string) :
  (n <= String.length s)%nat → String.length (take n s) = n.
Proof.
  revert s; induction n as [|n IH]; intros [|c s] H; simpl in *; try reflexivity; try lia.
  rewrite IH; [reflexivity|lia].
Qed.

Lemma app_assoc_s (a b c : string) : (a +:+ b) +:+ c = a +:+ (b +:+ c).
Proof. induction a as [|x a IH]; [reflexivity|]. by rewrite !app_cons, IH. Qed.

Lemma app_nil_r_s (a : string) : a +:+ "" = a.
Proof. induction a as [|x a IH]; [reflexivity|]. by rewrite app_cons, IH. Qed.

Lemma all_c_app (p : ascii → bool) (a b : string) :
  all_c p (a +:+ b) = all_c p a && all_c p b.
Proof.
  induction a as [|c a IH]; simpl; [reflexivity|]. rewrite IH. apply andb_assoc.
Qed.

Lemma all_c_take (p : ascii → bool) (n : nat) (s : string) :
  all_c p s = true → all_c p (take n s) = true.
Proof.
  revert s; induction n as [|n IH]; intros [|c s]; simpl; try reflexivity.
  intros H. apply andb_true_iff in H as [H1 H2]. rewrite H1. simpl. by apply IH.
Qed.

Lemma all_c_drop (p : ascii → bool) (n : nat) (s : string) :
  all_c p s = true → all_c p (drop n s) = true.
Proof.
  revert s; induction n as [|n IH]; intros [|c s]; simpl; try done.
  intros H. apply andb_true_iff in H as [H1 H2]. by apply IH.
Qed.

Lemma all_c_impl (p q : ascii → bool) (s : string) :
  (∀ c, p c = true → q c = true) → all_c p s = true → all_c q s = true.
Proof.
  intros Hpq. induction s as [|c s IH]; simpl; [reflexivity|].
  intros H. apply andb_true_iff in H as [H1 H2]. rewrite (Hpq _ H1). simpl. by apply IH.
Qed.

Lemma all_c_lower (p : ascii → bool) (s : string) :
  (∀ c, p c = true → p (lower_c c) = true) → all_c p s = true → all_c p (lower s) = true.
Proof.
  intros Hp. induction s as [|c s IH]; simpl; [reflexivity|].
  intros H. apply andb_true_iff in H as [H1 H2]. rewrite (Hp _ H1). simpl. by apply IH.
Qed.

Lemma all_c_rstrip (p : ascii → bool) (s chars : string) :
  all_c p s = true → all_c p (rstrip s chars) = true.
Proof.
  induction s as [|c s IH]; simpl; [reflexivity|].
  intros H. apply andb_true_iff in H as [H1 H2]. specialize (IH H2).
  destruct (rstrip s chars) as [|c' r] eqn:E.
  - destruct (mem_c c chars); simpl; [reflexivity|]. by rewrite H1.
  - cbn [all_c]. rewrite H1. exact IH.
Qed.

Lemma lower_c_idem (c : ascii) : lower_c (lower_c c) = lower_c c.
Proof. destruct c as [[] [] [] [] [] [] [] []]; reflexivity. Qed.

Lemma lower_idem (s : string) : lower (lower s) = lower s.
Proof. induction s as [|c s IH]; simpl; [reflexivity|]. by rewrite lower_c_idem, IH. Qed.

Lemma lower_app (a b : string) : lower (a +:+ b) = lower a +:+ lower b.
Proof.
  induction a as [|c a IH]; [reflexivity|].
  rewrite app_cons. cbn [lower]. by rewrite app_cons, IH.
Qed.

Lemma lower_take (n : nat) (s : string) : lower (take n s) = take n (lower s).
Proof. revert s; induction n as [|n IH]; intros [|c s]; simpl; auto. by rewrite IH. Qed.

(** find *)

Lemma find0_range (c : ascii) (s : string) :
  find0 c s = -1 ∨ 0 <= find0 c s < len s.
Proof.
  unfold len. induction s as [|a s IH]; simpl; [by left|].
  destruct (Ascii.eqb a c); [right; lia|].
  destruct IH as [->|IH]; [by left|].
  destruct (find0 c s <? 0) eqn:E; [apply Z.ltb_lt in E; lia|]. right. lia.
Qed.

Lemma find0_none (c : ascii) (s : string) :
  find0 c s = -1 ↔ nochar c s = true.
Proof.
  unfold nochar. induction s as [|a s IH]; simpl; [done|].
  destruct (Ascii.eqb a c); simpl; [split; [lia|discriminate]|].
  rewrite <- IH. destruct (find0_range c s) as [->|H]; [done|].
  destruct (find0 c s <? 0) eqn:E; [apply Z.ltb_lt in E; lia|]. split; lia.
Qed.

Lemma contains_false (s : string) (c : ascii) : contains s c = false ↔ nochar c s = true.
Proof.
  unfold contains, find. rewrite <- find0_none, Z.leb_gt.
  destruct (find0_range c s); lia.
Qed.

Lemma find0_app_nochar (c : ascii) (a b : string) :
  nochar c a = true →
  find0 c (a +:+ b) = if find0 c b <? 0 then -1 else len a + find0 c b.
Proof.
  unfold nochar, len. induction a as [|x a IH].
  - intros _. change ("" +:+ b) with b. simpl.
    destruct (find0 c b <? 0) eqn:E; [|reflexivity].
    apply Z.ltb_lt in E. destruct (find0_range c b); lia.
  - cbn [all_c]. intros H. apply andb_true_iff in H as [H1 H2]. apply negb_true_iff in H1.
    rewrite app_cons. cbn [find0]. rewrite H1, (IH H2).
    destruct (find0 c b <? 0) eqn:E; [reflexivity|].
    apply Z.ltb_ge in E.
    destruct (_ <? 0) eqn:E'; [apply Z.ltb_lt in E'; lia|].
    cbn [String.length]. lia.
Qed.

Lemma find0_head (c : ascii) (s : string) : find0 c (String c s) = 0.
Proof. simpl. by rewrite Ascii.eqb_refl. Qed.

Lemma find0_split (c : ascii) (s : string) :
  0 <= find0 c s →
  ∃ a b, s = a +:+ String c b ∧ nochar c a = true ∧ find0 c s = len a.
Proof.
  unfold nochar, len. induction s as [|x s IH]; simpl; [lia|].
  destruct (Ascii.eqb x c) eqn:E.
  - intros _. apply Ascii.eqb_eq in E. subst x. by exists "", s.
  - destruct (find0 c s <? 0) eqn:E'; [lia|]. apply Z.ltb_ge in E'. intros _.
    destruct (IH E') as (a & b & -> & Ha & Hf). exists (String x a), b.
    simpl. rewrite E, Ha, Hf. split; [reflexivity|]. split; [reflexivity|]. lia.
Qed.

(** slices *)

Lemma clip_nat (s : string) (n : nat) :
  (n <= String.length s)%nat → clip s (Z.of_nat n) = n.
Proof.
  intros H. unfold clip, len.
  destruct (Z.of_nat n <? 0) eqn:E; [apply Z.ltb_lt in E; lia|]. lia.
Qed.

Lemma slice_to_app (a b : string) : slice_to (a +:+ b) (len a) = a.
Proof.
  unfold slice_to, len. rewrite clip_nat by (rewrite len_app; lia). apply take_app_length.
Qed.

Lemma slice_from_app (a b : string) : slice_from (a +:+ b) (len a) = b.
Proof.
  unfold slice_from, len. rewrite clip_nat by (rewrite len_app; lia). apply drop_app_len.
Qed.

Lemma slice_from_app_1 (a b : string) (c : ascii) :
  slice_from (a +:+ String c b) (len a + 1) = b.
Proof.
  replace (a +:+ String c b) with ((a +:+ String c "") +:+ b)
    by (by rewrite app_assoc_s).
  replace (len a + 1) with (len (a +:+ String c ""))
    by (unfold len; rewrite len_app; simpl; lia).
  apply slice_from_app.
Qed.

Lemma split1_app (a b : string) (c : ascii) :
  nochar c a = true → split1 (a +:+ String c b) c = (a, b).
Proof.
  intros H. unfold split1, find. rewrite (find0_app_nochar _ _ _ H), find0_head.
  simpl. rewrite Z.add_0_r. by rewrite slice_to_app, slice_from_app_1.
Qed.

Lemma contains_app_head (a b : string) (c : ascii) :
  contains (a +:+ String c b) c = true.
Proof.
  unfold contains, find.
  destruct (find0_range c (a +:+ String c b)) as [H|H]; [|apply Z.leb_le; lia].
  apply find0_none in H. unfold nochar in H. rewrite all_c_app in H. simpl in H.
  rewrite Ascii.eqb_refl in H. simpl in H. by rewrite andb_false_r in H.
Qed.

End StringFacts.

(** ** urllib.parse: the shape of the components *)

Section UrlFacts.

Ltac by_char c := destruct c as [[] [] [] [] [] [] [] []]; vm_compute; auto.

Lemma scheme_char_lower (c : ascii) :
  mem_c c scheme_chars = true → mem_c (lower_c c) scheme_chars = true.
Proof. by_char c. Qed.

Lemma scheme_char_plain (c : ascii) :
  mem_c c scheme_chars = true →
  negb (Ascii.eqb c ":") && negb (Ascii.eqb c "/") && negb (Ascii.eqb c "?")
  && negb (Ascii.eqb c "#") && negb (Ascii.eqb c ";")
  && negb (existsb (Ascii.eqb c) _UNSAFE_URL_BYTES_TO_REMOVE) = true.
Proof. by_char c. Qed.

Lemma alpha_lower (c : ascii) :
  isascii_c c && isalpha_c c = true →
  isascii_c (lower_c c) && isalpha_c (lower_c c) = true
  ∧ mem_c c _WHATWG_C0_CONTROL_OR_SPACE = false
  ∧ mem_c (lower_c c) _WHATWG_C0_CONTROL_OR_SPACE = false.
Proof. by_char c. Qed.

Lemma lower_c_keeps (p c : ascii) :
  isupper_c p = false → islower_c p = false →
  Ascii.eqb (lower_c c) p = Ascii.eqb c p.
Proof.
  intros Hu Hl. unfold lower_c. destruct (isupper_c c) eqn:E; [|reflexivity].
  destruct (Ascii.eqb c p) eqn:E1.
  { apply Ascii.eqb_eq in E1. congruence. }
  destruct (Ascii.eqb (ascii_of_N (code c + 32)) p) eqn:E2; [|reflexivity].
  apply Ascii.eqb_eq in E2. subst p. exfalso. revert E Hl. clear.
  destruct c as [[] [] [] [] [] [] [] []]; vm_compute; intros; discriminate.
Qed.

Lemma nochar_lower (p : ascii) (s : string) :
  isupper_c p = false → islower_c p = false →
  nochar p (lower s) = nochar p s.
Proof.
  intros Hu Hl. unfold nochar. induction s as [|c s IH]; simpl; [reflexivity|].
  by rewrite (lower_c_keeps p c Hu Hl), IH.
Qed.

Lemma nochar_app (p : ascii) (a b : string) : nochar p (a +:+ b) = nochar p a && nochar p b.
Proof. apply all_c_app. Qed.

Lemma clean_app (a b : string) : clean (a +:+ b) = clean a && clean b.
Proof. apply all_c_app. Qed.

Lemma remove_c_nochar (c : ascii) (s : string) : nochar c s = true → remove_c c s = s.
Proof.
  unfold nochar. induction s as [|a s IH]; simpl; [reflexivity|].
  intros H. apply andb_true_iff in H as [H1 H2]. apply negb_true_iff in H1.
  by rewrite H1, IH.
Qed.

Lemma nochar_remove_c (c : ascii) (s : string) : nochar c (remove_c c s) = true.
Proof.
  unfold nochar. induction s as [|a s IH]; simpl; [reflexivity|].
  destruct (Ascii.eqb a c) eqn:E; [exact IH|]. simpl. by rewrite E.
Qed.

Lemma all_c_remove_c (p : ascii → bool) (c : ascii) (s : string) :
  all_c p s = true → all_c p (remove_c c s) = true.
Proof.
  induction s as [|a s IH]; simpl; [reflexivity|].
  intros H. apply andb_true_iff in H as [H1 H2].
  destruct (Ascii.eqb a c); [by apply IH|]. simpl. rewrite H1. by apply IH.
Qed.

Lemma clean_nochar (s : string) :
  clean s = nochar (ascii_of_nat 9) s && nochar (ascii_of_nat 13) s
            && nochar (ascii_of_nat 10) s.
Proof.
  unfold clean, nochar. induction s as [|a s IH]; [reflexivity|].
  cbn [all_c]. rewrite IH. cbn [existsb _UNSAFE_URL_BYTES_TO_REMOVE].
  destruct (Ascii.eqb a (ascii_of_nat 9)), (Ascii.eqb a (ascii_of_nat 13)),
    (Ascii.eqb a (ascii_of_nat 10)); simpl; rewrite ?andb_false_r; try reflexivity;
    destruct (all_c _ s), (all_c _ s), (all_c _ s); reflexivity.
Qed.

Lemma clean_lower (s : string) : clean (lower s) = clean s.
Proof. rewrite !clean_nochar, !nochar_lower by reflexivity. reflexivity. Qed.

(** What urlsplit does before it looks for the scheme leaves a clean string. *)
Lemma unsafe_removed (s : string) :
  clean (fold_left (fun u b => remove_c b u) _UNSAFE_URL_BYTES_TO_REMOVE s) = true.
Proof.
  rewrite clean_nochar. cbn [fold_left _UNSAFE_URL_BYTES_TO_REMOVE].
  rewrite nochar_remove_c, andb_true_r.
  unfold nochar. rewrite !all_c_remove_c; [reflexivity|..];
    try apply nochar_remove_c.
  apply all_c_remove_c, nochar_remove_c.
Qed.

Lemma unsafe_kept (s : string) :
  clean s = true →
  fold_left (fun u b => remove_c b u) _UNSAFE_URL_BYTES_TO_REMOVE s = s.
Proof.
  rewrite clean_nochar. intros H.
  apply andb_true_iff in H as [H H3]. apply andb_true_iff in H as [H1 H2].
  cbn [fold_left _UNSAFE_URL_BYTES_TO_REMOVE].
  by rewrite (remove_c_nochar _ _ H1), (remove_c_nochar _ _ H2), (remove_c_nochar _ _ H3).
Qed.

(** take and drop past the end *)

Lemma take_min (n : nat) (s : string) : take (Nat.min n (String.length s)) s = take n s.
Proof.
  revert s; induction n as [|n IH]; intros [|c s]; simpl; try reflexivity.
  by rewrite IH.
Qed.

Lemma drop_min (n : nat) (s : string) : drop (Nat.min n (String.length s)) s = drop n s.
Proof.
  revert s; induction n as [|n IH]; intros [|c s]; simpl; try reflexivity.
  by rewrite IH.
Qed.

Lemma clip_min (s : string) (n : nat) : clip s (Z.of_nat n) = Nat.min n (String.length s).
Proof.
  unfold clip, len. destruct (Z.of_nat n <? 0) eqn:E; [apply Z.ltb_lt in E; lia|]. lia.
Qed.

Lemma slice_to_nat (s : string) (n : nat) : slice_to s (Z.of_nat n) = take n s.
Proof. unfold slice_to. rewrite clip_min. apply take_min. Qed.

Lemma slice_from_nat (s : string) (n : nat) : slice_from s (Z.of_nat n) = drop n s.
Proof. unfold slice_from. rewrite clip_min. apply drop_min. Qed.

Lemma length_drop (n : nat) (s : string) :
  String.length (drop n s) = (String.length s - n)%nat.
Proof. revert s; induction n as [|n IH]; intros [|c s]; simpl; auto. Qed.

Lemma drop_drop (n m : nat) (s : string) : drop n (drop m s) = drop (m + n) s.
Proof.
  revert s; induction m as [|m IH]; intros s; simpl; [reflexivity|].
  destruct s as [|c s]; simpl; [by destruct n|apply IH].
Qed.

Lemma slice_nat (s : string) (i j : nat) :
  (i <= j)%nat → slice s (Z.of_nat i) (Z.of_nat j) = take (j - i) (drop i s).
Proof.
  intros Hij. unfold slice. rewrite !clip_min, drop_min.
  rewrite <- (take_min (j - i)), length_drop.
  rewrite <- (take_min (Nat.min j _ - Nat.min i _)), length_drop.
  f_equal. lia.
Qed.

End UrlFacts.

Section NetlocFacts.

Lemma first_of_le (cs : list ascii) (s : string) : (first_of cs s <= String.length s)%nat.
Proof.
  induction s as [|a s IH]; simpl; [lia|]. destruct (existsb _ cs); lia.
Qed.

Lemma first_of_nil (s : string) : first_of [] s = String.length s.
Proof. induction s as [|a s IH]; simpl; [reflexivity|]. by rewrite IH. Qed.

Lemma first_of_cons (c : ascii) (cs : list ascii) (s : string) :
  first_of (c :: cs) s = Nat.min (first_of [c] s) (first_of cs s).
Proof.
  induction s as [|a s IH]; simpl; [reflexivity|].
  destruct (Ascii.eqb a c); simpl; [reflexivity|].
  destruct (existsb (Ascii.eqb a) cs); simpl; [reflexivity|]. by rewrite IH.
Qed.

Lemma first_of_single (c : ascii) (s : string) :
  Z.of_nat (first_of [c] s) = if find0 c s <? 0 then len s else find0 c s.
Proof.
  unfold len. induction s as [|a s IH]; [reflexivity|].
  cbn [first_of existsb find0 String.length]. rewrite orb_false_r.
  destruct (Ascii.eqb a c); [reflexivity|].
  destruct (find0 c s <? 0) eqn:E.
  - simpl. lia.
  - apply Z.ltb_ge in E. destruct (_ <? 0) eqn:E'; [apply Z.ltb_lt in E'; lia|]. lia.
Qed.

Lemma nodelim_all (s : string) :
  nodelim s = all_c (fun a => negb (existsb (Ascii.eqb a) delims)) s.
Proof.
  unfold nodelim, nochar. induction s as [|a s IH]; [reflexivity|].
  cbn [all_c]. rewrite <- IH. cbn [existsb delims].
  destruct (Ascii.eqb a "/"), (Ascii.eqb a "?"), (Ascii.eqb a "#"); simpl;
    rewrite ?andb_false_r; try reflexivity;
    destruct (all_c _ s), (all_c _ s), (all_c _ s); reflexivity.
Qed.

Lemma nodelim_take_first_of (s : string) : nodelim (take (first_of delims s) s) = true.
Proof.
  rewrite nodelim_all. induction s as [|a s IH]; [reflexivity|].
  cbn [first_of]. destruct (existsb (Ascii.eqb a) delims) eqn:E; [reflexivity|].
  cbn [take all_c]. by rewrite E, IH.
Qed.

Lemma starts_drop_first_of (s : string) :
  starts_with_one_of delims (drop (first_of delims s) s) = true.
Proof.
  induction s as [|a s IH]; [reflexivity|].
  cbn [first_of]. destruct (existsb (Ascii.eqb a) delims) eqn:E; [exact E|exact IH].
Qed.

Lemma first_of_app (N T : string) :
  nodelim N = true → starts_with_one_of delims T = true →
  first_of delims (N +:+ T) = String.length N.
Proof.
  rewrite nodelim_all. intros HN HT. induction N as [|a N IH].
  - change ("" +:+ T) with T. destruct T as [|c T]; [reflexivity|].
    cbn [first_of]. cbn [starts_with_one_of] in HT. by rewrite HT.
  - cbn [all_c] in HN. apply andb_true_iff in HN as [H1 H2]. apply negb_true_iff in H1.
    rewrite app_cons. cbn [first_of String.length]. by rewrite H1, IH.
Qed.

Lemma find_from_2 (s : string) (c : ascii) :
  find_from ("//" +:+ s) c 2 = if find0 c s <? 0 then -1 else 2 + find0 c s.
Proof.
  assert (Hclip : clip ("//" +:+ s) 2 = 2%nat).
  { apply (clip_nat _ 2).
    change (String.length ("//" +:+ s)) with (S (S (String.length s))). lia. }
  unfold find_from. cbv zeta. rewrite Hclip.
  change (drop 2 ("//" +:+ s)) with s. reflexivity.
Qed.

Lemma delim_step (s : string) (c : ascii) (D : Z) :
  D <= 2 + len s →
  (if 0 <=? (if find0 c s <? 0 then -1 else 2 + find0 c s)
   then Z.min D (if find0 c s <? 0 then -1 else 2 + find0 c s) else D)
  = Z.min D (2 + Z.of_nat (first_of [c] s)).
Proof.
  intros HD. rewrite first_of_single.
  destruct (find0_range c s) as [E|E].
  - rewrite E. simpl. lia.
  - destruct (find0 c s <? 0) eqn:E'; [apply Z.ltb_lt in E'; lia|].
    destruct (0 <=? 2 + find0 c s) eqn:E''; [reflexivity|]. apply Z.leb_gt in E''. lia.
Qed.

(** _splitnetloc cuts at the first of "/", "?" and "#". *)
Lemma splitnetloc_2 (s : string) :
  _splitnetloc ("//" +:+ s) 2
  = (take (first_of delims s) s, drop (first_of delims s) s).
Proof.
  unfold _splitnetloc. cbn [fold_left]. rewrite !find_from_2.
  assert (Hlen : len ("//" +:+ s) = 2 + len s).
  { unfold len. change (String.length ("//" +:+ s)) with (S (S (String.length s))). lia. }
  rewrite Hlen.
  pose proof (first_of_le ["/"%char] s) as L1.
  pose proof (first_of_le ["?"%char] s) as L2.
  pose proof (first_of_le ["#"%char] s) as L3.
  rewrite (delim_step s "/" (2 + len s)) by lia.
  rewrite (delim_step s "?") by (unfold len; lia).
  rewrite (delim_step s "#") by (unfold len; lia).
  assert (HD : Z.min (Z.min (Z.min (2 + len s) (2 + Z.of_nat (first_of ["/"%char] s)))
                        (2 + Z.of_nat (first_of ["?"%char] s)))
                 (2 + Z.of_nat (first_of ["#"%char] s))
               = Z.of_nat (2 + first_of delims s)).
  { unfold delims.
    rewrite (first_of_cons "/" ["?"; "#"]%char), (first_of_cons "?" ["#"]%char).
    unfold len. lia. }
  rewrite HD. change 2 with (Z.of_nat 2) at 1.
  rewrite slice_nat by lia. rewrite slice_from_nat.
  replace (2 + first_of delims s - 2)%nat with (first_of delims s) by lia.
  change (drop 2 ("//" +:+ s)) with s.
  rewrite <- drop_drop. change (drop 2 ("//" +:+ s)) with s. reflexivity.
Qed.

Lemma slice_to_2 (url : string) :
  String.eqb (slice_to url 2) "//" = true → ∃ s, url = "//" +:+ s.
Proof.
  change 2 with (Z.of_nat 2). rewrite slice_to_nat.
  destruct url as [|a [|b s]]; cbn [take]; intros H; apply String.eqb_eq in H;
    try discriminate H.
  injection H as -> ->. by exists s.
Qed.

End NetlocFacts.

Section UrlsplitFacts.

Lemma split_rest_tail (sch rest : string) :
  split_rest sch rest
  = let NT := if String.eqb (slice_to rest 2) "//" then _splitnetloc rest 2 else ("", rest) in
    mkSplit sch NT.1 (split_tail NT.2).1.1 (split_tail NT.2).1.2 (split_tail NT.2).2.
Proof.
  unfold split_rest, split_tail.
  destruct (if String.eqb (slice_to rest 2) "//" then _splitnetloc rest 2 else ("", rest))
    as [N T]. cbv zeta. cbn [fst snd].
  destruct (if contains T "#" then split1 T "#" else (T, "")) as [u1 f].
  destruct (if contains u1 "?" then split1 u1 "?" else (u1, "")) as [p q].
  reflexivity.
Qed.

Lemma contains_split (s : string) (c : ascii) :
  contains s c = true →
  ∃ a b, s = a +:+ String c b ∧ nochar c a = true ∧ split1 s c = (a, b).
Proof.
  unfold contains, find. intros H. apply Z.leb_le in H.
  destruct (find0_split c s H) as (a & b & -> & Ha & _).
  exists a, b. split; [reflexivity|]. split; [exact Ha|]. by apply split1_app.
Qed.

(** What split_tail returns: a path without "?" and "#" that begins the
    input, a query without "#", and pieces that keep every property of the
    characters of the input. *)
Lemma split_tail_shape (T : string) :
  ∃ p q f X,
    split_tail T = (p, q, f) ∧ T = p +:+ X
    ∧ nochar "?" p = true ∧ nochar "#" p = true ∧ nochar "#" q = true
    ∧ ∀ P, all_c P T = true → all_c P p = true ∧ all_c P q = true ∧ all_c P f = true.
Proof.
  unfold split_tail.
  assert (Hq : ∀ u1 f X1, T = u1 +:+ X1 → nochar "#" u1 = true →
             (∀ P, all_c P T = true → all_c P u1 = true ∧ all_c P f = true) →
             ∃ p q f' X,
               (let '(url, query) :=
                  if contains u1 "?" then split1 u1 "?" else (u1, "") in
                (url, query, f)) = (p, q, f') ∧ T = p +:+ X
               ∧ nochar "?" p = true ∧ nochar "#" p = true ∧ nochar "#" q = true
               ∧ ∀ P, all_c P T = true →
                      all_c P p = true ∧ all_c P q = true ∧ all_c P f' = true).
  { intros u1 f X1 HT Hu1 Hall.
    destruct (contains u1 "?") eqn:E.
    - destruct (contains_split _ _ E) as (a & b & -> & Ha & ->).
      unfold nochar in Hu1. rewrite all_c_app in Hu1. cbn [all_c] in Hu1.
      apply andb_true_iff in Hu1 as [H1 H2]. apply andb_true_iff in H2 as [_ H2].
      exists a, b, f, (String "?" b +:+ X1).
      split; [reflexivity|]. split; [by rewrite HT, app_assoc_s|].
      split; [exact Ha|]. split; [exact H1|]. split; [exact H2|].
      intros P HP. destruct (Hall P HP) as [Hab Hf].
      rewrite all_c_app in Hab. cbn [all_c] in Hab.
      apply andb_true_iff in Hab as [Hpa Hpb]. apply andb_true_iff in Hpb as [_ Hpb].
      auto.
    - apply contains_false in E. exists u1, "", f, X1.
      split; [reflexivity|]. split; [exact HT|].
      split; [exact E|]. split; [exact Hu1|]. split; [reflexivity|].
      intros P HP. destruct (Hall P HP) as [Hu Hf]. auto. }
  destruct (contains T "#") eqn:E.
  - destruct (contains_split _ _ E) as (a & b & HT & Ha & ->).
    apply (Hq a b (String "#" b) HT Ha).
    intros P HP. rewrite HT, all_c_app in HP. cbn [all_c] in HP.
    apply andb_true_iff in HP as [Hpa Hpb]. apply andb_true_iff in Hpb as [_ Hpb]. auto.
  - apply contains_false in E. apply (Hq T "" ""); [by rewrite app_nil_r_s|exact E|].
    intros P HP. auto.
Qed.

Lemma split_tail_rebuilt (P Q : string) :
  nochar "?" P = true → nochar "#" P = true → nochar "#" Q = true →
  split_tail (P +:+ (if truthy Q then "?" +:+ Q else "")) = (P, Q, "").
Proof.
  intros H1 H2 H3. unfold split_tail. destruct Q as [|c Q]; cbn [truthy].
  - rewrite app_nil_r_s.
    replace (contains P "#") with false by (symmetry; by apply contains_false).
    replace (contains P "?") with false by (symmetry; by apply contains_false).
    reflexivity.
  - change ("?" +:+ String c Q) with (String "?" (String c Q)).
    replace (contains (P +:+ String "?" (String c Q)) "#") with false.
    2:{ symmetry. apply contains_false. rewrite nochar_app, H2.
        unfold nochar in H3 |- *. cbn [all_c] in H3 |- *. exact H3. }
    rewrite contains_app_head, split1_app by exact H1. reflexivity.
Qed.

(** The components urlsplit cuts out of a clean string. *)
Lemma split_rest_shape (sch rest : string) :
  clean rest = true →
  s_scheme (split_rest sch rest) = sch
  ∧ clean (s_netloc (split_rest sch rest)) = true
  ∧ nodelim (s_netloc (split_rest sch rest)) = true
  ∧ clean (s_path (split_rest sch rest)) = true
  ∧ nochar "?" (s_path (split_rest sch rest)) = true
  ∧ nochar "#" (s_path (split_rest sch rest)) = true
  ∧ clean (s_query (split_rest sch rest)) = true
  ∧ nochar "#" (s_query (split_rest sch rest)) = true
  ∧ s_fragment (split_rest sch rest) = (split_tail
        (if String.eqb (slice_to rest 2) "//" then _splitnetloc rest 2 else ("", rest)).2).2
  ∧ (truthy (s_netloc (split_rest sch rest)) = true →
     starts_with_one_of ["/"%char] (s_path (split_rest sch rest)) = true).
Proof.
  intros Hclean. rewrite split_rest_tail. cbv zeta. cbn [s_scheme s_netloc s_path s_query s_fragment].
  assert (HNT : ∃ N T, (if String.eqb (slice_to rest 2) "//" then _splitnetloc rest 2 else ("", rest)) = (N, T)
                       ∧ clean N = true ∧ nodelim N = true ∧ clean T = true
                       ∧ (truthy N = true → starts_with_one_of delims T = true)).
  { destruct (String.eqb (slice_to rest 2) "//") eqn:E.
    - destruct (slice_to_2 _ E) as [s ->]. rewrite splitnetloc_2.
      eexists _, _. split; [reflexivity|].
      assert (Hs : clean s = true).
      { unfold clean in Hclean |- *. change ("//" +:+ s) with (String "/" (String "/" s)) in Hclean.
        cbn [all_c] in Hclean. apply andb_true_iff in Hclean as [_ Hc].
        by apply andb_true_iff in Hc as [_ Hc]. }
      split; [by apply all_c_take|]. split; [apply nodelim_take_first_of|].
      split; [by apply all_c_drop|]. intros _. apply starts_drop_first_of.
    - exists "", rest. split; [reflexivity|]. split; [reflexivity|]. split; [reflexivity|].
      split; [exact Hclean|]. discriminate. }
  destruct HNT as (N & T & -> & HcN & HdN & HcT & Hstart). cbn [fst snd].
  destruct (split_tail_shape T) as (p & q & f & X & -> & HT & Hp1 & Hp2 & Hq & Hall).
  cbn [fst snd]. destruct (Hall _ HcT) as (Hcp & Hcq & _).
  refine (conj eq_refl (conj HcN (conj HdN (conj Hcp (conj Hp1 (conj Hp2
            (conj Hcq (conj Hq (conj eq_refl _))))))))).
  intros HN. specialize (Hstart HN). destruct p as [|c p]; [reflexivity|].
  rewrite HT in Hstart. rewrite app_cons in Hstart. cbn [starts_with_one_of existsb delims] in Hstart |- *.
  unfold nochar in Hp1, Hp2. cbn [all_c] in Hp1, Hp2.
  apply andb_true_iff in Hp1 as [Hp1 _]. apply andb_true_iff in Hp2 as [Hp2 _].
  apply negb_true_iff in Hp1, Hp2. rewrite Hp1, Hp2 in Hstart. exact Hstart.
Qed.

(** split_rest on a string put together from a netloc, a path and a query. *)
Lemma split_rest_rebuilt (sch N P Q : string) :
  nodelim N = true →
  starts_with_one_of ["/"%char] P = true →
  nochar "?" P = true → nochar "#" P = true → nochar "#" Q = true →
  split_rest sch ("//" +:+ N +:+ P +:+ (if truthy Q then "?" +:+ Q else ""))
  = mkSplit sch N P Q "".
Proof.
  intros HN HP H1 H2 H3. rewrite split_rest_tail.
  assert (E : String.eqb (slice_to ("//" +:+ N +:+ P +:+ (if truthy Q then "?" +:+ Q else "")) 2)
                "//" = true).
  { change 2 with (Z.of_nat 2). rewrite slice_to_nat. reflexivity. }
  rewrite E, splitnetloc_2. cbv zeta. cbn [fst snd].
  assert (Hstart : starts_with_one_of delims (P +:+ (if truthy Q then "?" +:+ Q else "")) = true).
  { destruct P as [|c P].
    - change ("" +:+ ?x) with x. by destruct Q.
    - rewrite app_cons. cbn [starts_with_one_of existsb delims] in HP |- *.
      rewrite orb_false_r in HP. by rewrite HP. }
  rewrite (first_of_app N _ HN Hstart), take_app_length, drop_app_len.
  by rewrite split_tail_rebuilt.
Qed.

End UrlsplitFacts.

Section UrlsplitScheme.

Lemma urlsplit_unfold (u : string) :
  urlsplit u
  = if has_scheme (tidy u)
    then split_rest (lower (slice_to (tidy u) (find (tidy u) ":")))
                    (slice_from (tidy u) (find (tidy u) ":" + 1))
    else split_rest "" (tidy u).
Proof.
  unfold urlsplit, has_scheme, tidy. cbv zeta.
  match goal with
  | |- context [if ?c then (lower _, _) else _] => destruct c
  end; reflexivity.
Qed.

Lemma clean_tidy (u : string) : clean (tidy u) = true.
Proof. apply unsafe_removed. Qed.

Lemma valid_scheme_plain (sch : string) :
  valid_scheme sch = true →
  nochar ":" sch = true ∧ nochar "#" sch = true ∧ clean sch = true
  ∧ lower sch = sch ∧ truthy sch = true.
Proof.
  unfold valid_scheme. intros H.
  apply andb_true_iff in H as [H H3]. apply andb_true_iff in H as [H1 H2].
  apply String.eqb_eq in H3.
  assert (Hall : ∀ q : ascii → bool,
            (∀ c, mem_c c scheme_chars = true → q c = true) → all_c q sch = true).
  { intros q Hq. by apply (all_c_impl _ _ _ Hq). }
  refine (conj _ (conj _ (conj _ (conj H3 _)))).
  - apply Hall. intros c Hc. pose proof (scheme_char_plain c Hc) as Hp.
    by destruct (Ascii.eqb c ":").
  - apply Hall. intros c Hc. pose proof (scheme_char_plain c Hc) as Hp.
    destruct (Ascii.eqb c "#"); [|reflexivity]. by rewrite !andb_false_r in Hp.
  - apply Hall. intros c Hc. pose proof (scheme_char_plain c Hc) as Hp.
    destruct (existsb _ _); [|reflexivity]. by rewrite !andb_false_r in Hp.
  - by destruct sch.
Qed.

(** The scheme urlsplit finds, and what it leaves to split_rest. *)
Lemma urlsplit_scheme (u : string) :
  ∃ sch rest,
    urlsplit u = split_rest sch rest
    ∧ (sch = "" ∨ valid_scheme sch = true)
    ∧ clean rest = true.
Proof.
  rewrite urlsplit_unfold. pose proof (clean_tidy u) as Hc.
  destruct (has_scheme (tidy u)) eqn:E.
  2:{ exists "", (tidy u). auto. }
  eexists _, _. split; [reflexivity|]. split; [|by apply all_c_drop].
  right. unfold has_scheme in E.
  apply andb_true_iff in E as [E E3]. apply andb_true_iff in E as [E1 E2].
  apply Z.ltb_lt in E1. unfold slice_to in *.
  destruct (tidy u) as [|c0 t] eqn:Et; [discriminate|].
  assert (Hclip : (1 <= clip (String c0 t) (find (String c0 t) ":"))%nat).
  { unfold clip, len. cbn [String.length].
    destruct (find (String c0 t) ":" <? 0) eqn:E'; [apply Z.ltb_lt in E'; lia|]. lia. }
  destruct (clip (String c0 t) (find (String c0 t) ":")) as [|k]; [lia|].
  cbn [take] in E3 |- *. cbn [lower]. unfold valid_scheme.
  destruct (alpha_lower c0 E2) as (Ha & _).
  rewrite Ha. cbn [andb].
  change (String (lower_c c0) (lower (take k t))) with (lower (String c0 (take k t))).
  rewrite (all_c_lower _ _ scheme_char_lower E3), lower_idem, String.eqb_refl.
  reflexivity.
Qed.

Lemma lstrip_head (c : ascii) (s chars : string) :
  mem_c c chars = false → lstrip (String c s) chars = String c s.
Proof. intros H. cbn [lstrip]. by rewrite H. Qed.

Lemma tidy_clean (c : ascii) (s : string) :
  mem_c c _WHATWG_C0_CONTROL_OR_SPACE = false → clean (String c s) = true →
  tidy (String c s) = String c s.
Proof. intros Hc Hs. unfold tidy. rewrite (lstrip_head _ _ _ Hc). by apply unsafe_kept. Qed.

Lemma urlsplit_with_scheme (sch R : string) :
  valid_scheme sch = true → clean R = true →
  urlsplit (sch +:+ ":" +:+ R) = split_rest sch R.
Proof.
  intros Hv HR. destruct (valid_scheme_plain sch Hv) as (Hcolon & _ & Hclean & Hlow & _).
  unfold valid_scheme in Hv.
  apply andb_true_iff in Hv as [Hv _]. apply andb_true_iff in Hv as [Hv1 Hv2].
  destruct sch as [|c0 sch']; [discriminate|].
  set (sch := String c0 sch') in *.
  assert (Hout : sch +:+ ":" +:+ R = String c0 (sch' +:+ ":" +:+ R)) by reflexivity.
  assert (Htidy : tidy (sch +:+ ":" +:+ R) = sch +:+ ":" +:+ R).
  { rewrite Hout. apply tidy_clean.
    - by destruct (alpha_lower c0 Hv1) as (_ & H & _).
    - rewrite <- Hout, !clean_app, Hclean, HR. reflexivity. }
  assert (Hfind : find (sch +:+ ":" +:+ R) ":" = len sch).
  { unfold find. rewrite (find0_app_nochar _ _ _ Hcolon).
    change (":" +:+ R) with (String ":" R). rewrite find0_head. simpl. lia. }
  rewrite urlsplit_unfold, Htidy, Hfind.
  assert (Hhas : has_scheme (sch +:+ ":" +:+ R) = true).
  { unfold has_scheme. rewrite Hfind, slice_to_app, Hv2, andb_true_r.
    rewrite Hout at 1. rewrite Hv1, andb_true_r.
    apply Z.ltb_lt. unfold len, sch. cbn [String.length]. lia. }
  rewrite Hhas, slice_to_app, Hlow.
  change (":" +:+ R) with (String ":" R). by rewrite slice_from_app_1.
Qed.

Lemma urlsplit_no_scheme (s : string) :
  clean s = true → urlsplit ("//" +:+ s) = split_rest "" ("//" +:+ s).
Proof.
  intros Hs.
  assert (Htidy : tidy ("//" +:+ s) = "//" +:+ s).
  { change ("//" +:+ s) with (String "/" (String "/" s)). apply tidy_clean; [reflexivity|].
    unfold clean in Hs |- *. cbn [all_c]. by rewrite Hs. }
  rewrite urlsplit_unfold, Htidy.
  assert (Hhas : has_scheme ("//" +:+ s) = false).
  { unfold has_scheme. change ("//" +:+ s) with (String "/" (String "/" s)).
    cbv beta iota. change (isascii_c "/" && isalpha_c "/") with false.
    by rewrite andb_false_r. }
  by rewrite Hhas.
Qed.

End UrlsplitScheme.

Section UrlparseFacts.

Lemma all_c_lstrip (q : ascii → bool) (s chars : string) :
  all_c q s = true → all_c q (lstrip s chars) = true.
Proof.
  induction s as [|c s IH]; [reflexivity|]. cbn [lstrip].
  destruct (mem_c c chars); [|done]. cbn [all_c]. intros H.
  apply andb_true_iff in H as [_ H]. by apply IH.
Qed.

Lemma all_c_tidy (q : ascii → bool) (u : string) :
  all_c q u = true → all_c q (tidy u) = true.
Proof.
  intros H. unfold tidy. cbn [fold_left _UNSAFE_URL_BYTES_TO_REMOVE].
  do 3 apply all_c_remove_c. by apply all_c_lstrip.
Qed.

(** Every component urlsplit returns consists of characters of the input. *)
Lemma split_rest_all (q : ascii → bool) (sch rest : string) :
  all_c q rest = true →
  all_c q (s_netloc (split_rest sch rest)) = true
  ∧ all_c q (s_path (split_rest sch rest)) = true
  ∧ all_c q (s_query (split_rest sch rest)) = true
  ∧ all_c q (s_fragment (split_rest sch rest)) = true.
Proof.
  intros Hq. rewrite split_rest_tail. cbv zeta. cbn [s_netloc s_path s_query s_fragment].
  assert (HNT : ∃ N T,
            (if String.eqb (slice_to rest 2) "//" then _splitnetloc rest 2 else ("", rest))
            = (N, T) ∧ all_c q N = true ∧ all_c q T = true).
  { destruct (String.eqb (slice_to rest 2) "//") eqn:E.
    - destruct (slice_to_2 _ E) as [s ->]. rewrite splitnetloc_2.
      eexists _, _. split; [reflexivity|].
      change ("//" +:+ s) with (String "/" (String "/" s)) in Hq. cbn [all_c] in Hq.
      apply andb_true_iff in Hq as [_ Hq]. apply andb_true_iff in Hq as [_ Hq].
      split; [by apply all_c_take|by apply all_c_drop].
    - exists "", rest. auto. }
  destruct HNT as (N & T & -> & HN & HT). cbn [fst snd].
  destruct (split_tail_shape T) as (p & q0 & f & X & -> & _ & _ & _ & _ & Hall).
  cbn [fst snd]. destruct (Hall _ HT) as (Hp & Hq0 & Hf). auto.
Qed.

Lemma urlsplit_all (q : ascii → bool) (u : string) :
  all_c q u = true →
  all_c q (s_netloc (urlsplit u)) = true
  ∧ all_c q (s_path (urlsplit u)) = true
  ∧ all_c q (s_query (urlsplit u)) = true
  ∧ all_c q (s_fragment (urlsplit u)) = true.
Proof.
  intros Hq. rewrite urlsplit_unfold. pose proof (all_c_tidy q u Hq) as Ht.
  destruct (has_scheme (tidy u)); apply split_rest_all; [|exact Ht].
  unfold slice_from. by apply all_c_drop.
Qed.

Lemma starts_take (cs : list ascii) (k : nat) (s : string) :
  starts_with_one_of cs s = true → starts_with_one_of cs (take k s) = true.
Proof. destruct k, s; auto. Qed.

Lemma starts_rstrip (cs : list ascii) (s chars : string) :
  starts_with_one_of cs s = true → starts_with_one_of cs (rstrip s chars) = true.
Proof.
  destruct s as [|c s]; [done|]. cbn [rstrip].
  destruct (rstrip s chars); [|done]. by destruct (mem_c c chars).
Qed.

(** _splitparams cuts its argument in two and drops at most one character. *)
Lemma splitparams_pieces (P : string) :
  ∃ k b, _splitparams P = (take k P, b) ∧ (b = "" ∨ ∃ k', b = drop k' P).
Proof.
  unfold _splitparams. destruct (contains P "/"); cbv zeta.
  - destruct (_ <? 0).
    + exists (String.length P), "". rewrite take_all by lia. auto.
    + eexists _, _. split; [reflexivity|]. right. by eexists.
  - eexists _, _. split; [reflexivity|]. right. by eexists.
Qed.

(** urlparse keeps the scheme, netloc, query and fragment of urlsplit and
    cuts the path in two. *)
Lemma urlparse_pieces (u : string) :
  ∃ k b,
    urlparse u = mkParse (s_scheme (urlsplit u)) (s_netloc (urlsplit u))
                         (take k (s_path (urlsplit u))) b
                         (s_query (urlsplit u)) (s_fragment (urlsplit u))
    ∧ (b = "" ∨ ∃ k', b = drop k' (s_path (urlsplit u)))
    ∧ (contains (s_path (urlsplit u)) ";" = false →
       take k (s_path (urlsplit u)) = s_path (urlsplit u) ∧ b = "").
Proof.
  unfold urlparse. cbv zeta.
  destruct (contains (s_path (urlsplit u)) ";") eqn:Ec.
  - destruct (in_list _ uses_params); cbn [andb].
    + destruct (splitparams_pieces (s_path (urlsplit u))) as (k & b & -> & Hb).
      exists k, b. split; [reflexivity|]. split; [exact Hb|discriminate].
    + exists (String.length (s_path (urlsplit u))), "".
      rewrite take_all by lia. split; [reflexivity|]. split; [by left|discriminate].
  - rewrite andb_false_r.
    exists (String.length (s_path (urlsplit u))), "".
    rewrite take_all by lia. auto.
Qed.

Lemma urlparse_netloc (u : string) : netloc (urlparse u) = s_netloc (urlsplit u).
Proof. by destruct (urlparse_pieces u) as (k & b & -> & _). Qed.

Lemma urlparse_scheme (u : string) : scheme (urlparse u) = s_scheme (urlsplit u).
Proof. by destruct (urlparse_pieces u) as (k & b & -> & _). Qed.

End UrlparseFacts.

Section NormalizeFacts.

Lemma truthy_lower (s : string) : truthy (lower s) = truthy s.
Proof. by destruct s. Qed.

Lemma nodelim_lower (s : string) : nodelim (lower s) = nodelim s.
Proof. unfold nodelim. by rewrite !nochar_lower. Qed.

Lemma clean_string (c : ascii) (s : string) :
  clean (String c s)
  = negb (existsb (Ascii.eqb c) _UNSAFE_URL_BYTES_TO_REMOVE) && clean s.
Proof. reflexivity. Qed.

(** The path normalize_url hands to urlunparse. *)
Lemma stripped_all (q : ascii → bool) (a : string) :
  q "/"%char = true → all_c q a = true → all_c q (or_else (rstrip a "/") "/") = true.
Proof.
  intros Hq Ha. pose proof (all_c_rstrip q a "/" Ha) as Hr. unfold or_else.
  destruct (rstrip a "/"); cbn [truthy]; [|exact Hr]. cbn [all_c]. by rewrite Hq.
Qed.

Lemma stripped_starts (a : string) :
  starts_with_one_of ["/"%char] a = true →
  ∃ t, or_else (rstrip a "/") "/" = String "/" t.
Proof.
  intros Ha. pose proof (starts_rstrip _ a "/" Ha) as Hr. unfold or_else.
  destruct (rstrip a "/") as [|c r]; cbn [truthy]; [by exists ""|].
  cbn [starts_with_one_of existsb] in Hr. rewrite orb_false_r in Hr.
  apply Ascii.eqb_eq in Hr. subst c. by exists r.
Qed.

Lemma rstrip_idem (s chars : string) : rstrip (rstrip s chars) chars = rstrip s chars.
Proof.
  induction s as [|c s IH]; [reflexivity|]. cbn [rstrip].
  destruct (rstrip s chars) as [|c' r] eqn:E.
  - destruct (mem_c c chars) eqn:Ec; [reflexivity|]. cbn [rstrip]. by rewrite Ec.
  - cbn [rstrip]. cbn [rstrip] in IH. by rewrite IH.
Qed.

Lemma stripped_idem (a : string) :
  or_else (rstrip (or_else (rstrip a "/") "/") "/") "/" = or_else (rstrip a "/") "/".
Proof.
  unfold or_else at 2 3. destruct (rstrip a "/") as [|c r] eqn:E; cbn [truthy].
  - reflexivity.
  - by rewrite <- E, rstrip_idem, E.
Qed.

(** urlunparse with a netloc and a path that begins with "/". *)
Lemma urlunparse_netloc (sch N t b Q : string) :
  truthy N = true →
  urlunparse sch N (String "/" t) b Q ""
  = assemble sch N (String "/" t +:+ (if truthy b then ";" +:+ b else "")) Q.
Proof.
  intros HN. unfold urlunparse, urlunsplit, assemble, or_else. rewrite HN. cbn [orb].
  assert (Hhead : ∀ x, negb (String.eqb (slice_to (String "/" x) 1) "/") = false).
  { intros x. change 1 with (Z.of_nat 1). by rewrite slice_to_nat. }
  destruct b as [|cb b]; cbn [truthy].
  - rewrite app_nil_r_s, Hhead. cbn [andb].
    destruct sch as [|cs sch], Q as [|cq Q]; cbn [truthy];
      rewrite ?app_assoc_s, ?app_nil_r_s; reflexivity.
  - rewrite !(app_cons "/" t), Hhead. cbn [truthy andb].
    destruct sch as [|cs sch], Q as [|cq Q]; cbn [truthy];
      rewrite ?app_assoc_s, ?app_nil_r_s; reflexivity.
Qed.

(** urlsplit reads back what was put together. *)
Lemma urlsplit_assemble (sch N P Q : string) :
  sch = "" ∨ valid_scheme sch = true →
  nodelim N = true → clean N = true →
  starts_with_one_of ["/"%char] P = true →
  nochar "?" P = true → nochar "#" P = true → clean P = true →
  nochar "#" Q = true → clean Q = true →
  urlsplit (assemble sch N P Q) = mkSplit sch N P Q "".
Proof.
  intros Hsch HN HcN HP H1 H2 HcP H3 HcQ. unfold assemble.
  assert (Hclean : clean (N +:+ P +:+ (if truthy Q then "?" +:+ Q else "")) = true).
  { rewrite !clean_app, HcN, HcP. by destruct Q. }
  destruct Hsch as [->|Hv].
  - cbn [truthy]. change ("" +:+ ?x) with x.
    rewrite urlsplit_no_scheme by exact Hclean. by apply split_rest_rebuilt.
  - destruct (valid_scheme_plain sch Hv) as (_ & _ & _ & _ & Ht). rewrite Ht.
    rewrite app_assoc_s. change (":" +:+ ?x) with (String ":" x).
    change (String ":" ("//" +:+ ?x)) with (":" +:+ "//" +:+ x).
    rewrite urlsplit_with_scheme; [by apply split_rest_rebuilt|exact Hv|].
    change ("//" +:+ ?x) with (String "/" (String "/" x)).
    rewrite !clean_string. exact Hclean.
Qed.

(** What urlsplit returns for any string. *)
Lemma urlsplit_shape (u : string) :
  (s_scheme (urlsplit u) = "" ∨ valid_scheme (s_scheme (urlsplit u)) = true)
  ∧ clean (s_netloc (urlsplit u)) = true
  ∧ nodelim (s_netloc (urlsplit u)) = true
  ∧ clean (s_path (urlsplit u)) = true
  ∧ nochar "?" (s_path (urlsplit u)) = true
  ∧ nochar "#" (s_path (urlsplit u)) = true
  ∧ clean (s_query (urlsplit u)) = true
  ∧ nochar "#" (s_query (urlsplit u)) = true
  ∧ (truthy (s_netloc (urlsplit u)) = true →
     starts_with_one_of ["/"%char] (s_path (urlsplit u)) = true).
Proof.
  destruct (urlsplit_scheme u) as (sch & rest & -> & Hsch & Hclean).
  destruct (split_rest_shape sch rest Hclean)
    as (-> & H1 & H2 & H3 & H4 & H5 & H6 & H7 & _ & H9).
  auto 10.
Qed.

(** normalize_url of a URL with a netloc, in terms of the components of
    urlsplit. *)
Lemma normalize_url_assembled (u : string) :
  truthy (s_netloc (urlsplit u)) = true →
  ∃ P1,
    normalize_url u
    = assemble (s_scheme (urlsplit u)) (lower (s_netloc (urlsplit u))) P1
               (s_query (urlsplit u))
    ∧ starts_with_one_of ["/"%char] P1 = true
    ∧ nochar "?" P1 = true ∧ nochar "#" P1 = true ∧ clean P1 = true
    ∧ (contains (s_path (urlsplit u)) ";" = false →
       P1 = or_else (rstrip (s_path (urlsplit u)) "/") "/").
Proof.
  intros HN.
  destruct (urlsplit_shape u) as (_ & _ & _ & HcP & H1 & H2 & _ & _ & Hstart).
  specialize (Hstart HN).
  unfold normalize_url. cbv zeta.
  destruct (urlparse_pieces u) as (k & b & -> & Hb & Hsemi).
  cbn [scheme netloc path params query].
  set (P := s_path (urlsplit u)) in *.
  destruct (stripped_starts (take k P) (starts_take _ k P Hstart)) as [t Ht].
  assert (Hall : ∀ q : ascii → bool,
            q "/"%char = true → q ";"%char = true → all_c q P = true →
            all_c q (String "/" t +:+ (if truthy b then ";" +:+ b else "")) = true).
  { intros q Hq1 Hq2 HqP. rewrite all_c_app, <- Ht.
    rewrite (stripped_all q _ Hq1 (all_c_take q k P HqP)). cbn [andb].
    destruct Hb as [->|[k' ->]]; [reflexivity|].
    pose proof (all_c_drop q k' P HqP) as Hd.
    destruct (drop k' P) as [|c d]; [reflexivity|]. cbn [truthy].
    change (";" +:+ String c d) with (String ";" (String c d)).
    cbn [all_c] in Hd |- *. by rewrite Hq2, Hd. }
  rewrite Ht, urlunparse_netloc by (by rewrite truthy_lower).
  eexists. split; [reflexivity|]. split; [by rewrite app_cons|].
  split; [by apply Hall|]. split; [by apply Hall|]. split; [by apply Hall|].
  intros Hs. destruct (Hsemi Hs) as [Hk ->]. cbn [truthy].
  by rewrite app_nil_r_s, <- Ht, Hk.
Qed.

(** urlsplit of a normalized URL. *)
Lemma urlsplit_normalized (u : string) :
  truthy (s_netloc (urlsplit u)) = true →
  ∃ P1,
    normalize_url u
    = assemble (s_scheme (urlsplit u)) (lower (s_netloc (urlsplit u))) P1
               (s_query (urlsplit u))
    ∧ urlsplit (normalize_url u)
      = mkSplit (s_scheme (urlsplit u)) (lower (s_netloc (urlsplit u))) P1
                (s_query (urlsplit u)) ""
    ∧ (contains (s_path (urlsplit u)) ";" = false →
       P1 = or_else (rstrip (s_path (urlsplit u)) "/") "/").
Proof.
  intros HN.
  destruct (normalize_url_assembled u HN) as (P1 & Hn & Hs & H1 & H2 & Hc & Hsemi).
  destruct (urlsplit_shape u) as (Hsch & HcN & HdN & _ & _ & _ & HcQ & HQ & _).
  exists P1. split; [exact Hn|]. split; [|exact Hsemi].
  rewrite Hn. apply urlsplit_assemble; auto.
  - by rewrite nodelim_lower.
  - by rewrite clean_lower.
Qed.

End NormalizeFacts.

(** ** normalize_url and the domain filter *)

Section NormalizeTheorems.

Lemma urlparse_query (u : string) : query (urlparse u) = s_query (urlsplit u).
Proof. by destruct (urlparse_pieces u) as (k & b & -> & _). Qed.

Lemma urlparse_fragment (u : string) : fragment (urlparse u) = s_fragment (urlsplit u).
Proof. by destruct (urlparse_pieces u) as (k & b & -> & _). Qed.

Lemma truthy_ne (s : string) : s ≠ "" → truthy s = true.
Proof. by destruct s. Qed.

Lemma endswith_truthy (s p : string) : endswith s p = true → truthy p = true → truthy s = true.
Proof.
  unfold endswith. destruct s as [|c s]; [|done]. destruct p as [|c p]; [done|].
  discriminate.
Qed.

Lemma allowed_has_netloc (u : string) :
  is_allowed_domain u = true → truthy (s_netloc (urlsplit u)) = true.
Proof.
  unfold is_allowed_domain, ALLOWED_TLDS. cbv zeta. cbn [existsb].
  rewrite urlparse_netloc, orb_false_r, <- (truthy_lower (s_netloc (urlsplit u))).
  intros H. apply orb_true_iff in H as [H|H]; [|apply orb_true_iff in H as [H|H]];
    by apply (endswith_truthy _ _ H).
Qed.

(** normalize_url keeps a URL of an allowed domain in its domain. *)
Lemma is_allowed_normalized (u : string) :
  is_allowed_domain u = true → is_allowed_domain (normalize_url u) = true.
Proof.
  intros H. pose proof (allowed_has_netloc u H) as HN.
  destruct (urlsplit_normalized u HN) as (P1 & _ & Hs & _).
  unfold is_allowed_domain in H |- *. cbv zeta in H |- *.
  rewrite urlparse_netloc in H |- *. rewrite Hs. cbn [s_netloc].
  by rewrite lower_idem.
Qed.

(** X13: normalize_url keeps the scheme and the query of a URL that has a
    netloc, lower-cases the netloc and drops the fragment, as urlparse reads
    them back from the result; so the normalized URL is in an allowed domain
    exactly when the URL is. *)
Theorem normalize_url_keeps_netloc (u : string) :
  netloc (urlparse u) ≠ "" →
  scheme (urlparse (normalize_url u)) = scheme (urlparse u)
  ∧ netloc (urlparse (normalize_url u)) = lower (netloc (urlparse u))
  ∧ query (urlparse (normalize_url u)) = query (urlparse u)
  ∧ fragment (urlparse (normalize_url u)) = ""
  ∧ is_allowed_domain (normalize_url u) = is_allowed_domain u.
Proof.
  intros Hne. apply truthy_ne in Hne. rewrite urlparse_netloc in Hne.
  destruct (urlsplit_normalized u Hne) as (P1 & _ & Hs & _).
  unfold is_allowed_domain. cbv zeta.
  rewrite !urlparse_scheme, !urlparse_netloc, !urlparse_query, urlparse_fragment, Hs.
  cbn [s_scheme s_netloc s_query s_fragment]. by rewrite lower_idem.
Qed.

(** X14: on a URL that has a netloc and no semicolon, normalize_url is
    idempotent. *)
Theorem normalize_url_idempotent (u : string) :
  netloc (urlparse u) ≠ "" →
  nochar ";" u = true →
  normalize_url (normalize_url u) = normalize_url u.
Proof.
  intros Hne Hsemi. apply truthy_ne in Hne. rewrite urlparse_netloc in Hne.
  destruct (urlsplit_all _ u Hsemi) as (_ & HP & _).
  fold (nochar ";" (s_path (urlsplit u))) in HP.
  pose proof (proj2 (contains_false _ _) HP) as Hc.
  destruct (urlsplit_normalized u Hne) as (P1 & _ & Hs & HP1).
  specialize (HP1 Hc). subst P1.
  assert (Hc' : contains (or_else (rstrip (s_path (urlsplit u)) "/") "/") ";" = false).
  { apply contains_false. by apply stripped_all. }
  assert (H1 : urlparse u
               = mkParse (s_scheme (urlsplit u)) (s_netloc (urlsplit u))
                         (s_path (urlsplit u)) "" (s_query (urlsplit u))
                         (s_fragment (urlsplit u))).
  { destruct (urlparse_pieces u) as (k & b & -> & _ & Hk).
    destruct (Hk Hc) as [-> ->]. reflexivity. }
  assert (H2 : urlparse (normalize_url u)
               = mkParse (s_scheme (urlsplit u)) (lower (s_netloc (urlsplit u)))
                         (or_else (rstrip (s_path (urlsplit u)) "/") "/") ""
                         (s_query (urlsplit u)) "").
  { destruct (urlparse_pieces (normalize_url u)) as (k & b & -> & _ & Hk).
    rewrite Hs in Hk |- *. cbn [s_scheme s_netloc s_path s_query s_fragment] in Hk |- *.
    destruct (Hk Hc') as [-> ->]. reflexivity. }
  unfold normalize_url at 1. rewrite H2. cbv zeta. cbn [scheme netloc path params query].
  rewrite lower_idem, stripped_idem.
  unfold normalize_url. rewrite H1. reflexivity.
Qed.

Lemma nochar_string (c a : ascii) (s : string) :
  nochar c (String a s) = negb (Ascii.eqb a c) && nochar c s.
Proof. reflexivity. Qed.

(** X15: the result of normalize_url contains no "#": the fragment is dropped
    and no other component can carry one. *)
Theorem normalize_url_has_no_fragment (u : string) :
  nochar "#" (normalize_url u) = true.
Proof.
  destruct (urlsplit_shape u) as (Hsch & _ & HdN & _ & _ & HP & _ & HQ & _).
  assert (Hs : nochar "#" (s_scheme (urlsplit u)) = true).
  { destruct Hsch as [->|Hv]; [reflexivity|].
    by destruct (valid_scheme_plain _ Hv) as (_ & H & _). }
  assert (HN : nochar "#" (lower (s_netloc (urlsplit u))) = true).
  { rewrite nochar_lower by reflexivity. unfold nodelim in HdN.
    by apply andb_true_iff in HdN as [_ H]. }
  unfold normalize_url. cbv zeta.
  destruct (urlparse_pieces u) as (k & b & -> & Hb & _).
  cbn [scheme netloc path params query].
  set (P := s_path (urlsplit u)) in *.
  assert (Hpa : nochar "#" (or_else (rstrip (take k P) "/") "/") = true).
  { apply stripped_all; [reflexivity|]. by apply all_c_take. }
  assert (Hpb : nochar "#" b = true).
  { destruct Hb as [->|[k' ->]]; [reflexivity|]. by apply all_c_drop. }
  set (pa := or_else (rstrip (take k P) "/") "/") in *. clearbody pa.
  unfold urlunparse, urlunsplit, or_else. cbn [truthy].
  repeat match goal with
         | |- context [if ?c then _ else _] => destruct c
         end;
    rewrite ?nochar_app, ?nochar_string, ?Hs, ?HN, ?Hpa, ?Hpb, ?HQ; reflexivity.
Qed.

End NormalizeTheorems.

Lemma normalize_url_keeps_netloc_witness :
  netloc (urlparse (normalize_url "HTTP://Example.EDU/a/?q=1#top")) = "example.edu".
Proof.
  refine (proj1 (proj2 (normalize_url_keeps_netloc "HTTP://Example.EDU/a/?q=1#top" _))).
  vm_compute. discriminate.
Defined.

Lemma normalize_url_idempotent_witness :
  normalize_url (normalize_url "HTTP://Example.EDU/a/?q=1#top")
  = normalize_url "HTTP://Example.EDU/a/?q=1#top".
Proof.
  apply normalize_url_idempotent.
  - vm_compute. discriminate.
  - vm_compute. reflexivity.
Defined.

(** ** The domain filter over a traversal *)

Section DomainTheorems.

Variable env : Env.

Lemma crawl_fuel_allowed (fuel : nat) (url : string) (max_depth : Z) (crawl_id : nat)
    (depth : Z) (v : gset string) (st : State) r v' st' nf np :
  is_allowed_domain (normalize_url url) = true →
  crawl_fuel env fuel url max_depth crawl_id depth v st = Some (r, v', st') →
  evolves st st' nf np →
  ∀ d u, (d, u) ∈ nf → is_allowed_domain u = true.
Proof.
  intros HA H Ev.
  refine (proj1 (crawl_fuel_sat env max_depth crawl_id
                   (λ x, is_allowed_domain (normalize_url x) = true) (λ _, True)
                   (λ _ _ u, is_allowed_domain u = true) (λ _ _, True)
                   _ _ _ _ _ fuel url depth v st r v' st' nf np HA Logic.I H Ev)).
  - intros link _ Hal. by apply is_allowed_normalized.
  - done.
  - done.
  - done.
  - intros x d s r0 s' nf1 np1 HAx _ Hpage E. split; [|done].
    destruct (crawl_page_detail _ _ _ _ _ _ _ _ _ Hpage E) as [[-> ->]|(-> & _)].
    + intros d' u Hin. by apply elem_of_nil in Hin.
    + intros d' u Hin. apply list_elem_of_singleton in Hin. by injection Hin as -> ->.
Qed.

Lemma db_call_fetches {A} (op : Db.t → A * Db.t) (st st' : State) (r : result A) :
  db_call env op st = (r, st') → fetches (trace st') = fetches (trace st).
Proof.
  unfold db_call. destruct (db_fault env (tick st)).
  - by intros [= <- <-].
  - destruct (op (db st)) as [a d]. by intros [= <- <-].
Qed.

Lemma finish_crawl_fetches (crawl_id n : nat) (status : string) (st st' : State) r :
  finish_crawl env crawl_id n status st = (r, st') →
  fetches (trace st') = fetches (trace st).
Proof.
  unfold finish_crawl, bind.
  destruct (db_call env _ st) as [[[]|e] s] eqn:E; apply db_call_fetches in E.
  - unfold emit. intros [= <- <-]. unfold log. cbn [trace].
    by rewrite fetches_app, app_nil_r.
  - by intros [= <- <-].
Qed.

Lemma interrupted_fetches (crawl_id : nat) (st st' : State) r :
  bind (count_pages env crawl_id)
       (λ c, finish_crawl env crawl_id c "interrupted") st = (r, st') →
  fetches (trace st') = fetches (trace st).
Proof.
  unfold bind, count_pages.
  destruct (db_call env _ st) as [[c|e] s] eqn:E; apply db_call_fetches in E.
  - intros H. apply finish_crawl_fetches in H. congruence.
  - by intros [= <- <-].
Qed.

(** main ends; it fetches nothing itself: the fetches of a run are those of
    its one call of crawl, made on a seed of an allowed domain. *)
Lemma main_run (url : string) (depth : Z) (st : State) :
  ∃ res st',
    main env url depth st = Some (res, st')
    ∧ (fetches (trace st') = fetches (trace st)
       ∨ ∃ seed_url crawl_id s0 r v s1,
           is_allowed_domain seed_url = true
           ∧ crawl env seed_url depth crawl_id 0 None s0 = Some (r, v, s1)
           ∧ fetches (trace s0) = fetches (trace st)
           ∧ fetches (trace st') = fetches (trace s1)).
Proof.
  unfold main.
  set (seed_url := if startswith url "http://" || startswith url "https://"
                   then url else "https://" +:+ url).
  destruct (is_allowed_domain seed_url) eqn:Hallowed; cbn [negb].
  2:{ eexists _, _. split; [reflexivity|by left]. }
  destruct (bind (init_db env) (λ _, create_crawl env seed_url depth) st)
    as [[crawl_id|e] s0] eqn:E0.
  2:{ eexists _, _. split; [reflexivity|]. left.
      unfold bind, init_db, create_crawl in E0.
      destruct (db_call env _ st) as [[[]|e1] s] eqn:E1; apply db_call_fetches in E1.
      - apply db_call_fetches in E0. congruence.
      - by injection E0 as <- <-. }
  assert (H0 : fetches (trace s0) = fetches (trace st)).
  { unfold bind, init_db, create_crawl in E0.
    destruct (db_call env _ st) as [[[]|e1] s] eqn:E1; apply db_call_fetches in E1.
    - apply db_call_fetches in E0. congruence.
    - discriminate E0. }
  destruct (crawl_fuel_total env depth crawl_id (S (Z.to_nat (depth - 0)))
              seed_url 0 ∅ s0) as [[[r v'] s1] E]; [lia|].
  assert (Hright : ∀ (res : result unit) (st' : State),
            fetches (trace st') = fetches (trace s1) →
            ∃ res0 st0, Some (res, st') = Some (res0, st0)
              ∧ (fetches (trace st0) = fetches (trace st)
                 ∨ ∃ seed_url0 crawl_id0 s2 r0 v0 s3,
                     is_allowed_domain seed_url0 = true
                     ∧ crawl env seed_url0 depth crawl_id0 0 None s2 = Some (r0, v0, s3)
                     ∧ fetches (trace s2) = fetches (trace st)
                     ∧ fetches (trace st0) = fetches (trace s3))).
  { intros res st' Hf. exists res, st'. split; [reflexivity|]. right.
    exists seed_url, crawl_id, s0, r, v', s1. auto. }
  unfold crawl. rewrite E.
  destruct r as [n|[|what]].
  - destruct (finish_crawl env crawl_id n "done" s1) as [[[]|[|what]] s2] eqn:E2;
      apply finish_crawl_fetches in E2.
    + by apply Hright.
    + destruct (bind _ _ s2) as [r3 s3] eqn:E3. apply interrupted_fetches in E3.
      apply Hright. congruence.
    + destruct (finish_crawl env crawl_id 0 "error" s2) as [r3 s3] eqn:E3.
      apply finish_crawl_fetches in E3. apply Hright. congruence.
  - destruct (bind _ _ s1) as [r3 s3] eqn:E3. apply interrupted_fetches in E3.
    by apply Hright.
  - destruct (finish_crawl env crawl_id 0 "error" s1) as [r3 s3] eqn:E3.
    apply finish_crawl_fetches in E3. by apply Hright.
Qed.

(** X16: a call of crawl on a URL of an allowed domain returns, and every URL
    it has fetched is of an allowed domain: the root after normalization, and
    every link after the second normalization it gets on entry to the
    recursive call. *)
Theorem crawl_fetches_only_allowed_domains (url : string) (max_depth : Z) (crawl_id : nat)
    (depth : Z) (visited : option (gset string)) (st : State) :
  is_allowed_domain url = true →
  ∃ r v st' nf,
    crawl env url max_depth crawl_id depth visited st = Some (r, v, st')
    ∧ fetches (trace st') = (fetches (trace st) ++ nf)%list
    ∧ ∀ d u, (d, u) ∈ nf → is_allowed_domain u = true.
Proof.
  intros Hallowed. unfold crawl.
  destruct (crawl_fuel_total env max_depth crawl_id (S (Z.to_nat (max_depth - depth)))
              url depth (match visited with Some v => v | None => ∅ end) st)
    as [[[r v'] st'] E]; [lia|].
  pose proof (crawl_fuel_post _ _ _ _ _ _ _ _ _ E) as (nf & np & Ev & _).
  exists r, v', st', nf. split; [exact E|]. split; [apply Ev|].
  apply (crawl_fuel_allowed _ _ _ _ _ _ _ _ _ _ _ _ (is_allowed_normalized _ Hallowed) E Ev).
Qed.

(** X17: a run of main ends, whatever the arguments, the state and the
    environment, and every URL fetched in the run is of an allowed domain:
    the crawler never requests a page outside .edu, .org and .gov. *)
Theorem main_fetches_only_allowed_domains (url : string) (depth : Z) (st : State) :
  ∃ res st' nf,
    main env url depth st = Some (res, st')
    ∧ fetches (trace st') = (fetches (trace st) ++ nf)%list
    ∧ ∀ d u, (d, u) ∈ nf → is_allowed_domain u = true.
Proof.
  destruct (main_run url depth st) as (res & st' & Hm & [Hf|Hc]).
  - exists res, st', []. split; [exact Hm|]. split; [by rewrite app_nil_r|].
    intros d u Hin. by apply elem_of_nil in Hin.
  - destruct Hc as (seed_url & crawl_id & s0 & r & v & s1 & Hallowed & E & H0 & H1).
    unfold crawl in E.
    pose proof (crawl_fuel_post _ _ _ _ _ _ _ _ _ E) as (nf & np & Ev & _).
    exists res, st', nf. split; [exact Hm|]. split.
    + rewrite H1, <- H0. apply Ev.
    + apply (crawl_fuel_allowed _ _ _ _ _ _ _ _ _ _ _ _
               (is_allowed_normalized _ Hallowed) E Ev).
Qed.

End DomainTheorems.

(** The traversal of the sample world from its seed. *)
Lemma crawl_fetches_only_allowed_domains_witness :
  ∃ r v st' nf,
    crawl Sample.env "https://example.edu" 1 1 0 None Sample.job_state = Some (r, v, st')
    ∧ fetches (trace st') = (fetches (trace Sample.job_state) ++ nf)%list
    ∧ ∀ d u, (d, u) ∈ nf → is_allowed_domain u = true.
Proof.
  apply crawl_fetches_only_allowed_domains. vm_compute. reflexivity.
Defined.

(** ** check_robots and the HTTP status of robots.txt *)

Section RobotsStatus.

Variable env : Env.

(** X18: when the request for robots.txt of a domain that is not cached is
    answered with an HTTP error status, check_robots returns, caches a parser
    and answers every URL of the domain alike, now and from the cache later:
    no URL is allowed after 401 or 403, every URL after another 4xx (404: the
    site has no robots.txt), and no URL after any other status (5xx), where
    the parser is left as never read. *)
Theorem check_robots_by_status (url : string) (st : State) (code : Z) :
  let domain := netloc (urlparse url) in
  let verdict :=
    negb ((code =? 401) || (code =? 403)) && (400 <=? code) && (code <? 500) in
  _robots_cache st !! domain = None →
  robots_txt env (tick st) (scheme (urlparse url) +:+ "://" +:+ domain +:+ "/robots.txt")
    = RobotsHTTPError code →
  ∃ st' rp,
    check_robots env url st = (Ok verdict, st')
    ∧ _robots_cache st' !! domain = Some rp
    ∧ (∀ u, can_fetch rp USER_AGENT u = verdict)
    ∧ (∀ url2, netloc (urlparse url2) = domain →
               check_robots env url2 st' = (Ok verdict, st')).
Proof.
  intros domain verdict Hmiss Hread.
  set (robots_url := scheme (urlparse url) +:+ "://" +:+ domain +:+ "/robots.txt") in *.
  set (rp0 := set_url RobotFileParser_new robots_url).
  set (rp := (read (RobotsHTTPError code) (now st) rp0).2).
  assert (Hcan : ∀ u, can_fetch rp USER_AGENT u = verdict).
  { intros u. unfold rp, verdict, read, can_fetch. cbn [snd].
    destruct ((code =? 401) || (code =? 403)); [reflexivity|]. cbn [negb andb].
    by destruct ((400 <=? code) && (code <? 500)). }
  exists (cache_robots domain rp (next_tick (log (RobotsRead domain robots_url) st))), rp.
  split; [|split; [|split]].
  - unfold check_robots. fold domain. rewrite Hmiss. fold robots_url.
    rewrite Hread. fold rp0. rewrite <- (Hcan url). unfold rp, read. reflexivity.
  - apply lookup_insert_eq.
  - exact Hcan.
  - intros url2 Hnet. unfold check_robots. rewrite Hnet.
    cbn [_robots_cache cache_robots]. rewrite lookup_insert_eq. by rewrite Hcan.
Qed.

End RobotsStatus.

(** The seed of the sample world when robots.txt is answered with 503. *)
Lemma check_robots_by_status_witness :
  ∃ st', check_robots (env_robots_status 503) "https://example.edu/" Sample.initial_state
         = (Ok false, st').
Proof.
  destruct (check_robots_by_status (env_robots_status 503) "https://example.edu/"
              Sample.initial_state 503) as (st' & rp & H & _).
  - vm_compute. reflexivity.
  - vm_compute. reflexivity.
  - exists st'. exact H.
Defined.
